(** * Backathon: object graph, scan engine, backup engine, garbage collector

    A shallow embedding of [backathon/models.py], [backathon/scan.py] and
    [backathon/backup.py], followed by the properties of the repository's
    specification that are proved (or refuted) on it.

    Conventions of the embedding:
    - Python [int] is [Z]; [bytes] is [list byte]; [str] is [string];
    - a Python exception is a value of [exn], and a fallible computation
      returns [Res A];
    - the metadata database is the record [DB]; every operation that
      writes takes a [DB] and returns the new one;
    - the filesystem is an oracle [FS] answering the system calls the
      code makes;
    - recursive SQL queries and [while] loops take a [fuel] argument: running
      out of fuel stands for a query or a loop that does not terminate. *)

From Stdlib Require Import ZArith Lia.
From Stdlib Require Import Strings.Byte Strings.Ascii.
From Corelib Require Import SpecFloat.
From stdpp Require Import gmap strings list sorting.

Set Warnings "-register-all".
Local Open Scope Z_scope.

(** ** Python values, exceptions and results *)

Module Py.

Inductive oserror : Type :=
| FileNotFoundError
| NotADirectoryError
| PermissionError
| OtherOSError.

Inductive exn : Type :=
| StopIteration
| TypeError
| IndexError
| KeyError
| ValueError
| AttributeError
| ZeroDivisionError
| OverflowError
| AssertionError
| RuntimeError (msg : string)
| OSError (e : oserror)
| IntegrityError
| ProtectedError
| DoesNotExist
| DependencyError
| UnsupportedTypeException.

Inductive Res (A : Type) : Type :=
| Ok (a : A)
| Exc (x : exn).
Arguments Ok {A} a.
Arguments Exc {A} x.

Definition bind {A B} (r : Res A) (f : A → Res B) : Res B :=
  match r with
  | Ok a => f a
  | Exc x => Exc x
  end.

#[export] Instance Res_ret : MRet Res := @Ok.
#[export] Instance Res_bind : MBind Res := λ A B f r, bind r f.

(** How a generator or a procedure ends: it returns, it raises, or (for a
    model that ran out of fuel) it never ends. *)
Inductive outcome : Type :=
| Finished
| Raised (x : exn)
| Hangs.

Definition bytes := list byte.

#[export] Instance byte_eq_dec : EqDecision byte := Byte.byte_eq_dec.

Definition byte_to_Z (b : byte) : Z := Z.of_N (Byte.to_N b).

(** [int.from_bytes(b, 'little')] *)
Definition int_from_bytes_little (b : bytes) : Z :=
  foldr (λ x acc, byte_to_Z x + 256 * acc) 0 b.

(** [a % m] on Python integers: floored, [ZeroDivisionError] for [m = 0]. *)
Definition py_mod (a m : Z) : Res Z :=
  if m =? 0 then Exc ZeroDivisionError else Ok (a mod m).

(** [divmod(a, 8)] *)
Definition divmod8 (a : Z) : Z * Z := (a / 8, a mod 8).

(** Index normalisation of a Python sequence of length [len]: negative
    indices count from the end, anything else out of range raises. *)
Definition py_index (len : nat) (i : Z) : Res nat :=
  if (0 <=? i) && (i <? Z.of_nat len) then Ok (Z.to_nat i)
  else if (i <? 0) && (- Z.of_nat len <=? i) then Ok (Z.to_nat (Z.of_nat len + i))
  else Exc IndexError.

(** [bytearray(n)], [b[i]] and [b[i] = v] *)
Definition bytearray (n : Z) : Res (list Z) :=
  if n <? 0 then Exc ValueError else Ok (replicate (Z.to_nat n) 0).

Definition bytearray_get (b : list Z) (i : Z) : Res Z :=
  n ← py_index (length b) i;
  match b !! n with
  | Some v => Ok v
  | None => Exc IndexError
  end.

Definition bytearray_set (b : list Z) (i v : Z) : Res (list Z) :=
  n ← py_index (length b) i;
  if (0 <=? v) && (v <? 256) then Ok (<[n := v]> b) else Exc ValueError.

(** *** Binary64 floats

    The arithmetic of [collect_garbage] is done in IEEE 754 binary64; it is
    modelled with the executable specification of the kernel's floats. *)

Definition prec : Z := 53.
Definition emax : Z := 1024.
Definition float := spec_float.

(** [float(z)]: round to nearest even, [OverflowError] past the largest
    finite float. *)
Definition float_of_int (z : Z) : Res float :=
  match binary_normalize prec emax z 0 false with
  | S754_infinity _ => Exc OverflowError
  | f => Ok f
  end.

Definition float_is_zero (f : float) : bool :=
  match f with
  | S754_zero _ => true
  | _ => false
  end.

(** [x * y] and [x / y] on floats. *)
Definition float_mul (x y : float) : float := SFmul prec emax x y.

Definition float_div (x y : float) : Res float :=
  if float_is_zero y then Exc ZeroDivisionError else Ok (SFdiv prec emax x y).

(** The integer [(-1)^s * m] and the exponent of a finite float. *)
Definition signed (s : bool) (m : positive) : Z :=
  if s then Z.neg m else Z.pos m.

(** [math.ceil(x)] *)
Definition math_ceil (x : float) : Res Z :=
  match x with
  | S754_zero _ => Ok 0
  | S754_infinity _ => Exc OverflowError
  | S754_nan => Exc ValueError
  | S754_finite s m e =>
      if 0 <=? e then Ok (signed s m * 2 ^ e)
      else Ok (- ((- signed s m) / 2 ^ (- e)))
  end.

(** [round(x)] with one argument: to the nearest integer, ties to even. *)
Definition py_round (x : float) : Res Z :=
  match x with
  | S754_zero _ => Ok 0
  | S754_infinity _ => Exc OverflowError
  | S754_nan => Exc ValueError
  | S754_finite s m e =>
      if 0 <=? e then Ok (signed s m * 2 ^ e)
      else
        let d := 2 ^ (- e) in
        let q := signed s m / d in
        let r := signed s m mod d in
        if 2 * r <? d then Ok q
        else if d <? 2 * r then Ok (q + 1)
        else if Z.even q then Ok q else Ok (q + 1)
  end.

(** [a / b] on two Python integers (true division, correctly rounded). Only
    the divisor 8 occurs in the code: scaling by a power of two is exact, so
    the quotient is the rounding of [a] itself, re-scaled. *)
Definition int_truediv8 (a : Z) : Res float :=
  match binary_normalize prec emax a (-3) false with
  | S754_infinity _ => Exc OverflowError
  | f => Ok f
  end.

(** Values of the transcendental functions at the constants of
    [collect_garbage] (with [p = 0.05]), as binary64 numbers:
    [math.log(p)],
    [math.log(1 / math.pow(2, math.log(2)))] and
    [math.log(2)]. *)
Definition log_p : float :=
  binary_normalize prec emax (-6745789375439761) (-51) false.
Definition log_inv_pow2_log2 : float :=
  binary_normalize prec emax (-540942003612761) (-50) false.
Definition log_2 : float :=
  binary_normalize prec emax 6243314768165359 (-53) false.

(** *** msgpack values

    A payload is written with [umsgpack.pack] and read back with
    [umsgpack.unpack]. The serialised buffer is represented by the sequence
    of values packed into it: packing appends a value, unpacking reads the
    values back in order, a tuple comes back as an array. *)
Inductive msg : Type :=
| MNone
| MBool (b : bool)
| MInt (z : Z)
| MStr (s : string)
| MBin (b : bytes)
| MList (l : list msg)
| MMap (l : list (msg * msg)).

Definition Payload := list msg.

(** [umsgpack.pack(v, buf)] appends [v] to the buffer. It raises
    [UnsupportedTypeException] for what the format cannot hold: an integer
    below [-2^63] or above [2^64 - 1], and a string, a byte string, an
    array or a map of [2^32] elements or more. *)
Fixpoint packs (v : msg) : bool :=
  match v with
  | MNone | MBool _ => true
  | MInt z => (- 2 ^ 63 <=? z) && (z <? 2 ^ 64)
  | MStr s => Z.of_nat (length (String.list_byte_of_string s)) <? 2 ^ 32
  | MBin b => Z.of_nat (length b) <? 2 ^ 32
  | MList l =>
      (Z.of_nat (length l) <? 2 ^ 32)
      && (fix all (l : list msg) : bool :=
            match l with
            | [] => true
            | x :: rest => packs x && all rest
            end) l
  | MMap l =>
      (Z.of_nat (length l) <? 2 ^ 32)
      && (fix all (l : list (msg * msg)) : bool :=
            match l with
            | [] => true
            | (k, x) :: rest => packs k && packs x && all rest
            end) l
  end.

Definition pack (v : msg) (buf : Payload) : Res Payload :=
  if packs v then Ok (buf ++ [v]) else Exc UnsupportedTypeException.

(** [v == s] for a decoded value [v] and a string literal [s]. *)
Definition eq_str (v : msg) (s : string) : bool :=
  match v with
  | MStr s' => bool_decide (s' = s)
  | _ => false
  end.

(** [iter(v)]: the elements a [for] loop over [v] visits. *)
Definition py_iter (v : msg) : Res (list msg) :=
  match v with
  | MList l => Ok l
  | MBin b => Ok (MInt ∘ byte_to_Z <$> b)
  | MStr s => Ok ((λ c, MStr (String c EmptyString)) <$> String.list_ascii_of_string s)
  | MMap l => Ok (fst <$> l)
  | MNone | MBool _ | MInt _ => Exc TypeError
  end.

(** [d[1]] on a decoded map: the last entry whose key equals [1] (a later
    entry of a decoded map replaces an earlier one with an equal key, and
    [True == 1]). *)
Definition is_one (k : msg) : bool :=
  match k with
  | MInt 1 | MBool true => true
  | _ => false
  end.

Fixpoint dict_get1 (l : list (msg * msg)) : option msg :=
  match l with
  | [] => None
  | (k, v) :: rest =>
      match dict_get1 rest with
      | Some v' => Some v'
      | None => if is_one k then Some v else None
      end
  end.

(** [v[1]] *)
Definition getitem1 (v : msg) : Res msg :=
  match v with
  | MList l =>
      match l !! 1%nat with
      | Some x => Ok x
      | None => Exc IndexError
      end
  | MBin b =>
      match b !! 1%nat with
      | Some x => Ok (MInt (byte_to_Z x))
      | None => Exc IndexError
      end
  | MStr s =>
      match String.list_ascii_of_string s !! 1%nat with
      | Some c => Ok (MStr (String c EmptyString))
      | None => Exc IndexError
      end
  | MMap l =>
      match dict_get1 l with
      | Some x => Ok x
      | None => Exc KeyError
      end
  | MNone | MBool _ | MInt _ => Exc TypeError
  end.

(** [next(it)] on an iterator over the remaining items. *)
Definition next {A} (it : list A) : Res (A * list A) :=
  match it with
  | x :: rest => Ok (x, rest)
  | [] => Exc StopIteration
  end.

(** [[f(c) for c in l]] where [f] may raise. *)
Fixpoint list_comp {A B} (f : A → Res B) (l : list A) : Res (list B) :=
  match l with
  | [] => Ok []
  | c :: rest =>
      y ← f c; ys ← list_comp f rest; Ok (y :: ys)
  end.

End Py.
Export Py.


(** ** The operating system: [os], [os.path], [stat] and [logging] *)

Module os.

Record stat_result : Type := {
  st_mode : Z;
  st_ino : Z;
  st_uid : Z;
  st_gid : Z;
  st_size : Z;
  st_mtime_ns : Z;
  st_atime_ns : Z;
}.

(** An open file: its contents and, possibly, an offset from which reading
    fails with an error (a file that becomes unreadable while it is read). *)
Record file : Type := {
  contents : bytes;
  fault : option (nat * oserror);
}.

(** How the conversion of a time stamp to a date fails, when the time is
    outside what the platform and [datetime] can hold: [OverflowError] (the
    time does not fit the platform's [time_t]), [OSError] (the platform's
    conversion fails) or [ValueError] (the year is out of range). *)
Inductive time_error : Type := TimeOverflow | TimeOS | TimeValue.

(** The filesystem and the platform, as the answers to the system calls of
    the program: a call succeeds or fails with an [OSError]. The second
    argument of [sys_open] tells whether [O_NOATIME] is requested;
    [has_O_NOATIME] tells whether the platform defines the flag;
    [sys_fromtimestamp] tells whether the modification time [st_mtime] of a
    stat result can be converted to a date, and how the conversion fails
    otherwise. *)
Record FS : Type := {
  sys_lstat : string → oserror + stat_result;
  sys_listdir : string → oserror + list string;
  sys_open : string → bool → oserror + file;
  has_O_NOATIME : bool;
  sys_fromtimestamp : stat_result → option time_error;
}.

Definition syscall {A} (r : oserror + A) : Res A :=
  match r with
  | inl e => Exc (OSError e)
  | inr a => Ok a
  end.

(** [os.lstat(p)], [os.listdir(p)], [os.fdopen(os.open(p, flags), "rb")] *)
Definition lstat (fs : FS) (p : string) : Res stat_result := syscall (sys_lstat fs p).
Definition listdir (fs : FS) (p : string) : Res (list string) := syscall (sys_listdir fs p).
Definition open (fs : FS) (p : string) (noatime : bool) : Res file :=
  syscall (sys_open fs p noatime).

(** [fobj.read(n)] at offset [pos], and [fobj.read()]. *)
Definition read_at (f : file) (pos n : nat) : Res bytes :=
  match fault f with
  | Some (k, e) =>
      if (k <? pos + n)%nat then Exc (OSError e)
      else Ok (take n (drop pos (contents f)))
  | None => Ok (take n (drop pos (contents f)))
  end.

Definition read (f : file) : Res bytes :=
  match fault f with
  | Some (_, e) => Exc (OSError e)
  | None => Ok (contents f)
  end.

(** [datetime.datetime.fromtimestamp(stat_result.st_mtime, tz=pytz.UTC)];
    the date itself is not represented. *)
Definition fromtimestamp (fs : FS) (st : stat_result) : Res unit :=
  match sys_fromtimestamp fs st with
  | None => Ok ()
  | Some TimeOverflow => Exc OverflowError
  | Some TimeOS => Exc (OSError OtherOSError)
  | Some TimeValue => Exc ValueError
  end.

Module path.

Definition sep : ascii := "/"%char.

Definition startswith_sep (s : string) : bool :=
  match s with
  | String c _ => bool_decide (c = sep)
  | EmptyString => false
  end.

Fixpoint endswith_sep (s : string) : bool :=
  match s with
  | EmptyString => false
  | String c EmptyString => bool_decide (c = sep)
  | String _ rest => endswith_sep rest
  end.

(** [os.path.join(a, b)] (POSIX). *)
Definition join (a b : string) : string :=
  if startswith_sep b then b
  else if bool_decide (a = EmptyString) || endswith_sep a then a +:+ b
  else a +:+ String sep b.

(** [os.path.basename(p)]: what follows the last separator. *)
Fixpoint basename_from (acc p : string) : string :=
  match p with
  | EmptyString => acc
  | String c rest =>
      if bool_decide (c = sep) then basename_from EmptyString rest
      else basename_from (acc +:+ String c EmptyString) rest
  end.

Definition basename (p : string) : string := basename_from EmptyString p.

End path.

End os.

Module stat.

Definition S_IFMT (mode : Z) : Z := Z.land mode 61440.   (* 0o170000 *)
Definition S_ISDIR (mode : Z) : bool := S_IFMT mode =? 16384.   (* 0o040000 *)
Definition S_ISREG (mode : Z) : bool := S_IFMT mode =? 32768.   (* 0o100000 *)

End stat.

Module logging.

Inductive level : Type := DEBUG | INFO | WARNING | ERROR.

(** A log record: level, format string, and the path of the entry the
    message is formatted with. *)
Record record : Type := {
  levelno : level;
  fmt : string;
  arg : string;
}.

End logging.

(** ** The data model of [models.py] *)

Module Models.

(** A row of table [objects]. *)
Record Object : Type := {
  objid : bytes;
  payload : option Payload;
}.

(** A row of table [object_relations]. *)
Record ObjectRelation : Type := {
  parent : bytes;
  child : bytes;
}.

(** The columns of a row of table [fsentry]; the primary key [id] is the key
    under which the row is stored. *)
Record FSEntry : Type := {
  obj_id : option bytes;
  path : string;
  parent_id : option nat;
  new : bool;
  st_mode : option Z;
  st_mtime_ns : option Z;
  st_size : option Z;
}.

(** A row of table [snapshots]. *)
Record Snapshot : Type := {
  snapshot_path : string;
  root_id : bytes;
  date : Z;
}.

(** The metadata database. [fsentry_seq] is the AUTOINCREMENT counter of
    table [fsentry]: the largest id ever handed out. *)
Record DB : Type := {
  objects : list Object;
  object_relations : list ObjectRelation;
  fsentry : gmap nat FSEntry;
  fsentry_seq : nat;
  snapshots : list Snapshot;
}.

(** The keyword arguments the constructor of a model accepts: the fields
    the class declares, with the column of each foreign key, and [pk]. *)
Definition Object_fields : list string := ["objid"; "payload"; "pk"].

Definition ObjectRelation_fields : list string :=
  ["id"; "parent"; "parent_id"; "child"; "child_id"; "pk"].

(** The constructor of a model called with keyword arguments: a keyword
    that names no field raises [TypeError]. *)
Definition Model_init (fields kwargs : list string) : Res unit :=
  if forallb (λ k, bool_decide (k ∈ fields)) kwargs then Ok () else Exc TypeError.

(** *** Payloads of an [Object] *)

(** [Object.unpack_payload]: the iterator over the values of a payload. A
    payload is represented by the sequence of the values it decodes to; a
    buffer that is truncated or malformed is not represented. *)
Definition unpack_payload (payload : Payload) : list msg := payload.

(** [Object.load_payload]: the payload is kept unless the object is a
    blob. *)
Definition load_payload (self : Object) (payload : Payload) : Res Object :=
  '(objtype, _) ← next (unpack_payload payload);
  if negb (eq_str objtype "blob")
  then Ok {| objid := objid self; payload := Some payload |}
  else Ok self.

(** [Object.calculate_children] *)
Definition calculate_children (self : Object) : Res (list msg) :=
  match Models.payload self with
  | None | Some [] => Ok []
  | Some payload =>
      let payload_items := unpack_payload payload in
      '(objtype, payload_items) ← next payload_items;
      if eq_str objtype "tree" then
        '(_, payload_items) ← next payload_items;
        '(entries, _) ← next payload_items;
        cs ← py_iter entries;
        list_comp getitem1 cs
      else if eq_str objtype "inode" then
        '(_, payload_items) ← next payload_items;
        '(contents, _) ← next payload_items;
        chunks ← getitem1 contents;
        cs ← py_iter chunks;
        list_comp getitem1 cs
      else Ok []
  end.

(** *** Deleting an [Object]

    What the ORM does with the rows that reference a deleted row is declared
    per foreign key. *)
Inductive on_delete : Type := CASCADE | PROTECT | SET_NULL | DO_NOTHING.

Definition ObjectRelation_parent_on_delete : on_delete := CASCADE.
Definition ObjectRelation_child_on_delete : on_delete := CASCADE.
Definition FSEntry_obj_on_delete : on_delete := SET_NULL.
Definition FSEntry_parent_on_delete : on_delete := DO_NOTHING.
Definition Snapshot_root_on_delete : on_delete := PROTECT.

(** The collection phase for one foreign key: [PROTECT] refuses the
    deletion when a row references the object. *)
Definition collect {A} (action : on_delete) (related : list A) : Res unit :=
  match action, related with
  | PROTECT, _ :: _ => Exc ProtectedError
  | _, _ => Ok ()
  end.

(** The effect of a deletion on the rows of a referencing table. *)
Definition on_delete_list {A} (action : on_delete) (refers : A → bool)
    (null : A → A) (rows : list A) : list A :=
  match action with
  | CASCADE => filter (λ r, refers r = false) rows
  | SET_NULL => (λ r, if refers r then null r else r) <$> rows
  | PROTECT | DO_NOTHING => rows
  end.

Definition on_delete_map (action : on_delete) (refers : FSEntry → bool)
    (null : FSEntry → FSEntry) (rows : gmap nat FSEntry) : gmap nat FSEntry :=
  match action with
  | CASCADE => filter (λ kv, refers kv.2 = false) rows
  | SET_NULL => (λ r, if refers r then null r else r) <$> rows
  | PROTECT | DO_NOTHING => rows
  end.

(** [obj.delete()] for the row of [objects] with primary key [o]. *)
Definition Object_delete (db : DB) (o : bytes) : Res DB :=
  let is_parent r := bool_decide (parent r = o) in
  let is_child r := bool_decide (child r = o) in
  let is_obj e := bool_decide (obj_id e = Some o) in
  let is_root s := bool_decide (root_id s = o) in
  _ ← collect ObjectRelation_parent_on_delete (filter (λ r, is_parent r = true) (object_relations db));
  _ ← collect ObjectRelation_child_on_delete (filter (λ r, is_child r = true) (object_relations db));
  _ ← collect FSEntry_obj_on_delete
        (filter (λ kv, is_obj kv.2 = true) (map_to_list (fsentry db)));
  _ ← collect Snapshot_root_on_delete (filter (λ s, is_root s = true) (snapshots db));
  Ok {| objects := filter (λ x, objid x ≠ o) (objects db);
        object_relations :=
          on_delete_list ObjectRelation_child_on_delete is_child id
            (on_delete_list ObjectRelation_parent_on_delete is_parent id
               (object_relations db));
        fsentry :=
          on_delete_map FSEntry_obj_on_delete is_obj
            (λ e, {| obj_id := None; path := path e; parent_id := parent_id e;
                     new := new e; st_mode := st_mode e;
                     st_mtime_ns := st_mtime_ns e; st_size := st_size e |})
            (fsentry db);
        fsentry_seq := fsentry_seq db;
        snapshots := on_delete_list Snapshot_root_on_delete is_root id (snapshots db) |}.

(** *** [Object.collect_garbage] *)

(** [m], [k] and [arr_size] from the number of rows of [objects]. *)
Definition bloom_m (num_objects : Z) : Res Z :=
  n ← float_of_int num_objects;
  q ← float_div (float_mul n log_p) log_inv_pow2_log2;
  math_ceil q.

Definition bloom_k (m num_objects : Z) : Res Z :=
  mf ← float_of_int m;
  n ← float_of_int num_objects;
  q ← float_div (float_mul log_2 mf) n;
  py_round q.

Definition bloom_arr_size (m : Z) : Res Z :=
  q ← int_truediv8 m;
  math_ceil q.

(** [hashes = [r.getrandbits(256) for _ in range(k)]]: the random source is
    the stream [rng]; its [i]-th draw is reduced to 256 bits. *)
Definition getrandbits256 (rng : nat → Z) (i : nat) : Z := rng i mod 2 ^ 256.

Definition draw_hashes (rng : nat → Z) (k : Z) : list Z :=
  getrandbits256 rng <$> seq 0 (Z.to_nat k).

(** The recursive query
    [WITH RECURSIVE reachable(id) AS (SELECT root_id FROM snapshots
       UNION ALL SELECT child_id FROM object_relations
                 INNER JOIN reachable ON reachable.id=parent_id)
     SELECT id FROM reachable]:
    the rows wait in a queue; each row taken from the queue is output and
    the children of that row join the queue. [UNION ALL] keeps duplicates. *)
Definition children_of (db : DB) (p : bytes) : list bytes :=
  child <$> filter (λ r, parent r = p) (object_relations db).

Fixpoint reachable_rows (fuel : nat) (db : DB) (queue : list bytes)
  : option (list bytes) :=
  match fuel with
  | O => None
  | S fuel' =>
      match queue with
      | [] => Some []
      | row :: rest =>
          (row ::.) <$> reachable_rows fuel' db (rest ++ children_of db row)
      end
  end.

Definition reachable_query (fuel : nat) (db : DB) : option (list bytes) :=
  reachable_rows fuel db (root_id <$> snapshots db).

(** The body of the inner loop of the first pass:
    [h ^= objid_int; h %= m; bytepos, bitpos = divmod(h, 8);
     bloom[bytepos] |= 1 << bitpos]. *)
Definition bloom_set (m : Z) (bloom : list Z) (h objid_int : Z) : Res (list Z) :=
  h' ← py_mod (Z.lxor h objid_int) m;
  let '(bytepos, bitpos) := divmod8 h' in
  old ← bytearray_get bloom bytepos;
  bytearray_set bloom bytepos (Z.lor old (Z.shiftl 1 bitpos)).

(** [for h in hashes: ...] *)
Fixpoint bloom_add (m : Z) (hashes : list Z) (bloom : list Z) (objid_int : Z)
  : Res (list Z) :=
  match hashes with
  | [] => Ok bloom
  | h :: hs =>
      bloom' ← bloom_set m bloom h objid_int;
      bloom_add m hs bloom' objid_int
  end.

(** [for row in c: ...] *)
Fixpoint mark (m : Z) (hashes : list Z) (rows : list bytes) (bloom : list Z)
  : Res (list Z) :=
  match rows with
  | [] => Ok bloom
  | row :: rest =>
      bloom' ← bloom_add m hashes bloom (int_from_bytes_little row);
      mark m hashes rest bloom'
  end.

Definition hash_match (m : Z) (bloom : list Z) (h objid : Z) : Res Z :=
  h' ← py_mod (Z.lxor h objid) m;
  let '(bytepos, bitpos) := divmod8 h' in
  b ← bytearray_get bloom bytepos;
  Ok (Z.land b (Z.shiftl 1 bitpos)).

(** [all(hash_match(h, objid) for h in hashes)]: stops at the first zero. *)
Fixpoint all_hash_match (m : Z) (bloom : list Z) (hashes : list Z) (objid : Z)
  : Res bool :=
  match hashes with
  | [] => Ok true
  | h :: hs =>
      r ← hash_match m bloom h objid;
      if r =? 0 then Ok false else all_hash_match m bloom hs objid
  end.

(** The second pass. The result is the sequence of yielded objects and the
    way the generator ends. *)
Fixpoint sweep (m : Z) (bloom : list Z) (hashes : list Z) (objs : list Object)
  : list Object * outcome :=
  match objs with
  | [] => ([], Finished)
  | obj :: rest =>
      match all_hash_match m bloom hashes (int_from_bytes_little (objid obj)) with
      | Exc x => ([], Raised x)
      | Ok true => sweep m bloom hashes rest
      | Ok false =>
          let '(ys, o) := sweep m bloom hashes rest in (obj :: ys, o)
      end
  end.

(** What happens before the first object is examined. *)
Definition collect_garbage_setup (fuel : nat) (rng : nat → Z) (db : DB)
  : option (Res (Z * list Z * list Z)) :=
  let num_objects := Z.of_nat (length (objects db)) in
  match
    (m ← bloom_m num_objects;
     k ← bloom_k m num_objects;
     arr_size ← bloom_arr_size m;
     bloom ← bytearray arr_size;
     Ok (m, draw_hashes rng k, bloom))
  with
  | Exc x => Some (Exc x)
  | Ok (m, hashes, bloom) =>
      match reachable_query fuel db with
      | None => None
      | Some rows =>
          Some (bloom' ← mark m hashes rows bloom; Ok (m, hashes, bloom'))
      end
  end.

Definition collect_garbage (fuel : nat) (rng : nat → Z) (db : DB)
  : list Object * outcome :=
  match collect_garbage_setup fuel rng db with
  | None => ([], Hangs)
  | Some (Exc x) => ([], Raised x)
  | Some (Ok (m, hashes, bloom)) => sweep m bloom hashes (objects db)
  end.

(** *** [FSEntry] *)

Definition with_fsentry (db : DB) (tbl : gmap nat FSEntry) : DB := {|
  objects := objects db;
  object_relations := object_relations db;
  fsentry := tbl;
  fsentry_seq := fsentry_seq db;
  snapshots := snapshots db;
|}.

Definition set_obj_id (o : option bytes) (e : FSEntry) : FSEntry := {|
  obj_id := o; path := path e; parent_id := parent_id e; new := new e;
  st_mode := st_mode e; st_mtime_ns := st_mtime_ns e; st_size := st_size e;
|}.

Definition set_new (b : bool) (e : FSEntry) : FSEntry := {|
  obj_id := obj_id e; path := path e; parent_id := parent_id e; new := b;
  st_mode := st_mode e; st_mtime_ns := st_mtime_ns e; st_size := st_size e;
|}.

Definition set_parent_id (p : option nat) (e : FSEntry) : FSEntry := {|
  obj_id := obj_id e; path := path e; parent_id := p; new := new e;
  st_mode := st_mode e; st_mtime_ns := st_mtime_ns e; st_size := st_size e;
|}.

(** The [name] property. *)
Definition name (e : FSEntry) : string := os.path.basename (path e).

Definition update_stat_info (e : FSEntry) (stat_result : os.stat_result) : FSEntry := {|
  obj_id := obj_id e; path := path e; parent_id := parent_id e; new := new e;
  st_mode := Some (os.st_mode stat_result);
  st_mtime_ns := Some (os.st_mtime_ns stat_result);
  st_size := Some (os.st_size stat_result);
|}.

Definition compare_stat_info (e : FSEntry) (stat_result : os.stat_result) : bool :=
  bool_decide (st_mode e = Some (os.st_mode stat_result))
  && bool_decide (st_mtime_ns e = Some (os.st_mtime_ns stat_result))
  && bool_decide (st_size e = Some (os.st_size stat_result)).

(** [self.save()] on the instance of row [i]. The columns [st_mode],
    [st_mtime_ns] and [st_size] are integer columns of SQLite: a value that
    does not fit 64 bits, signed, raises [OverflowError] when it is bound
    to the statement. *)
Definition int64 (z : Z) : bool := (- 2 ^ 63 <=? z) && (z <? 2 ^ 63).

Definition storable (e : FSEntry) : bool :=
  default true (int64 <$> st_mode e)
  && default true (int64 <$> st_mtime_ns e)
  && default true (int64 <$> st_size e).

Definition save (tbl : gmap nat FSEntry) (i : nat) (e : FSEntry)
  : Res (gmap nat FSEntry) :=
  if storable e then Ok (<[i := e]> tbl) else Exc OverflowError.

(** Deleting row [i] of [fsentry]. The foreign key [parent] is declared
    [DO_NOTHING] for the ORM and [ON DELETE CASCADE] in the database: the
    rows whose chain of parents leads to [i] go with it. [reaches] follows
    the parents of [x]; a chain without repetition is no longer than the
    table. For the instance, [delete()] clears the primary key, which is what
    the assertions [entry.id is None] of the program test. *)
Fixpoint reaches (fuel : nat) (tbl : gmap nat FSEntry) (x target : nat) : bool :=
  bool_decide (x = target)
  || match fuel with
     | O => false
     | S fuel' =>
         match tbl !! x ≫= parent_id with
         | Some p => reaches fuel' tbl p target
         | None => false
         end
     end.

Definition delete_cascade (i : nat) (tbl : gmap nat FSEntry) : gmap nat FSEntry :=
  match tbl !! i with
  | Some _ => filter (λ kv, reaches (size tbl) tbl kv.1 i = false) tbl
  | None => tbl
  end.

(** [list(self.children.all())] *)
Definition children (tbl : gmap nat FSEntry) (i : nat) : list (nat * FSEntry) :=
  filter (λ kv, parent_id kv.2 = Some i) (map_to_list tbl).

(** [self.children.all().delete()] *)
Definition delete_children (i : nat) (tbl : gmap nat FSEntry) : gmap nat FSEntry :=
  foldr (λ kv, delete_cascade kv.1) tbl (children tbl i).

(** [FSEntry.objects.get(path=p)] *)
Definition get_by_path (tbl : gmap nat FSEntry) (p : string) : option (nat * FSEntry) :=
  snd <$> list_find (λ kv, path kv.2 = p) (map_to_list tbl).

(** [FSEntry.objects.create(path=p, parent=self, new=True)]: [path] is
    unique; the new row takes the next id. *)
Definition create (db : DB) (p : string) (parent : nat) : Res (DB * nat) :=
  match get_by_path (fsentry db) p with
  | Some _ => Exc IntegrityError
  | None =>
      let i := S (fsentry_seq db) in
      let row := {| obj_id := None; path := p; parent_id := Some parent; new := true;
                    st_mode := None; st_mtime_ns := None; st_size := None |} in
      Ok ({| objects := objects db;
             object_relations := object_relations db;
             fsentry := <[i := row]> (fsentry db);
             fsentry_seq := i;
             snapshots := snapshots db |}, i)
  end.

(** The recursive query of [invalidate]:
    [WITH RECURSIVE ancestors(id) AS (SELECT id FROM fsentry WHERE id=%s
       UNION ALL SELECT fsentry.parent_id FROM fsentry
                 INNER JOIN ancestors ON (fsentry.id=ancestors.id)
                 WHERE fsentry.parent_id IS NOT NULL)]. *)
Fixpoint ancestors_from (fuel : nat) (tbl : gmap nat FSEntry) (a : nat)
  : option (list nat) :=
  match fuel with
  | O => None
  | S fuel' =>
      match tbl !! a ≫= parent_id with
      | Some p => (a ::.) <$> ancestors_from fuel' tbl p
      | None => Some [a]
      end
  end.

Definition ancestors (fuel : nat) (tbl : gmap nat FSEntry) (i : nat)
  : option (list nat) :=
  match tbl !! i with
  | Some _ => ancestors_from fuel tbl i
  | None => Some []
  end.

(** [UPDATE fsentry SET obj_id=NULL WHERE fsentry.id IN ancestors] *)
Definition invalidate (fuel : nat) (tbl : gmap nat FSEntry) (i : nat)
  : option (gmap nat FSEntry) :=
  ids ← ancestors fuel tbl i;
  Some (map_imap (λ j row, Some (if bool_decide (j ∈ ids) then set_obj_id None row else row)) tbl).

(** The loop [for newname in entries.difference(c.name for c in children)].
    The result comes with the log as it stands when the loop ends or
    raises. *)
Fixpoint create_entries (names : list string) (i : nat) (self : FSEntry)
    (db : DB) (log : list logging.record) : list logging.record * Res DB :=
  match names with
  | [] => (log, Ok db)
  | newname :: rest =>
      let newpath := os.path.join (path self) newname in
      match create db newpath i with
      | Ok (db', _) =>
          create_entries rest i self db'
            (log ++ [logging.Build_record logging.INFO "New path     : {}" newpath])
      | Exc IntegrityError =>
          match get_by_path (fsentry db) newpath with
          | None => (log, Exc DoesNotExist)
          | Some (j, newentry) =>
              let log' := log ++ [logging.Build_record logging.WARNING
                "Trying to create path but already exists. Reparenting: {}" newpath] in
              match parent_id newentry with
              | Some _ => (log', Exc AssertionError)
              | None =>
                  create_entries rest i self
                    (with_fsentry db (alter (set_parent_id (Some i)) j (fsentry db))) log'
              end
          end
      | Exc x => (log, Exc x)
      end
  end.

(** The loop [for child in children: if child.name not in entries: ...]. *)
Fixpoint delete_old (children : list (nat * FSEntry)) (entries : gset string)
    (tbl : gmap nat FSEntry) (log : list logging.record)
  : gmap nat FSEntry * list logging.record :=
  match children with
  | [] => (tbl, log)
  | (c, child) :: rest =>
      if bool_decide (name child ∈ entries) then delete_old rest entries tbl log
      else
        delete_old rest entries (delete_cascade c tbl)
          (log ++ [logging.Build_record logging.INFO "deleting from dir: {}" (path child)])
  end.

(** [entries = set(os.listdir(self.path))], with its handler. *)
Definition listdir_entries (fs : os.FS) (self : FSEntry) (log : list logging.record)
  : Res (gset string * list logging.record) :=
  match os.listdir fs (path self) with
  | Ok names => Ok (list_to_set names, log)
  | Exc (OSError PermissionError) =>
      Ok (∅, log ++ [logging.Build_record logging.WARNING "Permission denied: {}" (path self)])
  | Exc x => Exc x
  end.

(** The block [if stat.S_ISDIR(self.st_mode): ...] of [scan], with the log
    as it stands when the block ends or raises. *)
Definition scan_directory (fs : os.FS) (i : nat) (self : FSEntry)
    (db : DB) (log : list logging.record) : list logging.record * Res DB :=
  let children := children (fsentry db) i in
  match listdir_entries fs self log with
  | Exc x => (log, Exc x)
  | Ok (entries, log) =>
      match
        create_entries (elements (entries ∖ list_to_set (name ∘ snd <$> children)))
          i self db log
      with
      | (log, Exc x) => (log, Exc x)
      | (log, Ok db) =>
          let '(tbl, log) := delete_old children entries (fsentry db) log in
          (log, Ok (with_fsentry db tbl))
      end
  end.

(** What a call of [scan] leaves: the database, the instance and its primary
    key ([None] once deleted), the log, and how the call ended. *)
Record scan_result : Type := {
  sr_db : DB;
  sr_self : FSEntry;
  sr_id : option nat;
  sr_log : list logging.record;
  sr_outcome : outcome;
}.

(** [FSEntry.scan], called on the instance [self] loaded from row [i]. The
    body runs in a transaction ([atomic_immediate]): an exception rolls the
    database back; what was logged stays logged. *)
Definition scan (fuel : nat) (fs : os.FS) (db : DB) (i : nat) (self : FSEntry)
  : scan_result :=
  let log := [logging.Build_record logging.DEBUG "Entering scan for {}" (path self)] in
  match os.lstat fs (path self) with
  | Exc (OSError (FileNotFoundError | NotADirectoryError)) =>
      {| sr_db := with_fsentry db (delete_cascade i (fsentry db));
         sr_self := self; sr_id := None;
         sr_log := log ++ [logging.Build_record logging.INFO "Not found, deleting: {}" (path self)];
         sr_outcome := Finished |}
  | Exc x =>
      {| sr_db := db; sr_self := self; sr_id := Some i; sr_log := log;
         sr_outcome := Raised x |}
  | Ok stat_result =>
      let '(db1, log) :=
        if match st_mode self with
           | Some mode => stat.S_ISDIR mode && negb (stat.S_ISDIR (os.st_mode stat_result))
           | None => false
           end
        then (with_fsentry db (delete_children i (fsentry db)),
              log ++ [logging.Build_record logging.INFO "No longer a directory: {}" (path self)])
        else (db, log) in
      if negb (new self) && compare_stat_info self stat_result then
        {| sr_db := db1; sr_self := self; sr_id := Some i;
           sr_log := log ++ [logging.Build_record logging.DEBUG "No change to {}" (path self)];
           sr_outcome := Finished |}
      else
        let self := update_stat_info (set_new false (set_obj_id None self)) stat_result in
        match
          if stat.S_ISDIR (os.st_mode stat_result)
          then scan_directory fs i self db1 log
          else (log, Ok db1)
        with
        | (log, Exc x) =>
            {| sr_db := db; sr_self := self; sr_id := Some i; sr_log := log;
               sr_outcome := Raised x |}
        | (log, Ok db2) =>
            let log := log ++ [logging.Build_record logging.INFO "Entry updated: {}" (path self)] in
            match save (fsentry db2) i self with
            | Exc x =>
                {| sr_db := db; sr_self := self; sr_id := Some i; sr_log := log;
                   sr_outcome := Raised x |}
            | Ok tbl =>
                match invalidate fuel tbl i with
                | None =>
                    {| sr_db := db; sr_self := self; sr_id := Some i; sr_log := log;
                       sr_outcome := Hangs |}
                | Some tbl' =>
                    {| sr_db := with_fsentry db2 tbl'; sr_self := self; sr_id := Some i;
                       sr_log := log; sr_outcome := Finished |}
                end
            end
        end
  end.

End Models.
Export Models.

(** ** [scan.py] *)

Module Scan.

(** The loop [for entry in qs.iterator(): entry.scan()] over the rows
    [entries] the query delivers, inside one transaction. With [check], the
    loop ends with [assert entry.new is False or entry.id is None]. An
    exception leaves the loop and rolls the transaction back. *)
Fixpoint scan_entries (fuel : nat) (fs : os.FS) (check : bool)
    (entries : list (nat * FSEntry)) (db0 db : DB) (log : list logging.record)
  : DB * list logging.record * outcome :=
  match entries with
  | [] => (db, log, Finished)
  | (i, entry) :: rest =>
      let r := Models.scan fuel fs db i entry in
      let log := log ++ sr_log r in
      match sr_outcome r with
      | Finished =>
          if check && negb (negb (new (sr_self r)) || bool_decide (sr_id r = None))
          then (db0, log, Raised AssertionError)
          else scan_entries fuel fs check rest db0 (sr_db r) log
      | o => (db0, log, o)
      end
  end.

(** The loop [while qs.exists()] over the entries flagged [new]; [loops]
    bounds the number of passes. *)
Fixpoint scan_new (loops fuel : nat) (fs : os.FS) (db : DB) (log : list logging.record)
  : DB * list logging.record * outcome :=
  match filter (λ kv, new kv.2 = true) (map_to_list (fsentry db)) with
  | [] => (db, log, Finished)
  | qs =>
      match loops with
      | O => (db, log, Hangs)
      | S loops' =>
          match scan_entries fuel fs true qs db db log with
          | (db', log', Finished) => scan_new loops' fuel fs db' log'
          | r => r
          end
      end
  end.

(** [scan(alias, skip_existing)]. A query delivers the rows the table holds
    when the query starts; the rows are taken in the order of [map_to_list],
    which stands for the order in which the database delivers them, an
    order the code does not fix. *)
Definition scan (loops fuel : nat) (fs : os.FS) (db : DB) (skip_existing : bool)
  : DB * list logging.record * outcome :=
  match
    if skip_existing then (db, [], Finished)
    else scan_entries fuel fs false (map_to_list (fsentry db)) db db []
  with
  | (db', log, Finished) => scan_new loops fuel fs db' log
  | r => r
  end.

End Scan.

(** ** [chunker.py] and the repository *)

Module chunker.

(** Modelled from the spec: [chunker.FixedChunker] is not among the sources.
    It "produces (offset, bytes) pairs by reading a stream in fixed-size
    windows"; "it is a lazy finite sequence; the final chunk may be short".
    The sequence is given with the error, if any, that ends it when a read
    fails. [fuel] bounds the number of reads. *)
Fixpoint FixedChunker_from (fuel : nat) (chunk_size : nat) (fobj : os.file) (pos : nat)
  : list (Z * bytes) * option exn :=
  match fuel with
  | O => ([], None)
  | S fuel' =>
      match os.read_at fobj pos chunk_size with
      | Exc x => ([], Some x)
      | Ok [] => ([], None)
      | Ok chunk =>
          let '(rest, e) :=
            FixedChunker_from fuel' chunk_size fobj (pos + length chunk) in
          ((Z.of_nat pos, chunk) :: rest, e)
      end
  end.

Definition FixedChunker (chunk_size : nat) (fobj : os.file)
  : list (Z * bytes) * option exn :=
  FixedChunker_from (S (length (os.contents fobj))) chunk_size fobj 0.

End chunker.

Module repository.

(** An instance of [models.Object] that is not saved: [backup.py] creates
    it with [models.Object()] and sets [obj.type] and [obj.file_size] on it.
    The class declares no such fields: these are attributes of the instance
    only. The attribute [last_modified_time] is not represented (see
    [os.fromtimestamp]). *)
Record UnsavedObject : Type := {
  type : option string;
  file_size : option Z;
}.

(** An instance of [models.ObjectRelation] that waits for its parent,
    created with [models.ObjectRelation(child=...)]. *)
Record UnsavedRelation : Type := {
  rel_child : bytes;
}.

(** Modelled from the spec: the class [Repository] is not among the
    sources. [hash] is the digest [H] of a payload, [put] the upload to the
    remote storage, which may fail, and [put_snapshot] the upload of a
    snapshot. *)
Record Repository : Type := {
  backup_inline_threshold : Z;
  chunk_size : nat;
  hash : Payload → bytes;
  put : bytes → Payload → option oserror;
  put_snapshot : Snapshot → option oserror;
}.

(** Modelled from the spec: [Repository.push_object] is the admission of the
    spec ([objid := H(payload)]; an existing row is returned as it is;
    otherwise the payload is uploaded, then the row is inserted with its
    children, [parent = objid]). *)
Definition push_object (repo : Repository) (db : DB)
    (payload : Payload) (obj : UnsavedObject) (relations : list UnsavedRelation)
  : Res (DB * Object) :=
  let objid := hash repo payload in
  match list_find (λ o, Models.objid o = objid) (objects db) with
  | Some (_, existing) => Ok (db, existing)
  | None =>
      match put repo objid payload with
      | Some e => Exc (OSError e)
      | None =>
          saved ← load_payload {| Models.objid := objid; Models.payload := None |} payload;
          Ok ({| objects := objects db ++ [saved];
                 object_relations :=
                   object_relations db
                   ++ ((λ r, {| parent := objid; child := rel_child r |}) <$> relations);
                 fsentry := fsentry db;
                 fsentry_seq := fsentry_seq db;
                 snapshots := snapshots db |}, saved)
      end
  end.

End repository.

(** ** [backup.py] *)

Module Backup.
Import repository.

(** The database and the log, threaded through the backup. *)
Record World : Type := {
  db_of : DB;
  log_of : list logging.record;
}.

Definition log (lvl : logging.level) (fmt arg : string) (w : World) : World :=
  {| db_of := db_of w; log_of := log_of w ++ [logging.Build_record lvl fmt arg] |}.

Definition set_db (db : DB) (w : World) : World :=
  {| db_of := db; log_of := log_of w |}.

(** What [backup_iterator] yields: [(payload, Object, [ObjectRelation])]. *)
Definition Yielded : Type := Payload * UnsavedObject * list UnsavedRelation.

(** A generator that is sent saved objects. It has returned, raised, or is
    suspended at a [yield]; it is resumed with the object sent and the state
    of the world at that time. Each state carries the instance of the entry
    and its primary key, which the caller shares with the generator. *)
Inductive Gen : Type :=
| GReturn (w : World) (fsentry : FSEntry) (id : option nat)
| GRaise (x : exn) (w : World) (fsentry : FSEntry) (id : option nat)
| GYield (w : World) (fsentry : FSEntry) (id : option nat)
    (y : Yielded) (k : Object → World → Gen).

(** [_open_file] *)
Definition _open_file (fs : os.FS) (p : string) : Res os.file :=
  if os.has_O_NOATIME fs then
    match os.open fs p true with
    | Exc (OSError PermissionError) => os.open fs p false
    | r => r
    end
  else os.open fs p false.

(** [fsentry.delete()] followed by [return]. *)
Definition delete_and_return (w : World) (i : nat) (fsentry : FSEntry) : Gen :=
  GReturn
    (set_db (with_fsentry (db_of w) (delete_cascade i (Models.fsentry (db_of w)))) w)
    fsentry None.

(** [fsentry.obj = yield (buf, obj, relations)], the log line that follows,
    then [fsentry.save()] and [return]. *)
Definition yield_and_save (w : World) (i : nat) (fsentry : FSEntry)
    (y : Yielded) (fmt : string) : Gen :=
  GYield w fsentry (Some i) y (λ sent w,
    let fsentry := set_obj_id (Some (objid sent)) fsentry in
    let w := log logging.INFO fmt (path fsentry) w in
    match save (Models.fsentry (db_of w)) i fsentry with
    | Exc x => GRaise x w fsentry (Some i)
    | Ok tbl => GReturn (set_db (with_fsentry (db_of w) tbl) w) fsentry (Some i)
    end).

(** The handlers [except FileNotFoundError] and [except OSError] around the
    reading of a regular file; any other exception leaves the generator. *)
Definition read_failed (x : exn) (w : World) (i : nat) (fsentry : FSEntry) : Gen :=
  match x with
  | OSError FileNotFoundError =>
      delete_and_return (log logging.INFO "File disappeared: {}" (path fsentry) w)
        i fsentry
  | OSError _ =>
      delete_and_return
        (log logging.ERROR "Error in system call when reading file {}" (path fsentry) w)
        i fsentry
  | _ => GRaise x w fsentry (Some i)
  end.

(** The record [info] of an inode and of a tree. *)
Definition inode_info (st : os.stat_result) : msg :=
  MMap [ (MStr "size", MInt (os.st_size st));
         (MStr "inode", MInt (os.st_ino st));
         (MStr "uid", MInt (os.st_uid st));
         (MStr "gid", MInt (os.st_gid st));
         (MStr "mode", MInt (os.st_mode st));
         (MStr "mtime", MInt (os.st_mtime_ns st));
         (MStr "atime", MInt (os.st_atime_ns st)) ].

Definition tree_info (st : os.stat_result) : msg :=
  MMap [ (MStr "uid", MInt (os.st_uid st));
         (MStr "gid", MInt (os.st_gid st));
         (MStr "mode", MInt (os.st_mode st));
         (MStr "mtime", MInt (os.st_mtime_ns st));
         (MStr "atime", MInt (os.st_atime_ns st)) ].

(** [buf = io.BytesIO(); umsgpack.pack("blob", buf); umsgpack.pack(chunk, buf)] *)
Definition blob_payload (chunk : bytes) : Res Payload :=
  buf ← pack (MStr "blob") [];
  pack (MBin chunk) buf.

(** [models.Object(type="blob")]: the class has no field [type]. *)
Definition blob_object : Res UnsavedObject :=
  _ ← Model_init Object_fields ["type"];
  Ok {| type := Some "blob"; file_size := None |}.

(** The loop [for pos, chunk in chunker.FixedChunker(fobj)], with the
    statements that follow it. [inode_buf] holds what was packed so far.
    The loop is inside the [try] block: an [OSError] is handled, any other
    exception leaves the generator. *)
Fixpoint chunk_loop (chunks : list (Z * bytes)) (failure : option exn)
    (inode_buf : Payload) (obj : UnsavedObject)
    (chunk_list : list msg) (relations : list UnsavedRelation)
    (w : World) (i : nat) (fsentry : FSEntry) : Gen :=
  match chunks with
  | (pos, chunk) :: rest =>
      match (buf ← blob_payload chunk; blob ← blob_object; Ok (buf, blob)) with
      | Exc x => read_failed x w i fsentry
      | Ok (buf, blob) =>
          GYield w fsentry (Some i) (buf, blob, []) (λ chunk_obj w,
            chunk_loop rest failure inode_buf obj
              (chunk_list ++ [MList [MInt pos; MBin (objid chunk_obj)]])
              (relations ++ [ {| rel_child := objid chunk_obj |} ])
              w i fsentry)
      end
  | [] =>
      match failure with
      | Some x => read_failed x w i fsentry
      | None =>
          match pack (MList [MStr "chunklist"; MList chunk_list]) inode_buf with
          | Exc x => read_failed x w i fsentry
          | Ok inode_buf =>
              yield_and_save w i fsentry (inode_buf, obj, relations)
                "Backed up file into objects: {}"
          end
      end
  end.

(** [models.ObjectRelation(child=c.obj, name=...)] for a child [c] of a
    directory: the class has no field [name]. *)
Definition tree_relation (c : nat * FSEntry) : Res UnsavedRelation :=
  _ ← Model_init ObjectRelation_fields ["child"; "name"];
  Ok {| rel_child := default [] (obj_id c.2) |}.

(** The entry of a child in the payload of a tree:
    [(os.fsencode(c.name), c.obj.objid)]. *)
Definition tree_entry (c : nat * FSEntry) : msg :=
  MList [ MBin (String.list_byte_of_string (name c.2)); MBin (default [] (obj_id c.2)) ].

(** The default of the keyword argument [inline_threshold]. *)
Definition default_inline_threshold : Z := 2 ^ 21.

(** [backup_iterator(fsentry, inline_threshold)], called on the instance
    loaded from row [i]. *)
Definition backup_iterator (fs : os.FS) (chunk_size : nat) (w : World)
    (i : nat) (fsentry : FSEntry) (inline_threshold : Z) : Gen :=
  match os.lstat fs (path fsentry) with
  | Exc (OSError (FileNotFoundError | NotADirectoryError)) =>
      delete_and_return (log logging.INFO "File disappeared: {}" (path fsentry) w)
        i fsentry
  | Exc x => GRaise x w fsentry (Some i)
  | Ok stat_result =>
      let fsentry := update_stat_info fsentry stat_result in
      if stat.S_ISREG (os.st_mode stat_result) then
        let obj := {| type := Some "inode"; file_size := Some (os.st_size stat_result) |} in
        match
          (_ ← os.fromtimestamp fs stat_result;
           inode_buf ← pack (MStr "inode") [];
           pack (inode_info stat_result) inode_buf)
        with
        | Exc x => GRaise x w fsentry (Some i)
        | Ok inode_buf =>
            match _open_file fs (path fsentry) with
            | Exc x => read_failed x w i fsentry
            | Ok fobj =>
                if os.st_size stat_result <? inline_threshold then
                  match
                    (data ← os.read fobj;
                     pack (MList [MStr "immediate"; MBin data]) inode_buf)
                  with
                  | Exc x => read_failed x w i fsentry
                  | Ok inode_buf =>
                      yield_and_save w i fsentry (inode_buf, obj, [])
                        "Backed up file into objects: {}"
                  end
                else
                  let '(chunks, failure) := chunker.FixedChunker chunk_size fobj in
                  chunk_loop chunks failure inode_buf obj [] [] w i fsentry
            end
        end
      else if stat.S_ISDIR (os.st_mode stat_result) then
        let children := children (Models.fsentry (db_of w)) i in
        if bool_decide (Exists (λ c, obj_id c.2 = None) children) then
          GRaise DependencyError w fsentry (Some i)
        else
          let obj := {| type := Some "tree"; file_size := None |} in
          match
            (_ ← os.fromtimestamp fs stat_result;
             relations ← list_comp tree_relation children;
             buf ← pack (MStr "tree") [];
             buf ← pack (tree_info stat_result) buf;
             buf ← pack (MList (tree_entry <$> children)) buf;
             Ok (buf, relations))
          with
          | Exc x => GRaise x w fsentry (Some i)
          | Ok (buf, relations) =>
              yield_and_save w i fsentry (buf, obj, relations) "Backed up dir: {}"
          end
      else
        delete_and_return
          (log logging.WARNING "Unknown file type, not backing up {}" (path fsentry) w)
          i fsentry
  end.

(** The state in which [backup_entry] leaves the world, the instance and the
    payloads it pushed, in order. *)
Record entry_result : Type := {
  er_world : World;
  er_entry : FSEntry;
  er_id : option nat;
  er_pushed : list Yielded;
  er_outcome : outcome;
}.

(** The loop of [backup_entry]:
    [yielded = next(iterator); while True: obj = repo.push_object( *yielded);
     yielded = iterator.send(obj)], left on [StopIteration]. *)
Fixpoint drive (repo : Repository) (iterator : Gen) (pushed : list Yielded)
  : entry_result :=
  match iterator with
  | GReturn w fsentry id =>
      {| er_world := w; er_entry := fsentry; er_id := id; er_pushed := pushed;
         er_outcome := Finished |}
  | GRaise StopIteration w fsentry id =>
      {| er_world := w; er_entry := fsentry; er_id := id; er_pushed := pushed;
         er_outcome := Finished |}
  | GRaise x w fsentry id =>
      {| er_world := w; er_entry := fsentry; er_id := id; er_pushed := pushed;
         er_outcome := Raised x |}
  | GYield w fsentry id (payload, obj, relations) k =>
      match push_object repo (db_of w) payload obj relations with
      | Ok (db, sent) =>
          drive repo (k sent (set_db db w)) (pushed ++ [(payload, obj, relations)])
      | Exc StopIteration =>
          {| er_world := w; er_entry := fsentry; er_id := id; er_pushed := pushed;
             er_outcome := Finished |}
      | Exc x =>
          {| er_world := w; er_entry := fsentry; er_id := id; er_pushed := pushed;
             er_outcome := Raised x |}
      end
  end.

(** [backup_entry(repo, entry)], with its final assertion
    [entry.obj_id is not None or entry.id is None]. *)
Definition backup_entry (repo : Repository) (fs : os.FS) (w : World)
    (i : nat) (entry : FSEntry) : entry_result :=
  let r := drive repo
             (backup_iterator fs (chunk_size repo) w i entry
                (backup_inline_threshold repo)) [] in
  match er_outcome r with
  | Finished =>
      if bool_decide (obj_id (er_entry r) ≠ None ∨ er_id r = None) then r
      else {| er_world := er_world r; er_entry := er_entry r; er_id := er_id r;
              er_pushed := er_pushed r; er_outcome := Raised AssertionError |}
  | _ => r
  end.

(** The querysets [to_backup] and [ready_to_backup]. *)
Definition to_backup (db : DB) : list (nat * FSEntry) :=
  filter (λ kv, obj_id kv.2 = None) (map_to_list (fsentry db)).

Definition ready_to_backup (db : DB) : list (nat * FSEntry) :=
  filter (λ kv, Some kv.1 ∉ (parent_id ∘ snd <$>
                    filter (λ kv', parent_id kv'.2 ≠ None) (to_backup db)))
    (to_backup db).

(** The loop [for entry in ready_to_backup.iterator()], for one schedule
    of the pool: each task is run to its end when it is submitted, so that
    [wait] finds it done and [f.result()] raises what the task raised. The
    pool of the code has one worker that runs the tasks in the order of
    their submission, but [wait] is called with a timeout of zero while
    fewer than two tasks are pending, so that the loop may go on, and the
    queries may be evaluated again, while a task is running; these other
    schedules are not represented here (see [run_tasks] for what holds of
    every schedule). The entries are taken in the order of [ready]. *)
Fixpoint backup_ready (repo : Repository) (fs : os.FS) (ready : list (nat * FSEntry))
    (w : World) : World * outcome :=
  match ready with
  | [] => (w, Finished)
  | (i, entry) :: rest =>
      if bool_decide (obj_id entry = None) then
        let r := backup_entry repo fs w i entry in
        match er_outcome r with
        | Finished => backup_ready repo fs rest (er_world r)
        | o => (er_world r, o)
        end
      else (w, Raised AssertionError)
  end.

(** The loop [while to_backup.exists()], for the same schedule: the two
    queries of a pass are evaluated on the database as the tasks of the
    pass before left it. The rows of a query are taken in the order of
    [map_to_list], which stands for the order in which the database
    delivers them. *)
Fixpoint backup_loop (fuel : nat) (repo : Repository) (fs : os.FS) (w : World)
  : World * outcome :=
  match to_backup (db_of w) with
  | [] => (w, Finished)
  | _ :: _ =>
      match fuel with
      | O => (w, Hangs)
      | S fuel' =>
          match ready_to_backup (db_of w) with
          | [] => (w, Raised AssertionError)
          | ready =>
              match backup_ready repo fs ready w with
              | (w', Finished) => backup_loop fuel' repo fs w'
              | r => r
              end
          end
      end
  end.

(** The loop over the roots [roots], in the order in which the query
    delivers them: one snapshot each, dated [now], created and uploaded in
    a transaction of its own. *)
Fixpoint snapshot_roots (repo : Repository) (now : Z) (roots : list (nat * FSEntry))
    (w : World) : World * outcome :=
  match roots with
  | [] => (w, Finished)
  | (_, root) :: rest =>
      match obj_id root with
      | None => (w, Raised AssertionError)
      | Some o =>
          let ss := {| snapshot_path := path root; root_id := o; date := now |} in
          match put_snapshot repo ss with
          | Some e => (w, Raised (OSError e))
          | None =>
              let db := db_of w in
              snapshot_roots repo now rest
                (set_db {| objects := objects db;
                           object_relations := object_relations db;
                           fsentry := Models.fsentry db;
                           fsentry_seq := fsentry_seq db;
                           snapshots := snapshots db ++ [ss] |} w)
          end
      end
  end.

(** What follows the check of the precondition in [backup]: the loop of
    the backup, then the snapshots of the roots, taken in the order of
    [map_to_list]. *)
Definition backup_run (fuel : nat) (repo : Repository) (fs : os.FS) (now : Z)
    (w : World) : World * outcome :=
  match backup_loop fuel repo fs w with
  | (w, Finished) =>
      snapshot_roots repo now
        (filter (λ kv, parent_id kv.2 = None) (map_to_list (fsentry (db_of w)))) w
  | r => r
  end.

(** [backup(repo)] *)
Definition backup (fuel : nat) (repo : Repository) (fs : os.FS) (now : Z)
    (w : World) : World * outcome :=
  if bool_decide (Exists (λ kv, new kv.2 = true) (map_to_list (fsentry (db_of w))))
  then (w, Raised (RuntimeError "You need to run a scan first"))
  else backup_run fuel repo fs now w.

End Backup.
Export repository Backup.

Module Spec.

(** An object id is reachable: it is the root of a snapshot, or the child, in
    [object_relations], of a reachable id. *)
Inductive reachable (db : DB) : bytes → Prop :=
| reachable_root s :
    s ∈ snapshots db → reachable db (root_id s)
| reachable_child r :
    r ∈ object_relations db → reachable db (parent r) → reachable db (child r).

(** The object graph is a DAG (invariant I4): some rank decreases along
    every edge of [object_relations]. *)
Definition acyclic (db : DB) (rank : bytes → nat) : Prop :=
  ∀ r, r ∈ object_relations db → (rank (child r) < rank (parent r))%nat.

(** The number of rows the reachable query outputs for the row [x], counted
    down to depth [d]. *)
Fixpoint rows_below (d : nat) (db : DB) (x : bytes) : nat :=
  match d with
  | O => 1
  | S d' => S (sum_list_with (rows_below d' db) (children_of db x))
  end.

(** Bit [pos] of the filter is set: [pos] is the value of [h % m]. *)
Definition bit_on (bloom : list Z) (pos : Z) : Prop :=
  ∃ n b, py_index (length bloom) (pos / 8) = Ok n
         ∧ bloom !! n = Some b
         ∧ Z.testbit b (pos mod 8) = true.

(** Every position of the object id [o] is set in the filter. *)
Definition positions_on (m : Z) (hashes : list Z) (bloom : list Z) (o : Z) : Prop :=
  ∀ h, h ∈ hashes → ∃ pos, py_mod (Z.lxor h o) m = Ok pos ∧ bit_on bloom pos.

(** A small object graph: snapshot root [01] with child [02]; [03] is not
    referenced. *)
Definition id1 : bytes := [Byte.x01].
Definition id2 : bytes := [Byte.x02].
Definition id3 : bytes := [Byte.x03].

Definition obj1 : Object := {| objid := id1; payload := None |}.
Definition obj2 : Object := {| objid := id2; payload := None |}.
Definition obj3 : Object := {| objid := id3; payload := None |}.

Definition gc_db : DB := {|
  objects := [obj1; obj2; obj3];
  object_relations := [ {| parent := id1; child := id2 |} ];
  fsentry := ∅;
  fsentry_seq := 0;
  snapshots := [ {| snapshot_path := "/r"; root_id := id1; date := 0 |} ];
|}.

(** A database without any object. *)
Definition gc_db_empty : DB := {|
  objects := [];
  object_relations := [];
  fsentry := ∅;
  fsentry_seq := 0;
  snapshots := [];
|}.

Definition gc_rng (i : nat) : Z := Z.of_nat i * 7919 + 12345.

(** [a] is the entry [x] or one of its ancestors: [a] is met when the
    [parent] pointers are followed from [x]. *)
Inductive ancestor_or_self (tbl : gmap nat FSEntry) : nat → nat → Prop :=
| ancestor_self x : ancestor_or_self tbl x x
| ancestor_parent x row p a :
    tbl !! x = Some row → parent_id row = Some p →
    ancestor_or_self tbl p a → ancestor_or_self tbl x a.

(** The stat information of the entry differs from what [lstat] returns, or
    the entry is flagged [new]: [scan] does not take its early exit. *)
Definition changed (self : FSEntry) (st : os.stat_result) : Prop :=
  new self = true ∨ compare_stat_info self st = false.

(** The filesystem shows an entry as it was recorded. *)
Definition clean (fs : os.FS) (row : FSEntry) : Prop :=
  new row = false
  ∧ ∃ st, os.lstat fs (path row) = Ok st
      ∧ st_mode row = Some (os.st_mode st)
      ∧ st_mtime_ns row = Some (os.st_mtime_ns st)
      ∧ st_size row = Some (os.st_size st).

(** The shadow tree is a forest ordered by path length (invariant F2: the
    path of a parent is a proper prefix of the path of its child), and no
    row mentions an id that was never handed out. *)
Definition ranked (tbl : gmap nat FSEntry) : Prop :=
  ∀ x row p prow,
    tbl !! x = Some row → parent_id row = Some p → tbl !! p = Some prow →
    (String.length (path prow) < String.length (path row))%nat.

Definition ids_bounded (db : DB) : Prop :=
  ∀ x row, fsentry db !! x = Some row →
    (x ≤ fsentry_seq db)%nat
    ∧ ∀ p, parent_id row = Some p → (p ≤ fsentry_seq db)%nat.

(** The names a directory listing returns are not empty and do not start
    with a separator. *)
Definition listing_ok (fs : os.FS) (p : string) : Prop :=
  ∀ names n, os.listdir fs p = Ok names → n ∈ names →
    n ≠ EmptyString ∧ os.path.startswith_sep n = false.

(** What the loops of [scan] preserve while the instance [self] of row [i]
    is scanned: the forest stays ranked around [self]. *)
Record scan_inv (i : nat) (self : FSEntry) (db : DB) : Prop := {
  inv_ranked : ranked (fsentry db);
  inv_bounded : ids_bounded db;
  inv_id : (i ≤ fsentry_seq db)%nat;
  inv_parent_id : ∀ p, parent_id self = Some p → p ≠ i ∧ (p ≤ fsentry_seq db)%nat;
  inv_row : ∀ r, fsentry db !! i = Some r → path r = path self;
  inv_below : ∀ x row, fsentry db !! x = Some row → parent_id row = Some i →
    (String.length (path self) < String.length (path row))%nat;
  inv_above : ∀ p prow, parent_id self = Some p → fsentry db !! p = Some prow →
    (String.length (path prow) < String.length (path self))%nat;
}.

(** A directory [/r] (row 1) with one recorded child [/r/a] (row 2), both
    backed up; since the last scan the directory was modified and became
    unreadable. *)
Definition mode_dir : Z := 16877.    (* 0o040755 *)
Definition mode_reg : Z := 33188.    (* 0o100644 *)

Definition row_r : FSEntry := {|
  obj_id := Some id1; path := "/r"; parent_id := None; new := false;
  st_mode := Some mode_dir; st_mtime_ns := Some 100; st_size := Some 4096;
|}.

Definition row_a : FSEntry := {|
  obj_id := Some id2; path := "/r/a"; parent_id := Some 1%nat; new := false;
  st_mode := Some mode_reg; st_mtime_ns := Some 50; st_size := Some 3;
|}.

Definition scan_db : DB := {|
  objects := [obj1; obj2];
  object_relations := [ {| parent := id1; child := id2 |} ];
  fsentry := {[ 1%nat := row_r; 2%nat := row_a ]};
  fsentry_seq := 2;
  snapshots := [];
|}.

Definition stat_of (mode mtime size : Z) : os.stat_result := {|
  os.st_mode := mode; os.st_ino := 7; os.st_uid := 1000; os.st_gid := 1000;
  os.st_size := size; os.st_mtime_ns := mtime; os.st_atime_ns := mtime;
|}.

Definition no_file : oserror + os.file := inl FileNotFoundError.


(** Nothing changed since the last scan. *)
Definition fs_same : os.FS := {|
  os.sys_lstat p :=
    if bool_decide (p = "/r") then inr (stat_of mode_dir 100 4096)
    else if bool_decide (p = "/r/a") then inr (stat_of mode_reg 50 3)
    else inl FileNotFoundError;
  os.sys_listdir p := if bool_decide (p = "/r") then inr ["a"] else inl NotADirectoryError;
  os.sys_open p noatime := no_file;
  os.has_O_NOATIME := true;
  os.sys_fromtimestamp st := None;
|}.

(** The file [/r/a] was modified. *)
Definition fs_touched : os.FS := {|
  os.sys_lstat p :=
    if bool_decide (p = "/r") then inr (stat_of mode_dir 100 4096)
    else if bool_decide (p = "/r/a") then inr (stat_of mode_reg 60 5)
    else inl FileNotFoundError;
  os.sys_listdir p := if bool_decide (p = "/r") then inr ["a"] else inl NotADirectoryError;
  os.sys_open p noatime := no_file;
  os.has_O_NOATIME := true;
  os.sys_fromtimestamp st := None;
|}.



(** What [backup_iterator] may raise: the error of a system call, of the
    conversion of the time stamp, of the packing of a value, of the
    construction of an instance or of [save], or a [DependencyError]. *)
Definition entry_exn (x : exn) : Prop :=
  match x with
  | OSError _ | DependencyError | TypeError | OverflowError | ValueError
  | UnsupportedTypeException => True
  | _ => False
  end.

(** The exit contract of [backup_iterator] for row [i], on the generator:
    a return leaves the entry deleted (no primary key, no row) or saved with
    a non-null [obj]; what is raised is one of the errors above; what is
    yielded is not an empty payload. *)
Inductive exit_contract (i : nat) : Gen → Prop :=
| contract_deleted w e :
    fsentry (db_of w) !! i = None →
    exit_contract i (GReturn w e None)
| contract_saved w e o :
    obj_id e = Some o → fsentry (db_of w) !! i = Some e →
    exit_contract i (GReturn w e (Some i))
| contract_raise x w e id :
    entry_exn x →
    exit_contract i (GRaise x w e id)
| contract_yield w e id payload obj relations k :
    payload ≠ [] →
    (∀ sent w', exit_contract i (k sent w')) →
    exit_contract i (GYield w e id (payload, obj, relations) k).

Definition inode_object (st : os.stat_result) : UnsavedObject :=
  {| type := Some "inode"; file_size := Some (os.st_size st) |}.

(** Sample repository: the digest of a payload is the concatenation of the
    byte strings in it. *)
Fixpoint msg_bytes (m : msg) : bytes :=
  match m with
  | MBin b => b
  | MStr s => String.list_byte_of_string s
  | MList l => (fix go (l : list msg) : bytes :=
                  match l with
                  | [] => []
                  | x :: rest => msg_bytes x ++ go rest
                  end) l
  | MNone | MBool _ | MInt _ | MMap _ => []
  end.

Definition sample_repo (threshold : Z) : Repository := {|
  backup_inline_threshold := threshold;
  chunk_size := 2;
  hash payload := mjoin (msg_bytes <$> payload);
  put _ _ := None;
  put_snapshot _ := None;
|}.

(** A tree [/r] with one file [/r/a] of three bytes, scanned and not yet
    backed up. *)
Definition dirty_r : FSEntry := {|
  obj_id := None; path := "/r"; parent_id := None; new := false;
  st_mode := Some mode_dir; st_mtime_ns := Some 100; st_size := Some 4096;
|}.

Definition dirty_a : FSEntry := {|
  obj_id := None; path := "/r/a"; parent_id := Some 1%nat; new := false;
  st_mode := Some mode_reg; st_mtime_ns := Some 50; st_size := Some 3;
|}.

Definition backup_db : DB := {|
  objects := [];
  object_relations := [];
  fsentry := {[ 1%nat := dirty_r; 2%nat := dirty_a ]};
  fsentry_seq := 2;
  snapshots := [];
|}.

Definition backup_world : World := {| db_of := backup_db; log_of := [] |}.

Definition file_a : os.file :=
  {| os.contents := [Byte.x61; Byte.x62; Byte.x63]; os.fault := None |}.

Definition fs_backup : os.FS := {|
  os.sys_lstat p :=
    if bool_decide (p = "/r") then inr (stat_of mode_dir 100 4096)
    else if bool_decide (p = "/r/a") then inr (stat_of mode_reg 50 3)
    else inl FileNotFoundError;
  os.sys_listdir p := if bool_decide (p = "/r") then inr ["a"] else inl NotADirectoryError;
  os.sys_open p noatime :=
    if bool_decide (p = "/r/a") then inr file_a else inl FileNotFoundError;
  os.has_O_NOATIME := true;
  os.sys_fromtimestamp st := None;
|}.

(** A hostile tree: [gone] vanished, [l] is a symbolic link, [secret]
    cannot be opened, and reading [b] fails after its first two bytes. *)
Definition mode_lnk : Z := 41471.    (* 0o120777 *)

Definition file_b : os.file :=
  {| os.contents := [Byte.x61; Byte.x62; Byte.x63];
     os.fault := Some (2%nat, OtherOSError) |}.

Definition fs_hostile : os.FS := {|
  os.sys_lstat p :=
    if bool_decide (p = "/r") then inr (stat_of mode_dir 100 4096)
    else if bool_decide (p = "/r/l") then inr (stat_of mode_lnk 50 1)
    else if bool_decide (p = "/r/secret") then inr (stat_of mode_reg 50 3)
    else if bool_decide (p = "/r/b") then inr (stat_of mode_reg 50 3)
    else inl FileNotFoundError;
  os.sys_listdir p := inl PermissionError;
  os.sys_open p noatime :=
    if bool_decide (p = "/r/b") then inr file_b
    else if bool_decide (p = "/r/secret") then inl PermissionError
    else inl FileNotFoundError;
  os.has_O_NOATIME := true;
  os.sys_fromtimestamp st := None;
|}.

Definition dirty_at (p : string) : FSEntry := {|
  obj_id := None; path := p; parent_id := Some 1%nat; new := false;
  st_mode := Some mode_reg; st_mtime_ns := Some 50; st_size := Some 3;
|}.

(** A database in which an added root was not scanned yet. *)
Definition unscanned_world : World := {|
  db_of := {| objects := []; object_relations := [];
              fsentry := {[ 1%nat := set_new true dirty_r ]};
              fsentry_seq := 1; snapshots := [] |};
  log_of := [];
|}.

(** The exceptions a backup lets through once its precondition holds. *)
Definition backup_error (x : exn) : Prop := entry_exn x ∨ x = AssertionError.

Definition raises_backup_error (o : outcome) : Prop :=
  ∀ x, o = Raised x → backup_error x.

(** Some entry is still flagged [new]. *)
Definition scan_pending (db : DB) : Prop :=
  ∃ i row, fsentry db !! i = Some row ∧ new row = true.

Definition scan_first : exn := RuntimeError "You need to run a scan first".

End Spec.
Export Spec.

(** * Further models and vocabulary *)

(** ** [Setting] *)

Module Setting.

(** [Setting.get(key, default)] on the table [settings], a map from keys to
    values; [default] is [None] for the sentinel [_empty]. *)
Definition get (settings : gmap string string) (key : string) (default : option string)
  : Res string :=
  match settings !! key with
  | Some value => Ok value
  | None =>
      match default with
      | None => Exc KeyError
      | Some d => Ok d
      end
  end.

(** [Setting.set(key, value)]: [save()] on an instance with a primary key
    updates the row or inserts it. *)
Definition set (settings : gmap string string) (key value : string)
  : gmap string string :=
  <[key := value]> settings.

End Setting.

(** ** Sample data *)

(** An object graph with a cycle below the root of its snapshot: [01] is the
    parent of [02] and [02] the parent of [01]. *)
Definition gc_db_cycle : DB := {|
  objects := [obj1; obj2];
  object_relations := [ {| parent := id1; child := id2 |};
                        {| parent := id2; child := id1 |} ];
  fsentry := ∅;
  fsentry_seq := 0;
  snapshots := [ {| snapshot_path := "/r"; root_id := id1; date := 0 |} ];
|}.

(** The directory [/r] was replaced by a regular file. *)
Definition fs_replaced : os.FS := {|
  os.sys_lstat p :=
    if bool_decide (p = "/r") then inr (stat_of mode_reg 200 10)
    else inl NotADirectoryError;
  os.sys_listdir p := inl NotADirectoryError;
  os.sys_open p noatime := no_file;
  os.has_O_NOATIME := true;
  os.sys_fromtimestamp st := None;
|}.

(** ** Invariants of the backup of an entry *)

(** A property of the world holds in every state of a generator, provided
    it holds of the world the generator is resumed with. *)
Inductive gen_inv (I : World → Prop) : Gen → Prop :=
| gen_inv_return w e id : I w → gen_inv I (GReturn w e id)
| gen_inv_raise x w e id : I w → gen_inv I (GRaise x w e id)
| gen_inv_yield w e id y k :
    I w → (∀ sent w', I w' → gen_inv I (k sent w')) → gen_inv I (GYield w e id y k).

(** What the backup of an entry leaves of a world [w0]: the snapshots are
    the same, the tables [objects] and [object_relations] have only grown
    at their end, no id was handed out, the log has only grown, and the
    rows of [fsentry] other than row [i] are rows of [w0], unchanged. *)
Definition entry_frame (i : nat) (w0 w : World) : Prop :=
  snapshots (db_of w) = snapshots (db_of w0)
  ∧ objects (db_of w0) `prefix_of` objects (db_of w)
  ∧ object_relations (db_of w0) `prefix_of` object_relations (db_of w)
  ∧ fsentry_seq (db_of w) = fsentry_seq (db_of w0)
  ∧ log_of w0 `prefix_of` log_of w
  ∧ ∀ x row, x ≠ i → fsentry (db_of w) !! x = Some row →
      fsentry (db_of w0) !! x = Some row.

(** The snapshot [backup] takes of a root. *)
Definition snapshot_of (now : Z) (root : nat * FSEntry) : Snapshot :=
  {| snapshot_path := path root.2; root_id := default [] (obj_id root.2); date := now |}.

(** Every entry without an object is the parent of an entry without an
    object: a cycle of entries that wait for each other. *)
Definition dirty_cycle (db : DB) : Prop :=
  ∀ i row, fsentry db !! i = Some row → obj_id row = None →
    ∃ j child, fsentry db !! j = Some child ∧ obj_id child = None
               ∧ parent_id child = Some i.

(** Two entries that are each the parent of the other, not backed up. *)
Definition cycle_world : World := {|
  db_of := {| objects := []; object_relations := [];
              fsentry := {[ 1%nat := set_parent_id (Some 2%nat) dirty_r;
                            2%nat := dirty_a ]};
              fsentry_seq := 2; snapshots := [] |};
  log_of := [];
|}.

(** The directory [/r] was modified: [a] is gone and [b] is there. *)
Definition fs_grown : os.FS := {|
  os.sys_lstat p :=
    if bool_decide (p = "/r") then inr (stat_of mode_dir 200 4096)
    else if bool_decide (p = "/r/b") then inr (stat_of mode_reg 70 1)
    else inl FileNotFoundError;
  os.sys_listdir p := if bool_decide (p = "/r") then inr ["b"] else inl NotADirectoryError;
  os.sys_open p noatime := no_file;
  os.has_O_NOATIME := true;
  os.sys_fromtimestamp st := None;
|}.

(** What a generator may raise, in any of its states, satisfies [P]; what
    it yields is not an empty payload. *)
Inductive gen_raises (P : exn → Prop) : Gen → Prop :=
| gen_raises_return w e id : gen_raises P (GReturn w e id)
| gen_raises_raise x w e id : P x → gen_raises P (GRaise x w e id)
| gen_raises_yield w e id payload obj relations k :
    payload ≠ [] → (∀ sent w', gen_raises P (k sent w')) →
    gen_raises P (GYield w e id (payload, obj, relations) k).

(** The entry [i] has a child without an object. *)
Definition has_dirty_child (db : DB) (i : nat) : Prop :=
  Exists (λ c, obj_id c.2 = None) (children (fsentry db) i).

(** What [backup_entry] may raise on the instance [entry] of row [i] in
    the world [w]: one of the errors of [entry_exn], and [DependencyError]
    only when the entry is a directory and has a child without an
    object. *)
Definition entry_error (fs : os.FS) (w : World) (i : nat) (entry : FSEntry)
    (x : exn) : Prop :=
  entry_exn x
  ∧ (x = DependencyError →
       has_dirty_child (db_of w) i
       ∧ ∃ st, os.lstat fs (path entry) = Ok st ∧ stat.S_ISDIR (os.st_mode st) = true).

(** The tasks of a backup, in the order in which the worker of the pool
    runs them. A task is the backup of an instance, fetched at some earlier
    time from the row of its id, on the filesystem as it is when the task
    runs. *)
Definition run_tasks (repo : Repository) (tasks : list (os.FS * (nat * FSEntry)))
    (w : World) : World :=
  foldl (λ w t, er_world (backup_entry repo t.1 w t.2.1 t.2.2)) w tasks.

(** The entries without an object in [w] are entries of [w0], unchanged. *)
Definition dirty_rows_of (w0 w : World) : Prop :=
  ∀ x row, fsentry (db_of w) !! x = Some row → obj_id row = None →
    fsentry (db_of w0) !! x = Some row.

(** An entry was backed up: after the payloads [pushed], [backup_entry]
    pushed further payloads, the last of which is the payload of the entry;
    the instance [e] and row [i] carry the digest of that payload, and
    [objects] holds a row with that id. *)
Definition entry_saved (repo : Repository) (i : nat) (e : FSEntry)
    (pushed : list Yielded) (r : entry_result) : Prop :=
  ∃ payload obj relations more,
    er_pushed r = pushed ++ more ++ [(payload, obj, relations)]
    ∧ er_entry r = set_obj_id (Some (hash repo payload)) e
    ∧ fsentry (db_of (er_world r)) !! i = Some (er_entry r)
    ∧ ∃ o, o ∈ objects (db_of (er_world r)) ∧ objid o = hash repo payload.

(** The payload of an inode with inlined contents that are not empty. *)
Definition inlined_payload (payload : Payload) : Prop :=
  ∃ info b data,
    payload = [MStr "inode"; info; MList [MStr "immediate"; MBin (b :: data)]].

(** What [backup_iterator] yields for an entry: a payload with no
    relation, in which [calculate_children] reads no child once the payload
    is loaded into an object, unless the payload is that of a file inlined
    with contents, on which the reader fails. *)
Definition entry_payload (y : Yielded) : Prop :=
  y.2 = []
  ∧ ∀ oid o, load_payload {| objid := oid; payload := None |} y.1.1 = Ok o →
      calculate_children o = Ok []
      ∨ inlined_payload y.1.1 ∧ calculate_children o = Exc TypeError.

(** A generator in its last state: it has returned or raised. *)
Definition gen_last (g : Gen) : Prop :=
  match g with
  | GYield _ _ _ _ _ => False
  | _ => True
  end.

(** A generator that yields at most once, and then a value with the
    property [Q]. *)
Inductive gen_single (Q : Yielded → Prop) : Gen → Prop :=
| gen_single_last g : gen_last g → gen_single Q g
| gen_single_yield w e id y k :
    Q y → (∀ sent w', gen_last (k sent w')) → gen_single Q (GYield w e id y k).

(** The rows of [fsentry] without an object, as a table. *)
Definition dirty (db : DB) : gmap nat FSEntry :=
  filter (λ kv, obj_id kv.2 = None) (fsentry db).

(** What a scan leaves of a database [db]: the tables [objects],
    [object_relations] and [snapshots] are the same, no id of [fsentry] is
    handed out twice, and an entry that has an object had that object. *)
Definition scan_frame (db db' : DB) : Prop :=
  objects db' = objects db
  ∧ object_relations db' = object_relations db
  ∧ snapshots db' = snapshots db
  ∧ (fsentry_seq db ≤ fsentry_seq db')%nat
  ∧ ∀ x row o, fsentry db' !! x = Some row → obj_id row = Some o →
      ∃ row0, fsentry db !! x = Some row0 ∧ obj_id row0 = Some o.

(** * Properties *)


(** ** Results *)

Lemma res_bind_ok {A B} (a : A) (f : A → Res B) : Ok a ≫= f = f a.
Proof. reflexivity. Qed.

Lemma res_bind_exc {A B} (x : exn) (f : A → Res B) : Exc x ≫= f = Exc x.
Proof. reflexivity. Qed.

Lemma res_bind_inv {A B} (r : Res A) (f : A → Res B) (b : B) :
  r ≫= f = Ok b → ∃ a, r = Ok a ∧ f a = Ok b.
Proof. destruct r; [eauto | discriminate]. Qed.

Lemma res_bind_exc_inv {A B} (r : Res A) (f : A → Res B) (x : exn) :
  r ≫= f = Exc x → r = Exc x ∨ ∃ a, r = Ok a ∧ f a = Exc x.
Proof.
  destruct r; intros H; [right; eauto | left].
  rewrite res_bind_exc in H. by simplify_eq.
Qed.

(** [umsgpack.pack] appends the value or raises
    [UnsupportedTypeException]. *)
Lemma pack_ok v buf buf' :
  pack v buf = Ok buf' → buf' = buf ++ [v] ∧ packs v = true.
Proof. unfold pack. destruct (packs v); by intros [= <-]. Qed.

Lemma pack_exc v buf x :
  pack v buf = Exc x → x = UnsupportedTypeException ∧ packs v = false.
Proof. unfold pack. destruct (packs v); by intros [= <-]. Qed.

Lemma pack_packs v buf : packs v = true → pack v buf = Ok (buf ++ [v]).
Proof. unfold pack. by intros ->. Qed.

(** ** Garbage collection *)

Lemma py_index_lt len i n : py_index len i = Ok n → (n < len)%nat.
Proof.
  unfold py_index; intros H.
  repeat case_match; simplify_eq; lia.
Qed.

Lemma bloom_set_inv m bloom h o bloom' :
  bloom_set m bloom h o = Ok bloom' →
  ∃ pos n old,
    py_mod (Z.lxor h o) m = Ok pos
    ∧ py_index (length bloom) (pos / 8) = Ok n
    ∧ bloom !! n = Some old
    ∧ bloom' = <[n := Z.lor old (1 ≪ (pos `mod` 8))]> bloom.
Proof.
  unfold bloom_set, divmod8; intros H.
  apply res_bind_inv in H as (pos & Hpos & H).
  apply res_bind_inv in H as (old & Hget & Hset).
  apply res_bind_inv in Hget as (n & Hn & Hget).
  unfold bytearray_set in Hset. rewrite Hn, res_bind_ok in Hset.
  exists pos, n, old. repeat case_match; by simplify_eq.
Qed.

Lemma bloom_set_length m bloom h o bloom' :
  bloom_set m bloom h o = Ok bloom' → length bloom' = length bloom.
Proof.
  intros (pos & n & old & _ & _ & _ & ->)%bloom_set_inv.
  by rewrite length_insert.
Qed.

Lemma testbit_lor_shiftl_same (b i : Z) :
  0 ≤ i → Z.testbit (Z.lor b (1 ≪ i)) i = true.
Proof.
  intros Hi. rewrite Z.lor_spec, Z.shiftl_spec by done.
  replace (i - i) with 0 by lia. simpl. apply orb_true_r.
Qed.

Lemma land_shiftl_nonzero (b i : Z) :
  0 ≤ i → Z.testbit b i = true → Z.land b (1 ≪ i) ≠ 0.
Proof.
  intros Hi Hb Hz.
  assert (Z.testbit (Z.land b (1 ≪ i)) i = true) as Ht.
  { rewrite Z.land_spec, Hb, Z.shiftl_spec by done.
    replace (i - i) with 0 by lia. reflexivity. }
  rewrite Hz, Z.bits_0 in Ht. discriminate.
Qed.

(** A set bit stays set. *)
Lemma bloom_set_keeps m bloom h o bloom' pos :
  bloom_set m bloom h o = Ok bloom' → bit_on bloom pos → bit_on bloom' pos.
Proof.
  intros Hset (n & b & Hn & Hb & Hbit).
  pose proof (bloom_set_length _ _ _ _ _ Hset) as Hlen.
  apply bloom_set_inv in Hset as (pos' & n' & old & _ & Hn' & Hold & ->).
  unfold bit_on. rewrite Hlen.
  destruct (decide (n' = n)) as [->|Hne].
  - exists n, (Z.lor old (1 ≪ (pos' `mod` 8))). split_and!; [done | |].
    + apply list_lookup_insert_eq. by eapply py_index_lt.
    + rewrite Z.lor_spec. simplify_eq. by rewrite Hbit.
  - exists n, b. split_and!; [done | | done].
    by rewrite list_lookup_insert_ne.
Qed.

(** The bit of the position just computed is set. *)
Lemma bloom_set_sets m bloom h o bloom' :
  bloom_set m bloom h o = Ok bloom' →
  ∃ pos, py_mod (Z.lxor h o) m = Ok pos ∧ bit_on bloom' pos.
Proof.
  intros Hset.
  pose proof (bloom_set_length _ _ _ _ _ Hset) as Hlen.
  apply bloom_set_inv in Hset as (pos & n & old & Hpos & Hn & Hold & ->).
  exists pos. split; [done|]. unfold bit_on. rewrite Hlen.
  exists n, (Z.lor old (1 ≪ (pos `mod` 8))). split_and!; [done | |].
  - apply list_lookup_insert_eq. by eapply py_index_lt.
  - apply testbit_lor_shiftl_same. by apply Z.mod_pos_bound.
Qed.

Lemma bloom_add_keeps m hashes bloom o bloom' pos :
  bloom_add m hashes bloom o = Ok bloom' → bit_on bloom pos → bit_on bloom' pos.
Proof.
  revert bloom. induction hashes as [|h hs IH]; intros bloom Hadd Hon; simpl in Hadd.
  - by simplify_eq.
  - apply res_bind_inv in Hadd as (b1 & Hset & Hadd).
    eapply IH; [done|]. by eapply bloom_set_keeps.
Qed.

Lemma bloom_add_sets m hashes bloom o bloom' :
  bloom_add m hashes bloom o = Ok bloom' → positions_on m hashes bloom' o.
Proof.
  revert bloom. induction hashes as [|h hs IH]; intros bloom Hadd h' Hin; simpl in Hadd.
  - by apply elem_of_nil in Hin.
  - apply res_bind_inv in Hadd as (b1 & Hset & Hadd).
    apply elem_of_cons in Hin as [->|Hin].
    + apply bloom_set_sets in Hset as (pos & Hpos & Hon).
      exists pos. split; [done|]. by eapply bloom_add_keeps.
    + by eapply IH.
Qed.

Lemma mark_keeps m hashes rows bloom bloom' pos :
  mark m hashes rows bloom = Ok bloom' → bit_on bloom pos → bit_on bloom' pos.
Proof.
  revert bloom. induction rows as [|r rs IH]; intros bloom Hmark Hon; simpl in Hmark.
  - by simplify_eq.
  - apply res_bind_inv in Hmark as (b1 & Hadd & Hmark).
    eapply IH; [done|]. by eapply bloom_add_keeps.
Qed.

(** After the first pass every position of every row of the reachable query
    is set. *)
Lemma mark_sets m hashes rows bloom bloom' row :
  mark m hashes rows bloom = Ok bloom' → row ∈ rows →
  positions_on m hashes bloom' (int_from_bytes_little row).
Proof.
  revert bloom. induction rows as [|r rs IH]; intros bloom Hmark Hin; simpl in Hmark.
  - by apply elem_of_nil in Hin.
  - apply res_bind_inv in Hmark as (b1 & Hadd & Hmark).
    apply elem_of_cons in Hin as [->|Hin]; [|by eapply IH].
    intros h Hh. destruct (bloom_add_sets _ _ _ _ _ Hadd h Hh) as (pos & Hpos & Hon).
    exists pos. split; [done|]. by eapply mark_keeps.
Qed.

(** The second pass tests the positions the first pass set. *)
Lemma hash_match_on m bloom h o pos :
  py_mod (Z.lxor h o) m = Ok pos → bit_on bloom pos →
  ∃ r, hash_match m bloom h o = Ok r ∧ r ≠ 0.
Proof.
  intros Hpos (n & b & Hn & Hb & Hbit).
  unfold hash_match, divmod8, bytearray_get.
  rewrite Hpos, res_bind_ok, Hn, res_bind_ok, Hb, res_bind_ok.
  eexists; split; [done|].
  apply land_shiftl_nonzero; [|done]. by apply Z.mod_pos_bound.
Qed.

Lemma all_hash_match_on m bloom hashes o :
  positions_on m hashes bloom o → all_hash_match m bloom hashes o = Ok true.
Proof.
  induction hashes as [|h hs IH]; intros Hon; simpl; [done|].
  destruct (Hon h) as (pos & Hpos & Hbit); [by left|].
  destruct (hash_match_on _ _ _ _ _ Hpos Hbit) as (r & -> & Hr).
  rewrite res_bind_ok. apply Z.eqb_neq in Hr as ->.
  apply IH. intros h' Hh'. apply Hon. by right.
Qed.

(** An object is yielded only if one of its positions is not set. *)
Lemma sweep_yields m bloom hashes objs y :
  y ∈ (sweep m bloom hashes objs).1 →
  all_hash_match m bloom hashes (int_from_bytes_little (objid y)) = Ok false.
Proof.
  induction objs as [|obj rest IH]; simpl; [by intros ?%elem_of_nil|].
  destruct (all_hash_match m bloom hashes (int_from_bytes_little (objid obj)))
    as [[]|] eqn:Hobj; simpl.
  - done.
  - destruct (sweep m bloom hashes rest) as [ys o]; simpl in *.
    intros [->|Hin]%elem_of_cons; [done|]. by apply IH.
  - by intros ?%elem_of_nil.
Qed.



(** The reachable query outputs every row of its queue and is closed under
    [children_of]. *)
Lemma reachable_rows_closed fuel db queue rows :
  reachable_rows fuel db queue = Some rows →
  (∀ x, x ∈ queue → x ∈ rows)
  ∧ (∀ x c, x ∈ rows → c ∈ children_of db x → c ∈ rows).
Proof.
  revert queue rows. induction fuel as [|fuel IH]; intros queue rows; simpl; [done|].
  destruct queue as [|row rest].
  - intros [= <-]. split; [done|]. by intros x c ?%elem_of_nil.
  - destruct (reachable_rows fuel db (rest ++ children_of db row)) as [rows'|] eqn:Hrec;
      simpl; [|done].
    intros [= <-]. destruct (IH _ _ Hrec) as [Hq Hc]. split.
    + intros x [->|Hx]%elem_of_cons; [by left|].
      right. apply Hq, elem_of_app. by left.
    + intros x c [->|Hx]%elem_of_cons Hchild; right.
      * apply Hq, elem_of_app. by right.
      * by eapply Hc.
Qed.

Lemma reachable_query_complete fuel db rows o :
  reachable_query fuel db = Some rows → reachable db o → o ∈ rows.
Proof.
  intros Hq. destruct (reachable_rows_closed _ _ _ _ Hq) as [Hroots Hclosed].
  induction 1 as [s Hs|r Hr Hp IH].
  - apply Hroots, list_elem_of_fmap. eauto.
  - apply (Hclosed (parent r)); [done|].
    unfold children_of. apply list_elem_of_fmap. exists r. split; [done|].
    by apply list_elem_of_filter.
Qed.

(** *** Termination of the reachable query on a DAG *)

Section reachable_terminates.
Context (db : DB) (rank : bytes → nat) (Hdag : acyclic db rank).

Lemma children_of_rank x c : c ∈ children_of db x → (rank c < rank x)%nat.
Proof using Hdag.
  unfold children_of. intros (r & -> & [<- Hr]%list_elem_of_filter)%list_elem_of_fmap.
  by apply Hdag.
Qed.

Lemma sum_list_with_eq {A} (f g : A → nat) (l : list A) :
  (∀ x, x ∈ l → f x = g x) → sum_list_with f l = sum_list_with g l.
Proof.
  induction l as [|x l IH]; intros Hfg; simpl; [done|].
  rewrite Hfg by (by left). rewrite IH; [done|]. intros y Hy. apply Hfg. by right.
Qed.

Lemma rows_below_stable d x :
  (rank x ≤ d)%nat → rows_below (S d) db x = rows_below d db x.
Proof using Hdag.
  revert x. induction d as [|d IH]; intros x Hx.
  - simpl. destruct (children_of db x) as [|c l] eqn:Hc; [done|].
    assert (rank c < rank x)%nat by (apply children_of_rank; rewrite Hc; by left). lia.
  - change (S (sum_list_with (rows_below (S d) db) (children_of db x))
            = S (sum_list_with (rows_below d db) (children_of db x))).
    f_equal. apply sum_list_with_eq. intros c Hc%children_of_rank. apply IH. lia.
Qed.

Lemma reachable_rows_terminates d fuel queue :
  (∀ x, x ∈ queue → rank x ≤ d)%nat →
  (sum_list_with (rows_below d db) queue < fuel)%nat →
  is_Some (reachable_rows fuel db queue).
Proof using Hdag.
  revert queue. induction fuel as [|fuel IH]; intros queue Hrank Hfuel; [lia|].
  destruct queue as [|x rest]; simpl; [done|].
  apply fmap_is_Some, IH.
  - intros y [Hy|Hy%children_of_rank]%elem_of_app.
    + apply Hrank. by right.
    + assert (rank x ≤ d)%nat by (apply Hrank; by left). lia.
  - rewrite sum_list_with_app. simpl in Hfuel.
    assert (rank x ≤ d)%nat as Hx by (apply Hrank; by left).
    destruct d as [|d].
    + destruct (children_of db x) as [|c l] eqn:Hc; [simpl in *; lia|].
      assert (rank c < rank x)%nat by (apply children_of_rank; rewrite Hc; by left). lia.
    + assert (sum_list_with (rows_below (S d) db) (children_of db x)
              = sum_list_with (rows_below d db) (children_of db x)) as ->.
      { apply sum_list_with_eq. intros c Hc%children_of_rank.
        apply rows_below_stable. lia. }
      change (rows_below (S d) db x)
        with (S (sum_list_with (rows_below d db) (children_of db x))) in Hfuel.
      lia.
Qed.

(** With enough fuel the query ends, and so does the collector. *)
Lemma reachable_query_terminates :
  ∃ fuel0, ∀ fuel, (fuel0 ≤ fuel)%nat → is_Some (reachable_query fuel db).
Proof using Hdag.
  exists (S (sum_list_with
               (rows_below (sum_list_with rank (root_id <$> snapshots db)) db)
               (root_id <$> snapshots db))).
  intros fuel Hfuel. unfold reachable_query.
  apply (reachable_rows_terminates (sum_list_with rank (root_id <$> snapshots db)));
    [|lia].
  intros x Hx. by apply sum_list_with_in.
Qed.

Lemma collect_garbage_terminates rng :
  ∃ fuel0, ∀ fuel, (fuel0 ≤ fuel)%nat → (collect_garbage fuel rng db).2 ≠ Hangs.
Proof using Hdag.
  destruct reachable_query_terminates as [fuel0 Hq]. exists fuel0.
  intros fuel [rows Hrows]%Hq. unfold collect_garbage, collect_garbage_setup.
  destruct (_ ≫= _) as [[[m hashes] bloom]|x]; [|done].
  rewrite Hrows. destruct (mark m hashes rows bloom ≫= _) as [[[m' hashes'] bloom']|x];
    [|done].
  induction (objects db) as [|obj rest IH]; simpl; [done|].
  destruct (all_hash_match _ _ _ _) as [[]|]; [done| |done].
  by destruct (sweep m' bloom' hashes' rest).
Qed.

End reachable_terminates.

(** C1 — GC soundness. An object whose id is reachable from the root of a
    snapshot along [object_relations] is never yielded by [collect_garbage],
    for any random salts and however the generator ends: the positions set
    for it in the first pass are the positions tested in the second. *)
Theorem collect_garbage_sound fuel rng db obj :
  reachable db (objid obj) → obj ∉ (collect_garbage fuel rng db).1.
Proof.
  intros Hreach. unfold collect_garbage.
  destruct (collect_garbage_setup fuel rng db) as [[[[m hashes] bloom]|x]|] eqn:Hsetup;
    simpl; try by intros ?%elem_of_nil.
  intros Hy%sweep_yields.
  unfold collect_garbage_setup in Hsetup.
  destruct (_ ≫= _) as [[[m0 hashes0] bloom0]|] in Hsetup; [|by simplify_eq].
  destruct (reachable_query fuel db) as [rows|] eqn:Hq; [|done].
  injection Hsetup as Hsetup.
  apply res_bind_inv in Hsetup as (bloom' & Hmark & [= -> -> ->]).
  pose proof (reachable_query_complete _ _ _ _ Hq Hreach) as Hin.
  pose proof (mark_sets _ _ _ _ _ _ Hmark Hin) as Hon.
  apply all_hash_match_on in Hon. congruence.
Qed.

Lemma collect_garbage_sound_witness :
  reachable gc_db (objid obj2) ∧ obj2 ∉ (collect_garbage 10 gc_rng gc_db).1.
Proof.
  assert (reachable gc_db (objid obj2)) as H.
  { apply (reachable_child gc_db {| parent := id1; child := id2 |}).
    - apply list_elem_of_In. simpl. auto.
    - apply (reachable_root gc_db {| snapshot_path := "/r"; root_id := id1; date := 0 |}).
      apply list_elem_of_In. simpl. auto. }
  split; [exact H | exact (collect_garbage_sound 10 gc_rng gc_db obj2 H)].
Defined.

(** On the sample graph the collector finishes and yields exactly the
    unreferenced object. *)
Example collect_garbage_sample :
  collect_garbage 10 gc_rng gc_db = ([obj3], Finished).
Proof. vm_compute. reflexivity. Qed.


(** With no row in [objects] the computation of [k] raises before the
    reachable query is run. *)
Lemma collect_garbage_setup_empty fuel rng db :
  objects db = [] →
  collect_garbage_setup fuel rng db = Some (Exc ZeroDivisionError).
Proof. unfold collect_garbage_setup. by intros ->. Qed.

(** C9 — the empty table. With zero rows in [objects], [m] is [0], the
    computation of [k] divides by [num_objects = 0], and [collect_garbage]
    raises [ZeroDivisionError] without yielding anything; it does not run to
    completion. *)
Theorem collect_garbage_empty_table fuel rng db :
  objects db = [] →
  bloom_m 0 = Ok 0
  ∧ bloom_k 0 0 = Exc ZeroDivisionError
  ∧ collect_garbage fuel rng db = ([], Raised ZeroDivisionError)
  ∧ (collect_garbage fuel rng db).2 ≠ Finished.
Proof.
  intros Hempty. unfold collect_garbage.
  rewrite (collect_garbage_setup_empty _ _ _ Hempty). by split_and!.
Qed.

Lemma collect_garbage_empty_table_witness :
  objects gc_db_empty = []
  ∧ collect_garbage 10 gc_rng gc_db_empty = ([], Raised ZeroDivisionError).
Proof.
  split; [reflexivity|].
  apply (collect_garbage_empty_table 10 gc_rng gc_db_empty). reflexivity.
Defined.

(** The generator runs to completion only on a table with at least one
    row. *)
Lemma collect_garbage_finished_nonempty fuel rng db :
  (collect_garbage fuel rng db).2 = Finished → objects db ≠ [].
Proof.
  intros Hfin Hempty. unfold collect_garbage in Hfin.
  by rewrite (collect_garbage_setup_empty _ _ _ Hempty) in Hfin.
Qed.

(** ** Scanning *)

Lemma filter_none {A} (P : A → Prop) `{∀ x, Decision (P x)} (l : list A) :
  Forall (λ x, ¬ P x) l → filter P l = [].
Proof. induction 1 as [|x l Hx _ IH]; [done|]. by rewrite filter_cons_False. Qed.

(** The early exit of [scan]. *)
Lemma scan_early_exit fuel fs db i self :
  clean fs self →
  scan fuel fs db i self =
    {| sr_db := db; sr_self := self; sr_id := Some i;
       sr_log := [logging.Build_record logging.DEBUG "Entering scan for {}" (path self);
                  logging.Build_record logging.DEBUG "No change to {}" (path self)];
       sr_outcome := Finished |}.
Proof.
  intros (Hnew & st & Hstat & Hmode & Hmtime & Hsize). unfold scan.
  rewrite Hstat, Hmode, andb_negb_r, Hnew. unfold compare_stat_info.
  rewrite Hmode, Hmtime, Hsize, !bool_decide_eq_true_2 by done. done.
Qed.

(** A pass over clean entries changes nothing. *)
Lemma scan_entries_clean fuel fs check entries db0 db log :
  Forall (λ kv, clean fs kv.2) entries →
  (Scan.scan_entries fuel fs check entries db0 db log).1.1 = db
  ∧ (Scan.scan_entries fuel fs check entries db0 db log).2 = Finished.
Proof.
  intros Hclean. revert log.
  induction Hclean as [|[i entry] rest Hentry _ IH]; intros log; [done|].
  simpl. rewrite (scan_early_exit fuel fs db i entry Hentry). simpl.
  destruct Hentry as [Hnew _]. simpl in Hnew. rewrite Hnew, andb_false_r. apply IH.
Qed.

(** A whole scan of a tree that did not change since the last scan leaves
    every row as it is. *)
Lemma scan_unchanged_tree loops fuel fs db :
  (∀ i row, fsentry db !! i = Some row → clean fs row) →
  (Scan.scan loops fuel fs db false).1.1 = db
  ∧ (Scan.scan loops fuel fs db false).2 = Finished.
Proof.
  intros Hclean. unfold Scan.scan.
  assert (Forall (λ kv, clean fs kv.2) (map_to_list (fsentry db))) as Hall.
  { apply Forall_forall. intros [i row] Hin%elem_of_map_to_list. by eapply Hclean. }
  destruct (scan_entries_clean fuel fs false _ db db [] Hall) as [Hdb Hout].
  destruct (Scan.scan_entries fuel fs false _ db db []) as [[db' log] o].
  simpl in Hdb, Hout. subst db' o.
  assert (filter (λ kv, new kv.2 = true) (map_to_list (fsentry db)) = []) as Hnone.
  { apply filter_none. eapply Forall_impl; [exact Hall|].
    intros kv [Hnew _]. by rewrite Hnew. }
  destruct loops; simpl; by rewrite Hnone.
Qed.

Example scan_unchanged_sample :
  (Scan.scan 3 3 fs_same scan_db false).1.1 = scan_db.
Proof.
  apply scan_unchanged_tree. intros i row Hrow. simpl in Hrow.
  apply lookup_insert_Some in Hrow as [[<- <-]|[_ Hrow]].
  - split; [done|]. by exists (stat_of mode_dir 100 4096).
  - apply lookup_singleton_Some in Hrow as [<- <-].
    split; [done|]. by exists (stat_of mode_reg 50 3).
Qed.

(** C8 — clean idempotence of [scan]. For an entry that is not [new] and
    whose stored [st_mode], [st_mtime_ns] and [st_size] are the values
    [lstat] returns, [scan] returns normally and leaves the database and the
    instance as they were: no row is modified, created or deleted, and [obj]
    is not touched. *)
Theorem scan_clean_unchanged fuel fs db i self st :
  os.lstat fs (path self) = Ok st →
  new self = false →
  st_mode self = Some (os.st_mode st) →
  st_mtime_ns self = Some (os.st_mtime_ns st) →
  st_size self = Some (os.st_size st) →
  sr_db (scan fuel fs db i self) = db
  ∧ sr_self (scan fuel fs db i self) = self
  ∧ sr_id (scan fuel fs db i self) = Some i
  ∧ sr_outcome (scan fuel fs db i self) = Finished.
Proof.
  intros Hstat Hnew Hmode Hmtime Hsize.
  rewrite (scan_early_exit fuel fs db i self); [done|].
  split; [done|]. by exists st.
Qed.

Lemma scan_clean_unchanged_witness :
  sr_db (scan 0 fs_same scan_db 1 row_r) = scan_db
  ∧ sr_self (scan 0 fs_same scan_db 1 row_r) = row_r
  ∧ sr_id (scan 0 fs_same scan_db 1 row_r) = Some 1%nat
  ∧ sr_outcome (scan 0 fs_same scan_db 1 row_r) = Finished.
Proof.
  apply (scan_clean_unchanged 0 fs_same scan_db 1 row_r (stat_of mode_dir 100 4096));
    reflexivity.
Defined.

(** *** The ancestor query and [invalidate] *)

Lemma ancestors_from_complete fuel tbl a ids b :
  ancestors_from fuel tbl a = Some ids → ancestor_or_self tbl a b → b ∈ ids.
Proof.
  intros Hq Hanc. revert fuel ids Hq.
  induction Hanc as [x|x row p a Hrow Hp Hanc IH]; intros [|fuel] ids Hq;
    simpl in Hq; try done.
  - destruct (tbl !! x ≫= parent_id); [|simplify_eq; by left].
    destruct (ancestors_from fuel tbl n); simplify_eq/=. by left.
  - rewrite Hrow in Hq. simpl in Hq. rewrite Hp in Hq.
    destruct (ancestors_from fuel tbl p) as [ids'|] eqn:Hrec; simplify_eq/=.
    right. by eapply IH.
Qed.

Lemma invalidate_lookup fuel tbl i tbl' :
  invalidate fuel tbl i = Some tbl' →
  ∃ ids, ancestors fuel tbl i = Some ids
    ∧ ∀ j, tbl' !! j =
        (λ row, if bool_decide (j ∈ ids) then set_obj_id None row else row) <$> tbl !! j.
Proof.
  unfold invalidate. destruct (ancestors fuel tbl i) as [ids|]; simpl; [|done].
  intros [= <-]. exists ids. split; [done|]. intros j.
  rewrite map_lookup_imap. by destruct (tbl !! j).
Qed.

(** [invalidate] does not move any entry in the tree. *)
Lemma invalidate_ancestor fuel tbl i tbl' x a :
  invalidate fuel tbl i = Some tbl' →
  ancestor_or_self tbl' x a → ancestor_or_self tbl x a.
Proof.
  intros (ids & _ & Hlook)%invalidate_lookup.
  induction 1 as [x|x row p a Hrow Hp _ IH]; [constructor|].
  rewrite Hlook in Hrow. destruct (tbl !! x) as [row0|] eqn:Hrow0; simplify_eq/=.
  eapply ancestor_parent; [done| |done].
  by destruct (bool_decide _).
Qed.

(** After [invalidate] the entry and all its ancestors are dirty. *)
Lemma invalidate_dirty fuel tbl i tbl' a row :
  is_Some (tbl !! i) →
  invalidate fuel tbl i = Some tbl' →
  ancestor_or_self tbl' i a → tbl' !! a = Some row → obj_id row = None.
Proof.
  intros [rowi Hi] Hinv Hanc Hrow.
  pose proof (invalidate_ancestor _ _ _ _ _ _ Hinv Hanc) as Hanc0.
  apply invalidate_lookup in Hinv as (ids & Hids & Hlook).
  unfold ancestors in Hids. rewrite Hi in Hids.
  pose proof (ancestors_from_complete _ _ _ _ _ Hids Hanc0) as Hin.
  rewrite Hlook in Hrow. destruct (tbl !! a); simplify_eq/=.
  by rewrite bool_decide_eq_true_2.
Qed.

(** The shape of a call of [scan] that does not take the early exit. *)
Lemma scan_changed_cases fuel fs db i self st :
  os.lstat fs (path self) = Ok st → changed self st →
  ∃ db1 log1,
    (stat.S_ISDIR (os.st_mode st) = true →
       db1 = db
       ∧ log1 = [logging.Build_record logging.DEBUG "Entering scan for {}" (path self)])
    ∧ (db1 = db ∨ db1 = with_fsentry db (delete_children i (fsentry db)))
    ∧ let self' := update_stat_info (set_new false (set_obj_id None self)) st in
      match
        if stat.S_ISDIR (os.st_mode st) then scan_directory fs i self' db1 log1
        else (log1, Ok db1)
      with
      | (log2, Exc x) =>
          scan fuel fs db i self =
            {| sr_db := db; sr_self := self'; sr_id := Some i; sr_log := log2;
               sr_outcome := Raised x |}
      | (log2, Ok db2) =>
          let log3 := log2 ++ [logging.Build_record logging.INFO
                                 "Entry updated: {}" (path self)] in
          match save (fsentry db2) i self' with
          | Exc x =>
              scan fuel fs db i self =
                {| sr_db := db; sr_self := self'; sr_id := Some i; sr_log := log3;
                   sr_outcome := Raised x |}
          | Ok tbl =>
              match invalidate fuel tbl i with
              | None =>
                  scan fuel fs db i self =
                    {| sr_db := db; sr_self := self'; sr_id := Some i;
                       sr_log := log3; sr_outcome := Hangs |}
              | Some tbl' =>
                  scan fuel fs db i self =
                    {| sr_db := with_fsentry db2 tbl'; sr_self := self'; sr_id := Some i;
                       sr_log := log3; sr_outcome := Finished |}
              end
          end
      end.
Proof.
  intros Hstat Hch. unfold scan. rewrite Hstat.
  assert (negb (new self) && compare_stat_info self st = false) as Hearly.
  { destruct Hch as [->| ->]; [done | apply andb_false_r]. }
  destruct (match st_mode self with
            | Some mode => stat.S_ISDIR mode && negb (stat.S_ISDIR (os.st_mode st))
            | None => false
            end) eqn:Hwas.
  - exists (with_fsentry db (delete_children i (fsentry db))),
      ([logging.Build_record logging.DEBUG "Entering scan for {}" (path self)]
       ++ [logging.Build_record logging.INFO "No longer a directory: {}" (path self)]).
    split; [|split; [by right|]].
    + intros Hdir. rewrite Hdir in Hwas. destruct (st_mode self); [|done].
      by rewrite andb_false_r in Hwas.
    + simpl. rewrite Hearly.
      destruct (if stat.S_ISDIR (os.st_mode st) then _ else _) as [log2 [db2|x]]; [|done].
      destruct (save _ _ _) as [tbl|x]; [|done].
      by destruct (invalidate _ _ _).
  - exists db, [logging.Build_record logging.DEBUG "Entering scan for {}" (path self)].
    split; [done|split; [by left|]].
    simpl. rewrite Hearly.
    destruct (if stat.S_ISDIR (os.st_mode st) then _ else _) as [log2 [db2|x]]; [|done].
    destruct (save _ _ _) as [tbl|x]; [|done].
    by destruct (invalidate _ _ _).
Qed.

(** *** Termination of [scan] on a forest *)

Lemma string_length_app (a b : string) :
  String.length (a +:+ b) = (String.length a + String.length b)%nat.
Proof. induction a as [|c a IH]; simpl; [done|]. by rewrite IH. Qed.

Lemma join_longer (a b : string) :
  b ≠ EmptyString → os.path.startswith_sep b = false →
  (String.length a < String.length (os.path.join a b))%nat.
Proof.
  intros Hb Hsep. unfold os.path.join. rewrite Hsep.
  destruct b as [|c b]; [done|].
  destruct (_ || _); rewrite string_length_app; simpl; lia.
Qed.

Lemma ancestors_from_terminates fuel tbl a :
  ranked tbl →
  (match tbl !! a with
   | Some row => S (String.length (path row))
   | None => O
   end < fuel)%nat →
  is_Some (ancestors_from fuel tbl a).
Proof.
  intros Hranked. revert a. induction fuel as [|fuel IH]; intros a Hfuel; [lia|].
  simpl. destruct (tbl !! a) as [row|] eqn:Hrow; simpl; [|done].
  destruct (parent_id row) as [p|] eqn:Hp; [|done].
  destruct (IH p) as [ids ->]; [|done].
  destruct (tbl !! p) as [prow|] eqn:Hprow; [|lia].
  pose proof (Hranked _ _ _ _ Hrow Hp Hprow). lia.
Qed.

Lemma scan_inv_init db i self :
  ranked (fsentry db) → ids_bounded db → fsentry db !! i = Some self →
  scan_inv i self db.
Proof.
  intros Hranked Hbounded Hi. destruct (Hbounded _ _ Hi) as [Hb1 Hb2].
  split; try done.
  - intros p Hp. split; [|by apply Hb2].
    intros ->. pose proof (Hranked _ _ _ _ Hi Hp Hi). lia.
  - intros r Hr. congruence.
  - intros x row Hx Hp. by eapply Hranked.
  - intros p prow Hp Hprow. by eapply Hranked.
Qed.

(** Deleting rows keeps the invariant. *)
Lemma scan_inv_subseteq i self db tbl :
  tbl ⊆ fsentry db → scan_inv i self db → scan_inv i self (with_fsentry db tbl).
Proof.
  intros Hsub [Hranked Hbounded Hid Hpid Hrow Hbelow Habove].
  split; simpl; try done.
  - intros x row p prow Hx Hp Hprow.
    eapply Hranked; [| done |]; by eapply lookup_weaken.
  - intros x row Hx. eapply Hbounded. by eapply lookup_weaken.
  - intros r Hr. eapply Hrow. by eapply lookup_weaken.
  - intros x row Hx. eapply Hbelow. by eapply lookup_weaken.
  - intros p prow Hp Hprow. eapply Habove; [done|]. by eapply lookup_weaken.
Qed.

Lemma delete_cascade_subseteq i tbl : delete_cascade i tbl ⊆ tbl.
Proof.
  unfold delete_cascade. destruct (tbl !! i); [|done]. apply map_filter_subseteq.
Qed.

Lemma delete_cascade_self i tbl : delete_cascade i tbl !! i = None.
Proof.
  unfold delete_cascade. destruct (tbl !! i) eqn:Hi; [|done].
  apply map_lookup_filter_None. right. intros row _. simpl.
  destruct (size tbl); simpl; by rewrite bool_decide_eq_true_2.
Qed.

Lemma delete_children_subseteq i tbl : delete_children i tbl ⊆ tbl.
Proof.
  unfold delete_children. induction (children tbl i) as [|kv l IH]; simpl; [done|].
  etrans; [apply delete_cascade_subseteq | done].
Qed.

Lemma delete_old_subseteq cs entries tbl log :
  (delete_old cs entries tbl log).1 ⊆ tbl.
Proof.
  revert tbl log. induction cs as [|[c child] cs IH]; intros tbl log; simpl; [done|].
  case_bool_decide; [done|].
  etrans; [apply IH | apply delete_cascade_subseteq].
Qed.

Lemma get_by_path_Some tbl p j row :
  get_by_path tbl p = Some (j, row) → tbl !! j = Some row ∧ path row = p.
Proof.
  unfold get_by_path. intros Hfind.
  destruct (list_find _ _) as [[n kv]|] eqn:Hf; simplify_eq/=.
  apply list_find_Some in Hf as (Hn & Hp & _).
  split; [|done]. apply elem_of_map_to_list. by eapply list_elem_of_lookup_2.
Qed.

(** Creating or reparenting an entry below [self] keeps the invariant. *)
Lemma create_entries_inv names i self db log db' log' :
  (∀ n, n ∈ names → n ≠ EmptyString ∧ os.path.startswith_sep n = false) →
  scan_inv i self db →
  create_entries names i self db log = (log', Ok db') →
  scan_inv i self db'.
Proof.
  revert db log. induction names as [|n names IH]; intros db log Hnames Hinv; simpl.
  { by intros [= _ <-]. }
  destruct (Hnames n) as [Hne Hsep]; [by left|].
  pose proof (join_longer (path self) n Hne Hsep) as Hlen.
  assert (∀ n', n' ∈ names → n' ≠ EmptyString ∧ os.path.startswith_sep n' = false)
    as Hnames' by (intros; apply Hnames; by right).
  destruct Hinv as [Hranked Hbounded Hid Hpid Hrow Hbelow Habove].
  unfold create.
  destruct (get_by_path (fsentry db) (os.path.join (path self) n))
    as [[j newentry]|] eqn:Hget.
  - (* the path exists: reparent *)
    destruct (parent_id newentry) eqn:Hroot; [done|].
    apply get_by_path_Some in Hget as [Hj Hpath].
    assert (i ≠ j) as Hij.
    { intros ->. apply Hrow in Hj. rewrite Hj in Hpath. rewrite <-Hpath in Hlen. lia. }
    apply IH; [done|]. split; simpl; try done.
    + intros x row p prow. rewrite !lookup_alter. intros Hx Hp Hprow.
      assert (∃ prow0, fsentry db !! p = Some prow0 ∧ path prow = path prow0)
        as (prow0 & Hprow0 & ->).
      { destruct (decide (j = p)) as [->|]; [|by eauto].
        rewrite Hj in Hprow. simplify_eq/=. by eauto. }
      destruct (decide (j = x)) as [->|]; [|by eapply Hranked].
      rewrite Hj in Hx. simplify_eq/=. apply Hrow in Hprow0. by rewrite Hprow0, Hpath.
    + intros x row. simpl. rewrite lookup_alter. intros Hx.
      destruct (decide (j = x)) as [->|]; [|by eapply Hbounded].
      rewrite Hj in Hx. simplify_eq/=. split; [by destruct (Hbounded _ _ Hj)|].
      by intros p [= <-].
    + intros r. rewrite lookup_alter, decide_False by done. apply Hrow.
    + intros x row. rewrite lookup_alter. intros Hx Hp.
      destruct (decide (j = x)) as [->|]; [|by eapply Hbelow].
      rewrite Hj in Hx. simplify_eq/=. by rewrite Hpath.
    + intros p prow Hp. rewrite lookup_alter. intros Hprow.
      destruct (decide (j = p)) as [->|]; [|by eapply Habove].
      rewrite Hj in Hprow. simplify_eq/=. by eapply Habove.
  - (* a new row *)
    apply IH; [done|].
    assert (i ≠ S (fsentry_seq db)) as Hij by lia.
    split; simpl; try done.
    + intros x row p prow. rewrite !lookup_insert. intros Hx Hp Hprow.
      destruct (decide (S (fsentry_seq db) = x)) as [<-|Hxj]; simplify_eq/=.
      * rewrite decide_False in Hprow by lia. apply Hrow in Hprow. by rewrite Hprow.
      * destruct (Hbounded _ _ Hx) as [_ Hpb]. apply Hpb in Hp as Hple.
        rewrite decide_False in Hprow by lia. by eapply Hranked.
    + intros x row. simpl. rewrite lookup_insert. intros Hx.
      destruct (decide (S (fsentry_seq db) = x)) as [<-|Hxj]; simplify_eq/=.
      * split; [lia|]. intros p [= <-]. lia.
      * destruct (Hbounded _ _ Hx) as [Hxb Hpb]. split; [lia|].
        intros p Hp. apply Hpb in Hp. lia.
    + lia.
    + intros p Hp. destruct (Hpid p Hp). split; [done | lia].
    + intros r. rewrite lookup_insert, decide_False by lia. apply Hrow.
    + intros x row. rewrite lookup_insert. intros Hx Hp.
      destruct (decide (S (fsentry_seq db) = x)) as [<-|Hxj]; simplify_eq/=;
        [done | by eapply Hbelow].
    + intros p prow Hp. rewrite lookup_insert. intros Hprow.
      destruct (Hpid p Hp) as [_ Hple].
      rewrite decide_False in Hprow by lia. by eapply Habove.
Qed.

Lemma scan_inv_instance i self self' db :
  path self' = path self → parent_id self' = parent_id self →
  scan_inv i self db → scan_inv i self' db.
Proof.
  intros Hpath Hparent [Hranked Hbounded Hid Hpid Hrow Hbelow Habove].
  split; rewrite ?Hpath, ?Hparent; done.
Qed.

Lemma scan_directory_inv fs i self db log db' log' :
  listing_ok fs (path self) →
  scan_inv i self db →
  scan_directory fs i self db log = (log', Ok db') →
  scan_inv i self db'.
Proof.
  intros Hlist Hinv. unfold scan_directory. intros Hdir.
  destruct (listdir_entries fs self log) as [[entries log1]|x] eqn:Hentries; [|done].
  destruct (create_entries _ _ _ _ _) as [log2 [db1|x]] eqn:Hcreate; [|done].
  destruct (delete_old _ _ _ _) as [tbl log3] eqn:Hdel. simplify_eq/=.
  assert (scan_inv i self db1) as Hinv1.
  { eapply create_entries_inv; [|done..].
    intros n [Hn _]%elem_of_elements%elem_of_difference.
    unfold listdir_entries in Hentries.
    destruct (os.listdir fs (path self)) as [names|[]] eqn:Hnames; simplify_eq/=.
    - apply elem_of_list_to_set in Hn. by eapply Hlist.
    - destruct e; simplify_eq/=. by apply not_elem_of_empty in Hn. }
  apply scan_inv_subseteq; [|done].
  pose proof (delete_old_subseteq (children (fsentry db) i) entries (fsentry db1) log2) as Hsub.
  by rewrite Hdel in Hsub.
Qed.

(** Writing the instance back keeps the forest ranked. *)
Lemma scan_inv_save i self db :
  scan_inv i self db → ranked (<[i := self]> (fsentry db)).
Proof.
  intros [Hranked Hbounded Hid Hpid Hrow Hbelow Habove] x row p prow.
  rewrite !lookup_insert. intros Hx Hp Hprow.
  destruct (decide (i = x)) as [->|Hix]; simplify_eq/=.
  - destruct (Hpid p Hp) as [Hne _]. rewrite decide_False in Hprow by done.
    by eapply Habove.
  - destruct (decide (i = p)) as [->|Hip]; simplify_eq/=.
    + by eapply Hbelow.
    + by eapply Hranked.
Qed.

(** On a ranked forest, with the instance loaded from its row and a listing
    of plain names, [scan] ends when the fuel of the ancestor query exceeds
    the length of the path by two. *)
Lemma scan_terminates fuel fs db i self :
  ranked (fsentry db) → ids_bounded db → fsentry db !! i = Some self →
  listing_ok fs (path self) →
  (String.length (path self) + 2 ≤ fuel)%nat →
  sr_outcome (scan fuel fs db i self) ≠ Hangs.
Proof.
  intros Hranked Hbounded Hi Hlist Hfuel.
  destruct (os.lstat fs (path self)) as [st|x] eqn:Hstat.
  2:{ unfold scan. rewrite Hstat. destruct x as [| | | | | | | | | |[]| | | | |]; done. }
  destruct (negb (new self) && compare_stat_info self st) eqn:Hearly.
  { unfold scan. rewrite Hstat.
    destruct (st_mode self) as [mode|]; [destruct (stat.S_ISDIR mode && _)|];
      simpl; by rewrite Hearly. }
  assert (changed self st) as Hch.
  { unfold changed. destruct (new self); [by left|]. by right. }
  destruct (scan_changed_cases fuel fs db i self st Hstat Hch)
    as (db1 & log1 & _ & Hdb1 & Hcases).
  simpl in Hcases.
  set (self' := update_stat_info (set_new false (set_obj_id None self)) st) in *.
  assert (scan_inv i self' db1) as Hinv1.
  { apply (scan_inv_instance i self); [done..|].
    pose proof (scan_inv_init _ _ _ Hranked Hbounded Hi) as Hinv.
    destruct Hdb1 as [->| ->]; [done|].
    apply scan_inv_subseteq; [apply delete_children_subseteq | done]. }
  destruct (if stat.S_ISDIR (os.st_mode st) then _ else _) as [log2 [db2|x]] eqn:Hdir.
  2:{ by rewrite Hcases. }
  assert (scan_inv i self' db2) as Hinv2.
  { destruct (stat.S_ISDIR (os.st_mode st)); [|by simplify_eq].
    by eapply scan_directory_inv. }
  unfold save in Hcases. destruct (storable self'); [|by rewrite Hcases].
  destruct (ancestors_from_terminates fuel (<[i := self']> (fsentry db2)) i)
    as [ids Hids].
  { by apply scan_inv_save. }
  { rewrite lookup_insert_eq. simpl. lia. }
  unfold invalidate, ancestors in Hcases. rewrite lookup_insert_eq, Hids in Hcases.
  simpl in Hcases. by rewrite Hcases.
Qed.

(** C5 — dirty propagation. When [scan] runs on an entry whose stat
    information changed (or whose [new] flag is set) and returns, the row of
    the entry exists and the entry and every ancestor met by following
    [parent] from it have [obj] null. On a ranked forest the call does
    return or raise: the recursive ancestor query ends. *)
Theorem scan_dirty_propagation fuel fs db i self st :
  os.lstat fs (path self) = Ok st →
  changed self st →
  (sr_outcome (scan fuel fs db i self) = Finished →
     is_Some (fsentry (sr_db (scan fuel fs db i self)) !! i)
     ∧ obj_id (sr_self (scan fuel fs db i self)) = None
     ∧ ∀ a row,
         ancestor_or_self (fsentry (sr_db (scan fuel fs db i self))) i a →
         fsentry (sr_db (scan fuel fs db i self)) !! a = Some row →
         obj_id row = None)
  ∧ (ranked (fsentry db) → ids_bounded db → fsentry db !! i = Some self →
     listing_ok fs (path self) → (String.length (path self) + 2 ≤ fuel)%nat →
     sr_outcome (scan fuel fs db i self) ≠ Hangs).
Proof.
  intros Hstat Hch. split; [|by apply scan_terminates].
  destruct (scan_changed_cases fuel fs db i self st Hstat Hch)
    as (db1 & log1 & _ & _ & Hcases).
  simpl in Hcases.
  destruct (if stat.S_ISDIR (os.st_mode st) then _ else _) as [log2 [db2|x]].
  2:{ by rewrite Hcases. }
  unfold save in Hcases. destruct (storable _); [|by rewrite Hcases].
  destruct (invalidate _ _ _) as [tbl'|] eqn:Hinv; [|by rewrite Hcases].
  rewrite Hcases. simpl. intros _.
  assert (is_Some (<[i := update_stat_info (set_new false (set_obj_id None self)) st]>
                     (fsentry db2) !! i)) as Hi
    by (rewrite lookup_insert_eq; eauto).
  split_and!; [|done|].
  - destruct (invalidate_lookup _ _ _ _ Hinv) as (ids & _ & Hlook).
    rewrite Hlook. by apply fmap_is_Some.
  - intros a row. by eapply invalidate_dirty.
Qed.

Lemma scan_dirty_propagation_witness :
  sr_outcome (scan 6 fs_touched scan_db 2 row_a) = Finished
  ∧ ∀ a row,
      ancestor_or_self (fsentry (sr_db (scan 6 fs_touched scan_db 2 row_a))) 2%nat a →
      fsentry (sr_db (scan 6 fs_touched scan_db 2 row_a)) !! a = Some row →
      obj_id row = None.
Proof.
  split; [reflexivity|].
  apply (scan_dirty_propagation 6 fs_touched scan_db 2 row_a (stat_of mode_reg 60 5)).
  - reflexivity.
  - right. reflexivity.
  - reflexivity.
Defined.

(** On the sample tree, scanning the modified file [/r/a] leaves the file
    and its directory dirty. *)
Example scan_touched_sample :
  obj_id <$> fsentry (sr_db (scan 6 fs_touched scan_db 2 row_a)) !! 2%nat = Some None
  ∧ obj_id <$> fsentry (sr_db (scan 6 fs_touched scan_db 2 row_a)) !! 1%nat = Some None.
Proof. split; vm_compute; reflexivity. Qed.

(** *** A directory that cannot be listed *)








(** ** Backup *)

(** A system call raises nothing but an [OSError]. *)
Lemma syscall_exc {A} (r : oserror + A) x :
  os.syscall r = Exc x → ∃ e, x = OSError e.
Proof. destruct r; intros [= <-]; eauto. Qed.

Lemma _open_file_exc fs p x : _open_file fs p = Exc x → ∃ e, x = OSError e.
Proof.
  unfold _open_file, os.open.
  destruct (os.has_O_NOATIME fs); [|apply syscall_exc].
  destruct (os.syscall (os.sys_open fs p true)) as [f|y] eqn:Hopen; [done|].
  apply syscall_exc in Hopen as [e ->].
  destruct e; try (intros [= <-]; eauto). apply syscall_exc.
Qed.

Lemma read_exc f x : os.read f = Exc x → ∃ e, x = OSError e.
Proof. unfold os.read. destruct (os.fault f) as [[k e]|]; intros [= <-]; eauto. Qed.

Lemma read_at_exc f pos n x : os.read_at f pos n = Exc x → ∃ e, x = OSError e.
Proof.
  unfold os.read_at. destruct (os.fault f) as [[k e]|]; [|done].
  case_match; intros [= <-]; eauto.
Qed.

Lemma FixedChunker_from_failure fuel cs f pos chunks x :
  chunker.FixedChunker_from fuel cs f pos = (chunks, Some x) → ∃ e, x = OSError e.
Proof.
  revert pos chunks. induction fuel as [|fuel IH]; intros pos chunks; simpl; [done|].
  destruct (os.read_at f pos cs) as [[|b chunk]|y] eqn:Hread; [done| |].
  - destruct (chunker.FixedChunker_from fuel cs f _) as [rest e] eqn:Hrest.
    intros [= <- ->]. by eapply IH.
  - intros [= <- <-]. by eapply read_at_exc.
Qed.

(** The object sent back for a payload carries the digest of the payload;
    the admission touches neither [fsentry] nor the snapshots, and fails
    only with an [OSError] (the upload) when the payload is not empty. *)
Lemma push_object_ok repo db payload obj relations db' sent :
  push_object repo db payload obj relations = Ok (db', sent) →
  objid sent = hash repo payload ∧ fsentry db' = fsentry db.
Proof.
  unfold push_object.
  destruct (list_find _ _) as [[n existing]|] eqn:Hfind.
  - intros [= <- <-]. by apply list_find_Some in Hfind as (_ & ? & _).
  - destruct (put repo _ _); [done|]. unfold load_payload.
    destruct payload as [|objtype rest]; [done|]. simpl.
    destruct (negb _); by intros [= <- <-].
Qed.

Lemma push_object_exc repo db payload obj relations x :
  payload ≠ [] →
  push_object repo db payload obj relations = Exc x → ∃ e, x = OSError e.
Proof.
  intros Hne. unfold push_object.
  destruct (list_find _ _) as [[n existing]|]; [done|].
  destruct (put repo _ _) as [e|]; [intros [= <-]; eauto|].
  unfold load_payload. destruct payload as [|objtype rest]; [done|]. simpl.
  by destruct (negb _).
Qed.

Lemma delete_and_return_contract w i e : exit_contract i (delete_and_return w i e).
Proof. apply contract_deleted. simpl. apply delete_cascade_self. Qed.

Lemma yield_and_save_contract w i e payload obj relations fmt :
  payload ≠ [] →
  exit_contract i (yield_and_save w i e (payload, obj, relations) fmt).
Proof.
  intros Hne. apply contract_yield; [done|]. intros sent w'. simpl.
  unfold save. destruct (storable _).
  - eapply contract_saved; simpl; [done|]. apply lookup_insert_eq.
  - by apply contract_raise.
Qed.

Lemma read_failed_contract x w i e :
  entry_exn x → exit_contract i (read_failed x w i e).
Proof.
  intros Hx. destruct x as [| | | | | | | | | |err| | | | |]; try done;
    try (by apply contract_raise).
  destruct err; apply delete_and_return_contract.
Qed.

Lemma fromtimestamp_exc fs st x :
  os.fromtimestamp fs st = Exc x → entry_exn x ∧ x ≠ DependencyError.
Proof.
  unfold os.fromtimestamp.
  destruct (os.sys_fromtimestamp fs st) as [[]|]; by intros [= <-].
Qed.

(** The constructor calls of [backup_iterator] with a keyword that is not a
    field of the class. *)
Lemma blob_object_raises : blob_object = Exc TypeError.
Proof. reflexivity. Qed.

Lemma tree_relation_raises c : tree_relation c = Exc TypeError.
Proof. reflexivity. Qed.

Lemma list_comp_tree_relation children :
  list_comp tree_relation children
  = match children with [] => Ok [] | _ => Exc TypeError end.
Proof. by destruct children. Qed.

Lemma blob_payload_ok chunk buf :
  blob_payload chunk = Ok buf → buf = [MStr "blob"; MBin chunk].
Proof.
  unfold blob_payload. intros H.
  apply res_bind_inv in H as (b0 & [-> _]%pack_ok & [-> _]%pack_ok). done.
Qed.

Lemma blob_payload_exc chunk x :
  blob_payload chunk = Exc x → x = UnsupportedTypeException.
Proof.
  unfold blob_payload. intros H.
  apply res_bind_exc_inv in H as [[-> _]%pack_exc|(b0 & _ & [-> _]%pack_exc)]; done.
Qed.

(** The first statements of the backup of a regular file: the conversion
    of the modification time and the packing of the tag and of the record
    [info]. *)
Lemma inode_header_ok fs st buf :
  (_ ← os.fromtimestamp fs st;
   inode_buf ← pack (MStr "inode") [];
   pack (inode_info st) inode_buf) = Ok buf →
  buf = [MStr "inode"; inode_info st]
  ∧ os.fromtimestamp fs st = Ok () ∧ packs (inode_info st) = true.
Proof.
  intros H. apply res_bind_inv in H as ([] & Htime & H).
  apply res_bind_inv in H as (b0 & [-> _]%pack_ok & [-> Hinfo]%pack_ok). done.
Qed.

Lemma inode_header_exc fs st x :
  (_ ← os.fromtimestamp fs st;
   inode_buf ← pack (MStr "inode") [];
   pack (inode_info st) inode_buf) = Exc x →
  entry_exn x ∧ x ≠ DependencyError.
Proof.
  intros H. apply res_bind_exc_inv in H as [H|([] & _ & H)];
    [by eapply fromtimestamp_exc|].
  apply res_bind_exc_inv in H as [[-> _]%pack_exc|(b0 & _ & [-> _]%pack_exc)]; done.
Qed.

(** The statements of the backup of a directory between the check of the
    children and the [yield]. *)
Lemma tree_header_ok fs st children buf relations :
  (_ ← os.fromtimestamp fs st;
   relations ← list_comp tree_relation children;
   buf ← pack (MStr "tree") [];
   buf ← pack (tree_info st) buf;
   buf ← pack (MList (tree_entry <$> children)) buf;
   Ok (buf, relations)) = Ok (buf, relations) →
  children = [] ∧ relations = []
  ∧ buf = [MStr "tree"; tree_info st; MList []].
Proof.
  intros H. apply res_bind_inv in H as ([] & Htime & H).
  apply res_bind_inv in H as (rels & Hrels & H).
  rewrite list_comp_tree_relation in Hrels. destruct children; [|done].
  apply res_bind_inv in H as (b0 & [-> _]%pack_ok & H).
  apply res_bind_inv in H as (b1 & [-> _]%pack_ok & H).
  apply res_bind_inv in H as (b2 & [-> _]%pack_ok & H).
  by simplify_eq/=.
Qed.

Lemma tree_header_exc fs st children x :
  (_ ← os.fromtimestamp fs st;
   relations ← list_comp tree_relation children;
   buf ← pack (MStr "tree") [];
   buf ← pack (tree_info st) buf;
   buf ← pack (MList (tree_entry <$> children)) buf;
   Ok (buf, relations)) = Exc x →
  entry_exn x ∧ x ≠ DependencyError.
Proof.
  intros H. apply res_bind_exc_inv in H as [H|([] & _ & H)];
    [by eapply fromtimestamp_exc|].
  apply res_bind_exc_inv in H as [H|(rels & _ & H)].
  { rewrite list_comp_tree_relation in H. destruct children; by simplify_eq. }
  apply res_bind_exc_inv in H as [[-> _]%pack_exc|(b0 & _ & H)]; [done|].
  apply res_bind_exc_inv in H as [[-> _]%pack_exc|(b1 & _ & H)]; [done|].
  apply res_bind_exc_inv in H as [[-> _]%pack_exc|(b2 & _ & H)]; done.
Qed.

(** The loop over the chunks never reaches its [yield]: the first chunk
    raises. *)
Lemma chunk_loop_cons pos chunk rest failure inode_buf obj chunk_list relations w i e :
  ∃ x,
    chunk_loop ((pos, chunk) :: rest) failure inode_buf obj chunk_list relations w i e
    = GRaise x w e (Some i)
    ∧ (if packs (MBin chunk) then x = TypeError else x = UnsupportedTypeException).
Proof.
  cbn [chunk_loop]. destruct (blob_payload chunk) as [buf|x] eqn:Hblob.
  - rewrite res_bind_ok, blob_object_raises, res_bind_exc.
    exists TypeError. split; [done|].
    unfold blob_payload in Hblob.
    apply res_bind_inv in Hblob as (b0 & _ & [_ ->]%pack_ok). done.
  - rewrite res_bind_exc. unfold blob_payload in Hblob.
    apply res_bind_exc_inv in Hblob as [[_ [=]]%pack_exc|(b0 & _ & [-> ->]%pack_exc)].
    by exists UnsupportedTypeException.
Qed.

Create HintDb contract discriminated.
#[local] Hint Resolve delete_and_return_contract yield_and_save_contract
  read_failed_contract : contract.
#[local] Hint Constructors exit_contract : contract.

Lemma oserror_entry_exn x : (∃ e, x = OSError e) → entry_exn x.
Proof. by intros [e ->]. Qed.

Lemma chunk_loop_contract chunks failure inode_buf obj chunk_list relations w i e :
  (∀ x, failure = Some x → ∃ err, x = OSError err) →
  exit_contract i (chunk_loop chunks failure inode_buf obj chunk_list relations w i e).
Proof.
  intros Hfail. destruct chunks as [|[pos chunk] rest].
  - simpl. destruct failure as [x|].
    + apply read_failed_contract, oserror_entry_exn. by apply Hfail.
    + destruct (pack _ inode_buf) as [buf|x] eqn:Hpack.
      * apply pack_ok in Hpack as [-> _].
        apply yield_and_save_contract. by destruct inode_buf.
      * apply pack_exc in Hpack as [-> _]. by apply read_failed_contract.
  - destruct (chunk_loop_cons pos chunk rest failure inode_buf obj chunk_list
                relations w i e) as (x & -> & Hx).
    apply contract_raise. by destruct (packs (MBin chunk)); subst x.
Qed.

(** Every exit of [backup_iterator] deletes the entry, gives it an object or
    raises one of the errors of [entry_exn]. *)
Lemma backup_iterator_contract fs cs w i e threshold :
  exit_contract i (backup_iterator fs cs w i e threshold).
Proof.
  unfold backup_iterator.
  destruct (os.lstat fs (path e)) as [st|x] eqn:Hstat.
  2:{ apply syscall_exc in Hstat as [err ->].
      destruct err; try apply delete_and_return_contract; by apply contract_raise. }
  destruct (stat.S_ISREG (os.st_mode st)).
  - cbv zeta.
    match goal with |- exit_contract _ (match ?r with _ => _ end) =>
      destruct r as [inode_buf|x] eqn:Hbuf end.
    2:{ apply contract_raise. by apply inode_header_exc in Hbuf as [? _]. }
    apply inode_header_ok in Hbuf as (-> & _ & _).
    destruct (_open_file fs (path _)) as [fobj|x] eqn:Hopen.
    2:{ apply read_failed_contract, oserror_entry_exn. by eapply _open_file_exc. }
    destruct (os.st_size st <? threshold).
    + destruct (os.read fobj) as [data|x] eqn:Hread.
      * rewrite res_bind_ok.
        destruct (pack _ _) as [buf|x] eqn:Hpack.
        -- apply pack_ok in Hpack as [-> _]. by apply yield_and_save_contract.
        -- apply pack_exc in Hpack as [-> _]. by apply read_failed_contract.
      * rewrite res_bind_exc.
        apply read_failed_contract, oserror_entry_exn. by eapply read_exc.
    + destruct (chunker.FixedChunker cs fobj) as [chunks failure] eqn:Hchunks.
      apply chunk_loop_contract. intros x ->.
      by eapply FixedChunker_from_failure.
  - destruct (stat.S_ISDIR (os.st_mode st)); [|by auto with contract].
    cbv zeta. case_bool_decide; [by apply contract_raise|].
    match goal with |- exit_contract _ (match ?r with _ => _ end) =>
      destruct r as [[buf relations]|x] eqn:Hbuf end.
    + apply tree_header_ok in Hbuf as (_ & _ & ->). by apply yield_and_save_contract.
    + apply contract_raise. by apply tree_header_exc in Hbuf as [? _].
Qed.

Lemma drive_contract repo i g pushed :
  exit_contract i g →
  er_outcome (drive repo g pushed) ≠ Raised AssertionError
  ∧ (er_outcome (drive repo g pushed) = Finished →
       (er_id (drive repo g pushed) = None
        ∧ fsentry (db_of (er_world (drive repo g pushed))) !! i = None)
       ∨ (er_id (drive repo g pushed) = Some i
          ∧ is_Some (obj_id (er_entry (drive repo g pushed)))
          ∧ fsentry (db_of (er_world (drive repo g pushed))) !! i
            = Some (er_entry (drive repo g pushed)))).
Proof.
  intros Hc. revert pushed.
  induction Hc as [w e Hrow|w e o Hobj Hrow|x w e id Hx
                   |w e id payload obj relations k Hne Hk IH]; intros pushed; simpl.
  - split; [done|]. intros _. by left.
  - split; [done|]. intros _. right. by rewrite Hobj.
  - by destruct x.
  - destruct (push_object repo (db_of w) payload obj relations) as [[db sent]|x] eqn:Hpush.
    + apply IH.
    + apply push_object_exc in Hpush as [err ->]; done.
Qed.

(** C2 — the exit contract of [backup_entry]. The final assertion never
    fires, and whenever [backup_entry] returns, the entry has been deleted
    (the instance has no primary key and row [i] is gone) or its [obj] is
    set and saved in its row. This covers the vanished entry, the regular
    file (inlined, chunked, or deleted after a failed read), the directory
    and the other file types. *)
Theorem backup_entry_exit_contract repo fs w i entry :
  er_outcome (backup_entry repo fs w i entry) ≠ Raised AssertionError
  ∧ (er_outcome (backup_entry repo fs w i entry) = Finished →
       (er_id (backup_entry repo fs w i entry) = None
        ∧ fsentry (db_of (er_world (backup_entry repo fs w i entry))) !! i = None)
       ∨ (er_id (backup_entry repo fs w i entry) = Some i
          ∧ is_Some (obj_id (er_entry (backup_entry repo fs w i entry)))
          ∧ fsentry (db_of (er_world (backup_entry repo fs w i entry))) !! i
            = Some (er_entry (backup_entry repo fs w i entry)))).
Proof.
  unfold backup_entry.
  destruct (drive_contract repo i
              (backup_iterator fs (chunk_size repo) w i entry (backup_inline_threshold repo))
              [] (backup_iterator_contract _ _ _ _ _ _)) as [Hassert Hexit].
  destruct (er_outcome (drive repo _ [])) eqn:Hout; [|by rewrite Hout..].
  destruct (Hexit eq_refl) as [[Hid Hrow]|(Hid & Hobj & Hrow)].
  - rewrite bool_decide_eq_true_2 by (by right). rewrite Hout. split; [done|]. by left.
  - rewrite bool_decide_eq_true_2.
    + rewrite Hout. split; [done|]. by right.
    + left. destruct Hobj as [o ->]. done.
Qed.

(** The exits of [backup_entry] on the sample trees: the inlined file is
    saved with an object; the vanished entry, the symbolic link and the file
    that cannot be opened are deleted; the chunked file, the file whose
    reading fails after one chunk and the directory whose child is backed
    up raise [TypeError] with nothing pushed; a directory with a dirty child
    raises [DependencyError]. *)
Example backup_entry_exits :
  (let r := backup_entry (sample_repo 10) fs_backup backup_world 2 dirty_a in
   (er_outcome r, er_id r, length (er_pushed r))) = (Finished, Some 2%nat, 1%nat)
  ∧ (let r := backup_entry (sample_repo 2) fs_backup backup_world 2 dirty_a in
     (er_outcome r, er_id r, length (er_pushed r)))
    = (Raised TypeError, Some 2%nat, 0%nat)
  ∧ (let r := backup_entry (sample_repo 2) fs_backup
                {| db_of := scan_db; log_of := [] |} 1 row_r in
     (er_outcome r, er_id r, length (er_pushed r)))
    = (Raised TypeError, Some 1%nat, 0%nat)
  ∧ (let r := backup_entry (sample_repo 2) fs_hostile backup_world 2 (dirty_at "/r/gone") in
     (er_outcome r, er_id r, length (er_pushed r))) = (Finished, None, 0%nat)
  ∧ (let r := backup_entry (sample_repo 2) fs_hostile backup_world 2 (dirty_at "/r/l") in
     (er_outcome r, er_id r, length (er_pushed r))) = (Finished, None, 0%nat)
  ∧ (let r := backup_entry (sample_repo 2) fs_hostile backup_world 2 (dirty_at "/r/secret") in
     (er_outcome r, er_id r, length (er_pushed r))) = (Finished, None, 0%nat)
  ∧ (let r := backup_entry (sample_repo 2) fs_hostile backup_world 2 (dirty_at "/r/b") in
     (er_outcome r, er_id r, length (er_pushed r)))
    = (Raised TypeError, Some 2%nat, 0%nat)
  ∧ (let r := backup_entry (sample_repo 2) fs_backup backup_world 1 dirty_r in
     (er_outcome r, er_id r, length (er_pushed r)))
    = (Raised DependencyError, Some 1%nat, 0%nat).
Proof. split_and!; vm_compute; reflexivity. Qed.

(** *** The inline threshold *)

(** The driver on an iterator that raises at once. *)
Lemma drive_raise repo x w e id pushed :
  x ≠ StopIteration →
  drive repo (GRaise x w e id) pushed
  = {| er_world := w; er_entry := e; er_id := id; er_pushed := pushed;
       er_outcome := Raised x |}.
Proof. by destruct x. Qed.

(** The driver on the last [yield] of an entry: when it returns, the
    payload was pushed, and nothing else. *)
Lemma drive_yield_and_save_pushed repo w i e y fmt pushed :
  y.1.1 ≠ [] →
  er_outcome (drive repo (yield_and_save w i e y fmt) pushed) = Finished →
  er_pushed (drive repo (yield_and_save w i e y fmt) pushed) = pushed ++ [y].
Proof.
  destruct y as [[payload obj] relations]. intros Hne. unfold yield_and_save. simpl.
  destruct (push_object repo _ _ _ _) as [[db sent]|x] eqn:Hpush.
  - unfold save. by destruct (storable _).
  - apply push_object_exc in Hpush as [err ->]; done.
Qed.

(** C7 — the inline threshold. For a regular file that [backup_iterator]
    backs up (the driver returns and the entry is kept), the file was
    opened and: if its stat size is strictly below [inline_threshold], the
    only payload is the inode with [("immediate", bytes)], where [bytes] is
    what was read; otherwise the chunker delivered no chunk at all and the
    only payload is the inode with an empty chunk list. The other half of
    the rule fails: when the size is at or above the threshold and the
    chunker delivers a chunk, [models.Object(type="blob")] raises
    [TypeError] before the first [yield] (the class has no field [type]);
    the handler [except OSError] does not catch it, nothing is pushed and
    the database is as it was. *)
Theorem inline_threshold_rule repo fs w i entry st threshold :
  os.lstat fs (path entry) = Ok st →
  stat.S_ISREG (os.st_mode st) = true →
  (er_outcome (drive repo (backup_iterator fs (chunk_size repo) w i entry threshold) [])
     = Finished →
   er_id (drive repo (backup_iterator fs (chunk_size repo) w i entry threshold) [])
     = Some i →
   ∃ fobj, _open_file fs (path entry) = Ok fobj ∧
     if os.st_size st <? threshold then
       ∃ data, os.read fobj = Ok data
         ∧ er_pushed
             (drive repo (backup_iterator fs (chunk_size repo) w i entry threshold) [])
           = [([MStr "inode"; inode_info st; MList [MStr "immediate"; MBin data]],
               inode_object st, [])]
     else
       chunker.FixedChunker (chunk_size repo) fobj = ([], None)
       ∧ er_pushed
           (drive repo (backup_iterator fs (chunk_size repo) w i entry threshold) [])
         = [([MStr "inode"; inode_info st; MList [MStr "chunklist"; MList []]],
             inode_object st, [])])
  ∧ (∀ fobj pos chunk rest failure,
       (os.st_size st <? threshold) = false →
       os.fromtimestamp fs st = Ok () →
       packs (inode_info st) = true →
       _open_file fs (path entry) = Ok fobj →
       chunker.FixedChunker (chunk_size repo) fobj = ((pos, chunk) :: rest, failure) →
       packs (MBin chunk) = true →
       drive repo (backup_iterator fs (chunk_size repo) w i entry threshold) []
       = {| er_world := w; er_entry := update_stat_info entry st; er_id := Some i;
            er_pushed := []; er_outcome := Raised TypeError |}).
Proof.
  intros Hstat Hreg. unfold backup_iterator. rewrite Hstat, Hreg. cbv zeta.
  change (path (update_stat_info entry st)) with (path entry).
  split.
  - match goal with |- context [match ?r with Ok _ => _ | Exc _ => _ end] =>
      destruct r as [inode_buf|x] eqn:Hbuf end.
    2:{ apply inode_header_exc in Hbuf as [Hx _].
        rewrite drive_raise by (by destruct x). done. }
    apply inode_header_ok in Hbuf as (-> & _ & _).
    destruct (_open_file fs (path entry)) as [fobj|x] eqn:Hopen.
    2:{ apply _open_file_exc in Hopen as [[] ->]; simpl; done. }
    intros Hout Hid. exists fobj. split; [done|].
    destruct (os.st_size st <? threshold).
    + destruct (os.read fobj) as [data|x] eqn:Hread.
      2:{ apply read_exc in Hread as [[] ->]; simpl in *; done. }
      exists data. split; [done|]. rewrite res_bind_ok in Hout |- *.
      destruct (pack _ _) as [buf|x] eqn:Hpack.
      * apply pack_ok in Hpack as [-> _].
        by apply drive_yield_and_save_pushed in Hout.
      * apply pack_exc in Hpack as [-> _]. done.
    + destruct (chunker.FixedChunker (chunk_size repo) fobj)
        as [[|[pos chunk] rest] failure] eqn:Hchunks.
      * cbn [chunk_loop] in *. destruct failure as [x|].
        { apply FixedChunker_from_failure in Hchunks as [[] ->]; simpl in *; done. }
        split; [done|].
        destruct (pack _ _) as [buf|x] eqn:Hpack.
        -- apply pack_ok in Hpack as [-> _].
           by apply drive_yield_and_save_pushed in Hout.
        -- apply pack_exc in Hpack as [-> _]. done.
      * destruct (chunk_loop_cons pos chunk rest failure
                    [MStr "inode"; inode_info st] (inode_object st) [] [] w i
                    (update_stat_info entry st)) as (x & Hloop & Hx).
        unfold inode_object in Hloop. rewrite Hloop in Hout.
        rewrite drive_raise in Hout by (by destruct (packs (MBin chunk)); subst x).
        done.
  - intros fobj pos chunk rest failure Hsize Htime Hinfo Hopen Hchunks Hchunk.
    rewrite Htime, res_bind_ok, (pack_packs (MStr "inode")), res_bind_ok by done.
    rewrite (pack_packs _ _ Hinfo), Hopen, Hsize, Hchunks.
    destruct (chunk_loop_cons pos chunk rest failure
                (([] ++ [MStr "inode"]) ++ [inode_info st]) (inode_object st) [] [] w i
                (update_stat_info entry st)) as (x & Hloop & Hx).
    rewrite Hchunk in Hx. subst x.
    unfold inode_object in Hloop. by rewrite Hloop.
Qed.

Lemma inline_threshold_rule_witness :
  er_pushed (drive (sample_repo 10)
    (backup_iterator fs_backup 2 backup_world 2 dirty_a 10) [])
  = [([MStr "inode"; inode_info (stat_of mode_reg 50 3);
       MList [MStr "immediate"; MBin [Byte.x61; Byte.x62; Byte.x63]]],
      inode_object (stat_of mode_reg 50 3), [])]
  ∧ drive (sample_repo 2) (backup_iterator fs_backup 2 backup_world 2 dirty_a 2) []
    = {| er_world := backup_world;
         er_entry := update_stat_info dirty_a (stat_of mode_reg 50 3);
         er_id := Some 2%nat; er_pushed := []; er_outcome := Raised TypeError |}.
Proof.
  split.
  - destruct (inline_threshold_rule (sample_repo 10) fs_backup backup_world 2 dirty_a
                (stat_of mode_reg 50 3) 10 eq_refl eq_refl) as [Hinline _].
    destruct (Hinline eq_refl eq_refl) as (fobj & Hopen & data & Hread & Hpushed).
    injection Hopen as <-. injection Hread as <-. exact Hpushed.
  - destruct (inline_threshold_rule (sample_repo 2) fs_backup backup_world 2 dirty_a
                (stat_of mode_reg 50 3) 2 eq_refl eq_refl) as [_ Hchunked].
    apply (Hchunked file_a 0 [Byte.x61; Byte.x62] [(2, [Byte.x63])] None);
      reflexivity.
Defined.

(** A file below the threshold is inlined: the sample file, with a
    threshold of ten bytes and with the default threshold. With a threshold
    of two bytes its backup raises [TypeError] and the entry stays without
    an object. *)
Example inline_sample :
  er_pushed (backup_entry (sample_repo 10) fs_backup backup_world 2 dirty_a)
  = [([MStr "inode"; inode_info (stat_of mode_reg 50 3);
       MList [MStr "immediate"; MBin [Byte.x61; Byte.x62; Byte.x63]]],
      inode_object (stat_of mode_reg 50 3), [])]
  ∧ er_pushed (drive (sample_repo 10)
      (backup_iterator fs_backup 2 backup_world 2 dirty_a default_inline_threshold) [])
    = er_pushed (backup_entry (sample_repo 10) fs_backup backup_world 2 dirty_a)
  ∧ default_inline_threshold = 2097152
  ∧ er_outcome (backup_entry (sample_repo 2) fs_backup backup_world 2 dirty_a)
    = Raised TypeError
  ∧ obj_id <$> fsentry (db_of (er_world
      (backup_entry (sample_repo 2) fs_backup backup_world 2 dirty_a))) !! 2%nat
    = Some None.
Proof. split_and!; vm_compute; reflexivity. Qed.

(** *** The precondition of [backup] *)

(** Closes [raises_backup_error (Raised x)] for an [x] that is one of the
    errors of a backup. *)
Ltac backup_err := intros ? [= <-]; first [by left | by right].

Lemma drive_raises repo i g pushed :
  exit_contract i g → raises_backup_error (er_outcome (drive repo g pushed)).
Proof.
  intros Hc. revert pushed.
  induction Hc as [w e Hrow|w e o Hobj Hrow|x w e id Hx
                   |w e id payload obj relations k Hne Hk IH]; intros pushed y; simpl;
    try done.
  - destruct x; try done; simpl; intros [= <-]; by left.
  - destruct (push_object repo (db_of w) payload obj relations) as [[db sent]|x] eqn:Hpush.
    + apply IH.
    + apply push_object_exc in Hpush as [err ->]; [|done].
      simpl. intros [= <-]. by left.
Qed.

Lemma backup_entry_raises repo fs w i entry :
  raises_backup_error (er_outcome (backup_entry repo fs w i entry)).
Proof.
  unfold backup_entry.
  pose proof (drive_raises repo i
    (backup_iterator fs (chunk_size repo) w i entry (backup_inline_threshold repo)) []
    (backup_iterator_contract _ _ _ _ _ _)) as Hdrive.
  destruct (er_outcome (drive repo _ [])) eqn:Hout; [|by rewrite Hout..].
  case_bool_decide; [by rewrite Hout|]. simpl.
  backup_err.
Qed.

Lemma backup_ready_raises repo fs ready w :
  raises_backup_error (backup_ready repo fs ready w).2.
Proof.
  revert w. induction ready as [|[i entry] rest IH]; intros w; simpl; [done|].
  case_bool_decide.
  - pose proof (backup_entry_raises repo fs w i entry) as Hentry.
    destruct (er_outcome (backup_entry repo fs w i entry)); [apply IH|done..].
  - backup_err.
Qed.

Lemma backup_loop_raises fuel repo fs w :
  raises_backup_error (backup_loop fuel repo fs w).2.
Proof.
  revert w. induction fuel as [|fuel IH]; intros w.
  - simpl. by destruct (to_backup (db_of w)).
  - cbn [backup_loop]. destruct (to_backup (db_of w)); [done|].
    destruct (ready_to_backup (db_of w)) as [|r ready] eqn:Hready.
    { backup_err. }
    pose proof (backup_ready_raises repo fs (r :: ready) w) as Hpass.
    destruct (backup_ready repo fs (r :: ready) w) as [w' []]; [apply IH|done..].
Qed.

Lemma snapshot_roots_raises repo now roots w :
  raises_backup_error (snapshot_roots repo now roots w).2.
Proof.
  revert w. induction roots as [|[i root] rest IH]; intros w; simpl; [done|].
  destruct (obj_id root).
  - destruct (put_snapshot repo _); [|apply IH].
    backup_err.
  - backup_err.
Qed.

Lemma backup_run_raises fuel repo fs now w :
  raises_backup_error (backup_run fuel repo fs now w).2.
Proof.
  unfold backup_run.
  pose proof (backup_loop_raises fuel repo fs w) as Hloop.
  destruct (backup_loop fuel repo fs w) as [w' []]; [|done..].
  apply snapshot_roots_raises.
Qed.

Lemma scan_pending_Exists db :
  scan_pending db ↔ Exists (λ kv, new kv.2 = true) (map_to_list (fsentry db)).
Proof.
  rewrite Exists_exists. split.
  - intros (i & row & Hrow & Hnew). exists (i, row).
    split; [by apply elem_of_map_to_list | done].
  - intros ([i row] & Hin & Hnew). exists i, row.
    split; [by apply elem_of_map_to_list | done].
Qed.

(** C6 — the precondition of [backup]. If some entry has [new = true],
    [backup] raises [RuntimeError("You need to run a scan first")] at once:
    the world is returned as it was (no entry backed up, no snapshot).
    Otherwise the check does not fire: [backup] is the backup proper, and
    this error is never raised. *)
Theorem backup_requires_scan fuel repo fs now w :
  (scan_pending (db_of w) → backup fuel repo fs now w = (w, Raised scan_first))
  ∧ (¬ scan_pending (db_of w) →
       backup fuel repo fs now w = backup_run fuel repo fs now w
       ∧ (backup fuel repo fs now w).2 ≠ Raised scan_first).
Proof.
  unfold backup. split.
  - intros Hp%scan_pending_Exists. by rewrite bool_decide_eq_true_2.
  - intros Hp. rewrite bool_decide_eq_false_2 by (by rewrite <-scan_pending_Exists).
    split; [done|]. intros Hraised.
    by destruct (backup_run_raises fuel repo fs now w _ Hraised).
Qed.

Lemma backup_requires_scan_witness :
  backup 5 (sample_repo 2) fs_backup 0 unscanned_world = (unscanned_world, Raised scan_first)
  ∧ backup 5 (sample_repo 2) fs_backup 0 backup_world
    = backup_run 5 (sample_repo 2) fs_backup 0 backup_world.
Proof.
  split.
  - apply (backup_requires_scan 5 (sample_repo 2) fs_backup 0 unscanned_world).
    exists 1%nat, (set_new true dirty_r). split; reflexivity.
  - apply (backup_requires_scan 5 (sample_repo 2) fs_backup 0 backup_world).
    intros (i & row & Hrow & Hnew). simpl in Hrow.
    apply lookup_insert_Some in Hrow as [[<- <-]|[_ Hrow]]; [done|].
    apply lookup_singleton_Some in Hrow as [<- <-]. done.
Defined.

(** On the sample tree the backup proper raises [TypeError]: with a
    threshold of two bytes at the first chunk of the file, with a threshold
    of ten bytes at the directory, once the inode of its file is admitted.
    No snapshot is created. *)
Example backup_sample :
  (backup 5 (sample_repo 2) fs_backup 0 backup_world).2 = Raised TypeError
  ∧ length (objects (db_of (backup 5 (sample_repo 2) fs_backup 0 backup_world).1)) = 0%nat
  ∧ (backup 5 (sample_repo 10) fs_backup 0 backup_world).2 = Raised TypeError
  ∧ length (objects (db_of (backup 5 (sample_repo 10) fs_backup 0 backup_world).1)) = 1%nat
  ∧ length (snapshots (db_of (backup 5 (sample_repo 10) fs_backup 0 backup_world).1)) = 0%nat.
Proof. split_and!; vm_compute; reflexivity. Qed.

(** ** The children reader *)

Lemma list_comp_getitem1_pairs {A} (f g : A → msg) (l : list A) :
  list_comp getitem1 ((λ c, MList [f c; g c]) <$> l) = Ok (g <$> l).
Proof. induction l as [|c l IH]; csimpl; [done|]. by rewrite IH. Qed.

(** On a tree payload the reader returns the object ids of the entries, in
    order. *)
Lemma calculate_children_tree o info (entries : list (bytes * bytes)) :
  calculate_children
    {| objid := o;
       payload := Some [MStr "tree"; info;
                        MList ((λ e, MList [MBin e.1; MBin e.2]) <$> entries)] |}
  = Ok ((λ e, MBin e.2) <$> entries).
Proof. unfold calculate_children. simpl. apply list_comp_getitem1_pairs. Qed.

(** On an inode payload with a chunk list it returns the object ids of the
    chunks, in order. *)
Lemma calculate_children_chunklist o info (chunks : list (Z * bytes)) :
  calculate_children
    {| objid := o;
       payload := Some [MStr "inode"; info;
                        MList [MStr "chunklist";
                               MList ((λ c, MList [MInt c.1; MBin c.2]) <$> chunks)]] |}
  = Ok ((λ c, MBin c.2) <$> chunks).
Proof. unfold calculate_children. simpl. apply list_comp_getitem1_pairs. Qed.

(** On an inode payload whose immediate contents are empty it returns the
    empty sequence. *)
Lemma calculate_children_immediate_empty o info :
  calculate_children
    {| objid := o;
       payload := Some [MStr "inode"; info; MList [MStr "immediate"; MBin []]] |}
  = Ok [].
Proof. reflexivity. Qed.

(** On an inode payload whose immediate contents are not empty the reader
    iterates over the bytes of the contents and raises [TypeError] when it
    indexes the first of them. *)
Lemma calculate_children_immediate o info b data :
  calculate_children
    {| objid := o;
       payload := Some [MStr "inode"; info; MList [MStr "immediate"; MBin (b :: data)]] |}
  = Exc TypeError.
Proof. reflexivity. Qed.

(** C4 — the children reader on an inlined file. For a regular file below
    the inline threshold whose contents are not empty, the backup pushes one
    inode payload, the object admitted for it keeps that payload, and
    [calculate_children] on that object does not return the empty sequence
    of children: it raises [TypeError]. *)
Theorem calculate_children_inlined_raises repo fs w i entry st threshold fobj b data :
  os.lstat fs (path entry) = Ok st →
  stat.S_ISREG (os.st_mode st) = true →
  (os.st_size st <? threshold) = true →
  _open_file fs (path entry) = Ok fobj →
  os.read fobj = Ok (b :: data) →
  er_outcome (drive repo (backup_iterator fs (chunk_size repo) w i entry threshold) [])
    = Finished →
  ∃ payload obj,
    er_pushed (drive repo (backup_iterator fs (chunk_size repo) w i entry threshold) [])
      = [(payload, inode_object st, [])]
    ∧ load_payload {| objid := hash repo payload; payload := None |} payload = Ok obj
    ∧ calculate_children obj = Exc TypeError.
Proof.
  intros Hstat Hreg Hsmall Hopen Hread. unfold backup_iterator.
  rewrite Hstat, Hreg. cbv zeta.
  change (path (update_stat_info entry st)) with (path entry).
  match goal with |- context [match ?r with Ok _ => _ | Exc _ => _ end] =>
    destruct r as [inode_buf|x] eqn:Hbuf end.
  2:{ apply inode_header_exc in Hbuf as [Hx _].
      rewrite drive_raise by (by destruct x). done. }
  apply inode_header_ok in Hbuf as (-> & _ & _).
  rewrite Hopen, Hsmall, Hread, res_bind_ok.
  destruct (pack _ _) as [buf|x] eqn:Hpack.
  2:{ apply pack_exc in Hpack as [-> _]. done. }
  apply pack_ok in Hpack as [-> _].
  intros Hout. apply drive_yield_and_save_pushed in Hout as Hpushed; [|done].
  eexists _, _. split_and!; [exact Hpushed | done |].
  apply calculate_children_immediate.
Qed.

Lemma calculate_children_inlined_raises_witness :
  ∃ payload obj,
    er_pushed (drive (sample_repo 10)
                 (backup_iterator fs_backup 2 backup_world 2 dirty_a 10) [])
      = [(payload, inode_object (stat_of mode_reg 50 3), [])]
    ∧ load_payload {| objid := hash (sample_repo 10) payload; payload := None |} payload
      = Ok obj
    ∧ calculate_children obj = Exc TypeError.
Proof.
  apply (calculate_children_inlined_raises (sample_repo 10) fs_backup backup_world 2
           dirty_a (stat_of mode_reg 50 3) 10 file_a Byte.x61 [Byte.x62; Byte.x63]);
    reflexivity.
Defined.

(** The payload of the sample file, inlined by the backup, is stored in its
    row of [objects], and the reader fails on that row. *)
Example calculate_children_inline_sample :
  calculate_children <$>
    objects (db_of (er_world (backup_entry (sample_repo 10) fs_backup backup_world 2 dirty_a)))
  = [Exc TypeError].
Proof. vm_compute. reflexivity. Qed.

(** The same file above the threshold: its backup stores no object for the
    reader to read. *)
Example calculate_children_chunked_sample :
  objects (db_of (er_world (backup_entry (sample_repo 2) fs_backup backup_world 2 dirty_a)))
  = [].
Proof. vm_compute. reflexivity. Qed.

(** ** Deleting the root of a snapshot *)

Lemma Object_delete_ok db o db' :
  Object_delete db o = Ok db' →
  snapshots db' = snapshots db
  ∧ objects db' = filter (λ x, objid x ≠ o) (objects db)
  ∧ ∀ s, s ∈ snapshots db → root_id s ≠ o.
Proof.
  unfold Object_delete. simpl.
  destruct (filter _ (snapshots db)) as [|s0 l] eqn:Hroots; simpl; [|done].
  intros [= <-]. simpl. split_and!; [done..|].
  intros s Hs Hroot.
  assert (s ∈ filter (λ s, bool_decide (root_id s = o) = true) (snapshots db)) as Hin.
  { apply list_elem_of_filter. split; [|done]. by apply bool_decide_eq_true_2. }
  rewrite Hroots in Hin. by apply elem_of_nil in Hin.
Qed.

(** C10 — protected roots. Deleting the [Object] that is the root of an
    existing [Snapshot] is refused with [ProtectedError]: the foreign key
    [Snapshot.root] is declared [PROTECT]. Hence a deletion that succeeds
    leaves the snapshots as they are and the row of every root in
    [objects]. *)
Theorem snapshot_root_protected db :
  (∀ s, s ∈ snapshots db → Object_delete db (root_id s) = Exc ProtectedError)
  ∧ (∀ o db', Object_delete db o = Ok db' →
       snapshots db' = snapshots db
       ∧ ∀ s x, s ∈ snapshots db → x ∈ objects db → objid x = root_id s →
           x ∈ objects db').
Proof.
  split.
  - intros s Hs.
    destruct (Object_delete db (root_id s)) as [db'|x] eqn:Hdel.
    + apply Object_delete_ok in Hdel as (_ & _ & Hroots). by destruct (Hroots s Hs).
    + revert Hdel. unfold Object_delete. simpl.
      destruct (filter _ (snapshots db)); simpl; [done|]. by intros [= <-].
  - intros o db' (Hsnap & Hobjs & Hroots)%Object_delete_ok. split; [done|].
    intros s x Hs Hx Hid. rewrite Hobjs. apply list_elem_of_filter. split; [|done].
    rewrite Hid. by apply Hroots.
Qed.

Lemma snapshot_root_protected_witness :
  Object_delete gc_db id1 = Exc ProtectedError.
Proof.
  destruct (snapshot_root_protected gc_db) as [Hprotected _].
  apply (Hprotected {| snapshot_path := "/r"; root_id := id1; date := 0 |}).
  apply list_elem_of_In. simpl. auto.
Defined.

(** An object that is not the root of a snapshot can be deleted: its
    relations go with it. *)
Example Object_delete_sample :
  match Object_delete gc_db id2 with
  | Ok db => objects db = [obj1; obj3] ∧ object_relations db = []
  | Exc _ => False
  end.
Proof. vm_compute. split; reflexivity. Qed.


(** * Further properties *)

(** ** The scan of one entry *)

(** X1 — the guard of the scan loop. When [FSEntry.scan] returns, the
    instance was deleted or its [new] flag is off; so the assertion that ends
    the loop of [scan.py] over the new entries never fires: the loop with the
    assertion and the loop without it are the same. *)
Theorem scan_clears_new fuel fs :
  (∀ db i self,
     sr_outcome (scan fuel fs db i self) = Finished →
     sr_id (scan fuel fs db i self) = None ∨ new (sr_self (scan fuel fs db i self)) = false)
  ∧ (∀ entries db0 db log,
       Scan.scan_entries fuel fs true entries db0 db log
       = Scan.scan_entries fuel fs false entries db0 db log).
Proof.
  assert (∀ db i self,
     sr_outcome (scan fuel fs db i self) = Finished →
     sr_id (scan fuel fs db i self) = None ∨ new (sr_self (scan fuel fs db i self)) = false)
    as Hguard.
  { intros db i self. unfold scan.
    destruct (os.lstat fs (path self)) as [st|x].
    2:{ destruct x as [| | | | | | | | | |[]| | | | |]; simpl; auto; done. }
    destruct (st_mode self) as [mode|];
      [destruct (stat.S_ISDIR mode && negb (stat.S_ISDIR (os.st_mode st)))|];
      simpl;
      (destruct (negb (new self) && compare_stat_info self st) eqn:Hearly;
       [ simpl; intros _; right; apply andb_prop in Hearly as [Hnew _];
         by apply negb_true_iff
       | destruct (if stat.S_ISDIR (os.st_mode st) then _ else _) as [log2 [db2|x]];
         [|done];
         destruct (save _ _ _); [|done];
         destruct (invalidate _ _ _); simpl; [|done]; by right ]). }
  split; [done|].
  induction entries as [|[i entry] rest IH]; intros db0 db log; simpl; [done|].
  destruct (sr_outcome (scan fuel fs db i entry)) eqn:Hout; [|done..].
  destruct (Hguard db i entry Hout) as [-> | ->]; simpl.
  - rewrite orb_true_r. simpl. apply IH.
  - simpl. apply IH.
Qed.

Lemma scan_clears_new_witness :
  sr_id (scan 6 fs_touched scan_db 2 row_a) = None
  ∨ new (sr_self (scan 6 fs_touched scan_db 2 row_a)) = false.
Proof.
  destruct (scan_clears_new 6 fs_touched) as [Hguard _].
  apply (Hguard scan_db 2%nat row_a). reflexivity.
Defined.

(** After a scan that returned for an entry that still exists, the instance
    shows the entry as the filesystem has it. *)
Lemma scan_leaves_clean fuel fs db i self st :
  os.lstat fs (path self) = Ok st →
  sr_outcome (scan fuel fs db i self) = Finished →
  clean fs (sr_self (scan fuel fs db i self)).
Proof.
  intros Hstat Hout.
  destruct (negb (new self) && compare_stat_info self st) eqn:Hearly.
  - assert (clean fs self) as Hclean.
    { apply andb_prop in Hearly as [Hnew Hcmp]. apply negb_true_iff in Hnew.
      unfold compare_stat_info in Hcmp.
      apply andb_prop in Hcmp as [[Hmode Hmtime]%andb_prop Hsize].
      split; [done|]. exists st. split_and!; [done|by eapply bool_decide_eq_true_1..]. }
    by rewrite (scan_early_exit fuel fs db i self Hclean).
  - assert (changed self st) as Hch.
    { unfold changed. destruct (new self); [by left|]. by right. }
    destruct (scan_changed_cases fuel fs db i self st Hstat Hch)
      as (db1 & log1 & _ & _ & Hcases).
    simpl in Hcases.
    destruct (if stat.S_ISDIR (os.st_mode st) then _ else _) as [log2 [db2|x]].
    2:{ by rewrite Hcases in Hout. }
    destruct (save _ _ _); [|by rewrite Hcases in Hout].
    destruct (invalidate _ _ _); [|by rewrite Hcases in Hout].
    rewrite Hcases. simpl. split; [done|]. by exists st.
Qed.

(** X2 — a scan right after a scan changes nothing. If [scan] returned for
    an entry that the filesystem still shows with the same stat information,
    scanning the instance again leaves the database and the instance as the
    first scan left them, whatever the first scan did. *)
Theorem scan_twice_noop fuel fuel' fs db i self st :
  os.lstat fs (path self) = Ok st →
  sr_outcome (scan fuel fs db i self) = Finished →
  sr_db (scan fuel' fs (sr_db (scan fuel fs db i self)) i (sr_self (scan fuel fs db i self)))
    = sr_db (scan fuel fs db i self)
  ∧ sr_self (scan fuel' fs (sr_db (scan fuel fs db i self)) i
               (sr_self (scan fuel fs db i self)))
    = sr_self (scan fuel fs db i self)
  ∧ sr_outcome (scan fuel' fs (sr_db (scan fuel fs db i self)) i
                  (sr_self (scan fuel fs db i self)))
    = Finished.
Proof.
  intros Hstat Hout.
  pose proof (scan_leaves_clean fuel fs db i self st Hstat Hout) as Hclean.
  by rewrite (scan_early_exit fuel' fs _ i _ Hclean).
Qed.

Lemma scan_twice_noop_witness :
  sr_db (scan 0 fs_touched (sr_db (scan 6 fs_touched scan_db 2 row_a)) 2
           (sr_self (scan 6 fs_touched scan_db 2 row_a)))
  = sr_db (scan 6 fs_touched scan_db 2 row_a).
Proof.
  apply (scan_twice_noop 6 0 fs_touched scan_db 2 row_a (stat_of mode_reg 60 5));
    reflexivity.
Defined.

(** ** [invalidate] *)

Lemma ancestors_from_sound fuel tbl a ids j :
  ancestors_from fuel tbl a = Some ids → j ∈ ids → ancestor_or_self tbl a j.
Proof.
  revert a ids. induction fuel as [|fuel IH]; intros a ids; simpl; [done|].
  destruct (tbl !! a) as [row|] eqn:Hrow; simpl.
  - destruct (parent_id row) as [p|] eqn:Hp.
    + destruct (ancestors_from fuel tbl p) as [ids'|] eqn:Hrec; simpl; [|done].
      intros [= <-] [->|Hj]%elem_of_cons; [constructor|].
      eapply ancestor_parent; [done..|]. by eapply IH.
    + intros [= <-] ->%list_elem_of_singleton. constructor.
  - intros [= <-] ->%list_elem_of_singleton. constructor.
Qed.

(** X3 — [invalidate] is exact. It nulls [obj] on the entry and on the rows
    met by following [parent] from it, changes no other column of these
    rows, and leaves every other row of the table as it is; it neither adds
    nor removes a row. *)
Theorem invalidate_exact fuel tbl i tbl' :
  invalidate fuel tbl i = Some tbl' →
  (∀ j row, tbl !! j = Some row → ancestor_or_self tbl i j →
     tbl' !! j = Some (set_obj_id None row))
  ∧ (∀ j, ¬ ancestor_or_self tbl i j → tbl' !! j = tbl !! j)
  ∧ dom tbl' = dom tbl.
Proof.
  intros Hinv.
  destruct (invalidate_lookup _ _ _ _ Hinv) as (ids & Hids & Hlook).
  unfold ancestors in Hids. split_and!.
  - intros j row Hrow Hanc. rewrite Hlook, Hrow. simpl.
    destruct (tbl !! i) as [rowi|] eqn:Hi.
    + by rewrite bool_decide_eq_true_2 by (by eapply ancestors_from_complete).
    + inversion Hanc; simplify_eq.
  - intros j Hnot. rewrite Hlook.
    destruct (tbl !! j) as [row|] eqn:Hrow; [|done]. simpl.
    rewrite bool_decide_eq_false_2; [done|]. intros Hin. apply Hnot.
    destruct (tbl !! i); [by eapply ancestors_from_sound|].
    simplify_eq. by apply elem_of_nil in Hin.
  - apply set_eq. intros j. rewrite !elem_of_dom, Hlook. apply fmap_is_Some.
Qed.

Lemma invalidate_exact_witness :
  (default ∅ (invalidate 3 (fsentry scan_db) 2)) !! 1%nat = Some (set_obj_id None row_r).
Proof.
  destruct (invalidate_exact 3 (fsentry scan_db) 2%nat
              (default ∅ (invalidate 3 (fsentry scan_db) 2)) eq_refl)
    as (Hnulled & _).
  apply Hnulled; [reflexivity|].
  eapply ancestor_parent; [reflexivity..|constructor].
Defined.

(** ** [Setting] *)

(** X4 — settings are read back as they were written. After
    [Setting.set(key, value)], [Setting.get(key)] returns [value] whatever
    the default; the other keys read as before; a second [set] on the key
    replaces the first. A key that was never set raises [KeyError] when no
    default is given, and reads as the default otherwise. *)
Theorem setting_set_get settings key value :
  (∀ default, Setting.get (Setting.set settings key value) key default = Ok value)
  ∧ (∀ key' default, key' ≠ key →
       Setting.get (Setting.set settings key value) key' default
       = Setting.get settings key' default)
  ∧ (∀ value', Setting.set (Setting.set settings key value') key value
               = Setting.set settings key value)
  ∧ (settings !! key = None →
       Setting.get settings key None = Exc KeyError
       ∧ ∀ d, Setting.get settings key (Some d) = Ok d).
Proof.
  unfold Setting.get, Setting.set. split_and!.
  - intros default. by rewrite lookup_insert_eq.
  - intros key' default Hne. by rewrite lookup_insert_ne.
  - intros value'. apply insert_insert_eq.
  - by intros ->.
Qed.

Lemma setting_set_get_witness :
  Setting.get (Setting.set ∅ "repo" "local") "key" None = Setting.get ∅ "key" None.
Proof.
  destruct (setting_set_get ∅ "repo" "local") as (_ & Hother & _).
  apply (Hother "key" None). discriminate.
Defined.

(** ** Payloads *)

(** X5 — [load_payload] is idempotent, as its docstring says: when it
    returns for a payload, loading the same payload into the object it
    returned gives that object again. It does not change [objid]; the
    payload of a blob is not stored, any other payload is. The payload is
    taken as the sequence of the values it decodes to; nothing is stated of
    a call that raises. *)
Theorem load_payload_idempotent self p o :
  load_payload self p = Ok o →
  load_payload o p = Ok o
  ∧ objid o = objid self
  ∧ ((∃ rest, p = MStr "blob" :: rest) ∧ o = self
     ∨ (¬ ∃ rest, p = MStr "blob" :: rest) ∧ payload o = Some p).
Proof.
  unfold load_payload, unpack_payload. destruct p as [|objtype rest]; simpl; [done|].
  destruct (eq_str objtype "blob") eqn:Hblob; simpl; intros [= <-]; simpl.
  - split_and!; [done..|]. left. split; [|done].
    exists rest. destruct objtype; simpl in Hblob; try done.
    by apply bool_decide_eq_true_1 in Hblob as ->.
  - split_and!; [done..|]. right. split; [|done].
    intros [rest' [= -> _]]. by vm_compute in Hblob.
Qed.

Lemma load_payload_idempotent_witness :
  load_payload {| objid := id1; payload := Some [MStr "tree"; MNone; MList []] |}
    [MStr "tree"; MNone; MList []]
  = Ok {| objid := id1; payload := Some [MStr "tree"; MNone; MList []] |}.
Proof.
  apply (load_payload_idempotent obj1 [MStr "tree"; MNone; MList []]
           {| objid := id1; payload := Some [MStr "tree"; MNone; MList []] |}).
  reflexivity.
Defined.

(** ** Deleting an [Object] *)

(** X6 — a deletion leaves no reference behind. When [obj.delete()]
    succeeds for the object [o], the database holds no row of [objects] with
    that id, no relation with [o] as parent or as child (the other relations
    are kept, in order), no snapshot rooted at [o], and no [FSEntry] that
    points to [o]: the entries that did are kept with [obj] null, nothing
    else of the table [fsentry] changes. *)
Theorem Object_delete_no_reference db o db' :
  Object_delete db o = Ok db' →
  (∀ x, x ∈ objects db' → objid x ≠ o)
  ∧ object_relations db'
    = filter (λ r, parent r ≠ o ∧ child r ≠ o) (object_relations db)
  ∧ (∀ s, s ∈ snapshots db' → root_id s ≠ o)
  ∧ (∀ i, fsentry db' !! i
          = (λ e, if bool_decide (obj_id e = Some o) then set_obj_id None e else e)
            <$> fsentry db !! i)
  ∧ (∀ i e, fsentry db' !! i = Some e → obj_id e ≠ Some o)
  ∧ fsentry_seq db' = fsentry_seq db.
Proof.
  intros Hdel.
  destruct (Object_delete_ok _ _ _ Hdel) as (Hsnap & Hobjs & Hroots).
  revert Hdel. unfold Object_delete. simpl.
  destruct (filter _ (snapshots db)) as [|s0 l]; simpl; [|done].
  intros [= <-]. simpl in *. clear Hsnap Hobjs.
  assert (∀ i, ((λ r, if bool_decide (obj_id r = Some o)
                      then {| obj_id := None; path := path r; parent_id := parent_id r;
                              new := new r; st_mode := st_mode r;
                              st_mtime_ns := st_mtime_ns r; st_size := st_size r |}
                      else r) <$> fsentry db) !! i
               = (λ e, if bool_decide (obj_id e = Some o) then set_obj_id None e else e)
                 <$> fsentry db !! i) as Hlook.
  { intros i. by rewrite lookup_fmap. }
  split_and!; [| |exact Hroots|exact Hlook| |done].
  - by intros x [Hx _]%list_elem_of_filter.
  - rewrite list_filter_filter. apply list_filter_iff. intros r.
    rewrite !bool_decide_eq_false. tauto.
  - intros i e. rewrite Hlook. destruct (fsentry db !! i) as [e0|]; [|done]. simpl.
    intros [= <-]. case_bool_decide; [done|]. done.
Qed.

Lemma Object_delete_no_reference_witness :
  object_relations (default gc_db (match Object_delete gc_db id2 with
                                   | Ok db' => Some db' | Exc _ => None end))
  = filter (λ r, parent r ≠ id2 ∧ child r ≠ id2) (object_relations gc_db).
Proof.
  destruct (Object_delete_no_reference gc_db id2
              (default gc_db (match Object_delete gc_db id2 with
                              | Ok db' => Some db' | Exc _ => None end)) eq_refl)
    as (_ & Hrelations & _).
  exact Hrelations.
Defined.

(** ** Garbage collection *)

Lemma sweep_sublist m bloom hashes objs : (sweep m bloom hashes objs).1 `sublist_of` objs.
Proof.
  induction objs as [|obj rest IH]; simpl; [done|].
  destruct (all_hash_match _ _ _ _) as [[]|]; simpl.
  - by apply sublist_cons.
  - destruct (sweep m bloom hashes rest) as [ys o]; simpl in *. by apply sublist_skip.
  - apply sublist_nil_l.
Qed.

(** X7 — the collector yields rows of the table, each at most once and in
    the order of the table: what it yields is a subsequence of [objects]. It
    yields nothing unless the reachable query has ended and the filter was
    built. *)
Theorem collect_garbage_sublist fuel rng db :
  (collect_garbage fuel rng db).1 `sublist_of` objects db
  ∧ (reachable_query fuel db = None → (collect_garbage fuel rng db).1 = []).
Proof.
  unfold collect_garbage, collect_garbage_setup. split.
  - destruct (_ ≫= _) as [[[m hashes] bloom]|x]; [|apply sublist_nil_l].
    destruct (reachable_query fuel db) as [rows|]; [|apply sublist_nil_l].
    destruct (mark m hashes rows bloom ≫= _) as [[[m' hashes'] bloom']|x];
      [|apply sublist_nil_l].
    apply sweep_sublist.
  - intros ->. by destruct (_ ≫= _) as [[[m hashes] bloom]|x].
Qed.

Lemma collect_garbage_sublist_witness :
  (collect_garbage 1 gc_rng gc_db).1 = [].
Proof.
  destruct (collect_garbage_sublist 1 gc_rng gc_db) as [_ Hnone].
  apply Hnone. reflexivity.
Defined.

Lemma reachable_rows_fuel fuel fuel' db queue rows :
  reachable_rows fuel db queue = Some rows → (fuel ≤ fuel')%nat →
  reachable_rows fuel' db queue = Some rows.
Proof.
  revert fuel' queue rows. induction fuel as [|fuel IH]; intros fuel' queue rows; [done|].
  intros Hrows Hle. destruct fuel' as [|fuel']; [lia|]. simpl in *.
  destruct queue as [|row rest]; [done|].
  destruct (reachable_rows fuel db _) as [rows'|] eqn:Hrec; [|done].
  rewrite (IH fuel' _ _ Hrec) by lia. done.
Qed.

(** X8 — on a DAG the collector ends, and what it does then does not depend
    on the bound of the model: there is a number of steps from which on the
    reachable query returns, always with the same rows, so that the
    generator yields the same objects and ends the same way. *)
Theorem collect_garbage_dag db rank rng :
  acyclic db rank →
  ∃ fuel0, ∀ fuel, (fuel0 ≤ fuel)%nat →
    (collect_garbage fuel rng db).2 ≠ Hangs
    ∧ collect_garbage fuel rng db = collect_garbage fuel0 rng db.
Proof.
  intros Hdag.
  destruct (reachable_query_terminates db rank Hdag) as [fuel0 Hq]. exists fuel0.
  intros fuel Hfuel. destruct (Hq fuel0 (le_n _)) as [rows Hrows].
  pose proof (reachable_rows_fuel _ _ _ _ _ Hrows Hfuel) as Hrows'.
  unfold collect_garbage, collect_garbage_setup, reachable_query in *.
  rewrite Hrows, Hrows'. split; [|done].
  destruct (_ ≫= _) as [[[m hashes] bloom]|x]; [|done].
  destruct (mark m hashes rows bloom ≫= _) as [[[m' hashes'] bloom']|x]; [|done].
  induction (objects db) as [|obj rest IH]; simpl; [done|].
  destruct (all_hash_match _ _ _ _) as [[]|]; [done| |done].
  by destruct (sweep m' bloom' hashes' rest).
Qed.

Lemma collect_garbage_dag_witness :
  ∃ fuel0, ∀ fuel, (fuel0 ≤ fuel)%nat →
    (collect_garbage fuel gc_rng gc_db).2 ≠ Hangs
    ∧ collect_garbage fuel gc_rng gc_db = collect_garbage fuel0 gc_rng gc_db.
Proof.
  apply (collect_garbage_dag gc_db (λ o, if bool_decide (o = id1) then 1%nat else 0%nat)).
  intros r ->%list_elem_of_singleton. simpl. lia.
Defined.

Lemma reachable_rows_cycle (P : bytes → Prop) fuel db queue :
  (∀ x, P x → ∃ c, c ∈ children_of db x ∧ P c) →
  (∃ x, x ∈ queue ∧ P x) →
  reachable_rows fuel db queue = None.
Proof.
  intros Hcycle. revert queue. induction fuel as [|fuel IH]; intros queue; [done|].
  intros (x & Hx & HP). simpl. destruct queue as [|row rest].
  { by apply elem_of_nil in Hx. }
  rewrite IH; [done|].
  apply elem_of_cons in Hx as [->|Hx].
  - destruct (Hcycle _ HP) as (c & Hc & HPc). exists c. split; [|done].
    apply elem_of_app. by right.
  - exists x. split; [|done]. apply elem_of_app. by left.
Qed.

(** X9 — a cycle under a root. If the relations reachable from the root of
    a snapshot contain a cycle (a set of ids that holds a root and, with each
    id, one of its children), the recursive query never ends: with any bound
    the collector yields nothing and does not run to completion. *)
Theorem collect_garbage_cycle (P : bytes → Prop) fuel rng db :
  (∀ x, P x → ∃ c, c ∈ children_of db x ∧ P c) →
  (∃ s, s ∈ snapshots db ∧ P (root_id s)) →
  reachable_query fuel db = None
  ∧ (collect_garbage fuel rng db).1 = []
  ∧ (collect_garbage fuel rng db).2 ≠ Finished.
Proof.
  intros Hcycle (s & Hs & HP).
  assert (reachable_query fuel db = None) as Hq.
  { apply (reachable_rows_cycle P); [done|]. exists (root_id s). split; [|done].
    apply list_elem_of_fmap. eauto. }
  split; [done|]. unfold collect_garbage, collect_garbage_setup. rewrite Hq.
  by destruct (_ ≫= _) as [[[m hashes] bloom]|x].
Qed.

Lemma collect_garbage_cycle_witness :
  collect_garbage 1000 gc_rng gc_db_cycle = ([], Hangs).
Proof.
  destruct (collect_garbage_cycle (λ x, x = id1 ∨ x = id2) 1000 gc_rng gc_db_cycle)
    as (Hq & _).
  - intros x [-> | ->].
    + exists id2. split; [|by right]. vm_compute. apply list_elem_of_here.
    + exists id1. split; [|by left]. vm_compute. apply list_elem_of_here.
  - eexists. split; [apply list_elem_of_here|]. by left.
  - unfold collect_garbage, collect_garbage_setup. rewrite Hq. reflexivity.
Defined.

(** ** Deleting an [FSEntry] *)

Lemma ancestor_or_self_trans tbl x y z :
  ancestor_or_self tbl x y → ancestor_or_self tbl y z → ancestor_or_self tbl x z.
Proof.
  induction 1 as [x|x row p a Hx Hp _ IH]; [done|].
  intros Hz. eapply ancestor_parent; [done..|]. by apply IH.
Qed.

Lemma ancestor_or_self_weaken tbl tbl' x a :
  tbl ⊆ tbl' → ancestor_or_self tbl x a → ancestor_or_self tbl' x a.
Proof.
  intros Hsub. induction 1 as [x|x row p a Hx Hp _ IH]; [constructor|].
  eapply ancestor_parent; [|done..]. by eapply lookup_weaken.
Qed.

(** [reaches] follows the parents. *)
Lemma reaches_sound fuel tbl x target :
  reaches fuel tbl x target = true → ancestor_or_self tbl x target.
Proof.
  revert x. induction fuel as [|fuel IH]; intros x; simpl.
  - rewrite orb_false_r. intros ->%bool_decide_eq_true_1. constructor.
  - intros [->%bool_decide_eq_true_1|Hrec]%orb_prop; [constructor|].
    destruct (tbl !! x) as [row|] eqn:Hx; [|done]. simpl in Hrec.
    destruct (parent_id row) as [p|] eqn:Hp; [|done].
    eapply ancestor_parent; [done..|]. by apply IH.
Qed.

Lemma reaches_weaken fuel tbl tbl' x target :
  tbl ⊆ tbl' → reaches fuel tbl x target = true → reaches fuel tbl' x target = true.
Proof.
  intros Hsub. revert x. induction fuel as [|fuel IH]; intros x; simpl; [done|].
  intros [Hx|Hrec]%orb_prop; [by rewrite Hx|]. apply orb_true_intro. right.
  destruct (tbl !! x) as [row|] eqn:Hx; [|done].
  rewrite (lookup_weaken _ _ _ _ Hx Hsub). simpl in *.
  destruct (parent_id row); [|done]. by apply IH.
Qed.

(** A chain of parents that ends in [target] can be cut where it last
    passes [x]. *)
Lemma ancestor_or_self_cut tbl x y target :
  ancestor_or_self tbl y target →
  ancestor_or_self (delete x tbl) y target
  ∨ ∃ row p, tbl !! x = Some row ∧ parent_id row = Some p
             ∧ ancestor_or_self (delete x tbl) p target.
Proof.
  induction 1 as [y|y row q a Hy Hq _ IH]; [left; constructor|].
  destruct IH as [IH|IH]; [|by right].
  destruct (decide (y = x)) as [->|Hne].
  - right. eauto.
  - left. eapply ancestor_parent; [|done..]. by rewrite lookup_delete_ne.
Qed.

(** A chain without repetition is no longer than the table: [size tbl]
    steps are enough for [reaches]. *)
Lemma reaches_complete fuel tbl x target :
  (size tbl ≤ fuel)%nat → ancestor_or_self tbl x target →
  reaches fuel tbl x target = true.
Proof.
  revert tbl x. induction fuel as [|fuel IH]; intros tbl x Hsize Hanc.
  - destruct Hanc as [x|x row p a Hx _ _]; simpl.
    + by rewrite bool_decide_eq_true_2.
    + assert (tbl = ∅) as -> by (apply map_size_empty_inv; lia). done.
  - simpl. destruct (decide (x = target)) as [->|Hne].
    { by rewrite bool_decide_eq_true_2. }
    rewrite bool_decide_eq_false_2 by done. simpl.
    destruct Hanc as [x|x row p a Hx Hp Hanc]; [done|].
    rewrite Hx. simpl. rewrite Hp.
    assert (ancestor_or_self (delete x tbl) p a) as Hcut.
    { destruct (ancestor_or_self_cut tbl x p a Hanc) as [?|(row' & p' & Hx' & Hp' & ?)];
        [done|]. by simplify_eq. }
    apply (reaches_weaken _ (delete x tbl)); [apply delete_subseteq|].
    apply IH; [|done]. rewrite map_size_delete_Some by done. lia.
Qed.

(** The rows that go with row [i] are the rows from which the parents lead
    to [i]. *)
Lemma delete_cascade_lookup i tbl x row :
  is_Some (tbl !! i) →
  delete_cascade i tbl !! x = Some row
  ↔ tbl !! x = Some row ∧ ¬ ancestor_or_self tbl x i.
Proof.
  intros [r Hi]. unfold delete_cascade. rewrite Hi, map_lookup_filter_Some. simpl.
  split; intros [Hx Hnot]; (split; [done|]).
  - intros Hanc. by rewrite reaches_complete in Hnot.
  - destruct (reaches (size tbl) tbl x i) eqn:Hreach; [|done].
    by apply reaches_sound in Hreach.
Qed.

Lemma delete_cascade_absent i tbl : tbl !! i = None → delete_cascade i tbl = tbl.
Proof. unfold delete_cascade. by intros ->. Qed.

(** No row is left without its parent: what remains of a table after a
    cascade holds the parent of each of its rows, if the table held it. *)
Lemma delete_cascade_no_orphan i tbl x row p :
  delete_cascade i tbl !! x = Some row → parent_id row = Some p →
  is_Some (tbl !! p) → is_Some (delete_cascade i tbl !! p).
Proof.
  destruct (tbl !! i) as [r|] eqn:Hi.
  2:{ rewrite (delete_cascade_absent _ _ Hi). by intros _ _. }
  intros [Hx Hnot]%delete_cascade_lookup Hp [prow Hprow]; [|done].
  exists prow. apply delete_cascade_lookup; [done|]. split; [done|].
  intros Hanc. apply Hnot. by eapply ancestor_parent.
Qed.

(** X10 — an entry that vanished. When [lstat] reports that the path no
    longer exists, [scan] deletes the row and returns: the instance has no
    primary key left, and the table has lost exactly the rows from which
    the [parent] pointers lead to the entry (the entry, its children, their
    children, ...). The rows that remain are unchanged and keep their
    parents; objects, relations and snapshots are not touched. *)
Theorem scan_vanished fuel fs db i self err :
  os.lstat fs (path self) = Exc (OSError err) →
  err = FileNotFoundError ∨ err = NotADirectoryError →
  is_Some (fsentry db !! i) →
  sr_outcome (scan fuel fs db i self) = Finished
  ∧ sr_id (scan fuel fs db i self) = None
  ∧ (∀ x row, fsentry (sr_db (scan fuel fs db i self)) !! x = Some row
              ↔ fsentry db !! x = Some row ∧ ¬ ancestor_or_self (fsentry db) x i)
  ∧ (∀ x row p, fsentry (sr_db (scan fuel fs db i self)) !! x = Some row →
       parent_id row = Some p → is_Some (fsentry db !! p) →
       is_Some (fsentry (sr_db (scan fuel fs db i self)) !! p))
  ∧ objects (sr_db (scan fuel fs db i self)) = objects db
  ∧ object_relations (sr_db (scan fuel fs db i self)) = object_relations db
  ∧ snapshots (sr_db (scan fuel fs db i self)) = snapshots db.
Proof.
  intros Hstat Herr Hi. unfold scan. rewrite Hstat.
  destruct Herr as [-> | ->]; simpl; (split_and!; [done..| | |done|done|done]).
  - intros x row. by apply delete_cascade_lookup.
  - apply delete_cascade_no_orphan.
  - intros x row. by apply delete_cascade_lookup.
  - apply delete_cascade_no_orphan.
Qed.

Lemma scan_vanished_witness :
  fsentry (sr_db (scan 3 fs_hostile scan_db 1 (set_new false (dirty_at "/r/gone")))) !! 2%nat
  = Some row_a ↔
  fsentry scan_db !! 2%nat = Some row_a ∧ ¬ ancestor_or_self (fsentry scan_db) 2 1.
Proof.
  destruct (scan_vanished 3 fs_hostile scan_db 1 (set_new false (dirty_at "/r/gone"))
              FileNotFoundError eq_refl (or_introl eq_refl) (ex_intro _ row_r eq_refl))
    as (_ & _ & Hrows & _).
  apply Hrows.
Defined.

(** X11 — the same in the backup. When [lstat] reports that the path of an
    entry no longer exists, [backup_entry] pushes nothing, deletes the row
    with the rows below it, and returns without an error. *)
Theorem backup_entry_vanished repo fs w i entry err :
  os.lstat fs (path entry) = Exc (OSError err) →
  err = FileNotFoundError ∨ err = NotADirectoryError →
  is_Some (fsentry (db_of w) !! i) →
  er_outcome (backup_entry repo fs w i entry) = Finished
  ∧ er_pushed (backup_entry repo fs w i entry) = []
  ∧ er_id (backup_entry repo fs w i entry) = None
  ∧ (∀ x row, fsentry (db_of (er_world (backup_entry repo fs w i entry))) !! x = Some row
              ↔ fsentry (db_of w) !! x = Some row
                ∧ ¬ ancestor_or_self (fsentry (db_of w)) x i)
  ∧ objects (db_of (er_world (backup_entry repo fs w i entry))) = objects (db_of w).
Proof.
  intros Hstat Herr Hi. unfold backup_entry, backup_iterator. rewrite Hstat.
  destruct Herr as [-> | ->]; simpl;
    (rewrite bool_decide_eq_true_2 by (by right));
    (split_and!; [done..| |done]); intros x row; by apply delete_cascade_lookup.
Qed.

Lemma backup_entry_vanished_witness :
  er_pushed (backup_entry (sample_repo 10) fs_hostile backup_world 2 (dirty_at "/r/gone"))
  = [].
Proof.
  destruct (backup_entry_vanished (sample_repo 10) fs_hostile backup_world 2
              (dirty_at "/r/gone") FileNotFoundError eq_refl (or_introl eq_refl)
              (ex_intro _ dirty_a eq_refl))
    as (_ & Hpushed & _).
  exact Hpushed.
Defined.

(** ** A directory that became something else *)

(** A chain of parents between two rows that remain is a chain of what
    remains. *)
Lemma ancestor_or_self_remains (Q : nat → Prop) tbl tbl' x a :
  (∀ x row, tbl !! x = Some row → Q x → tbl' !! x = Some row) →
  (∀ x row p, tbl !! x = Some row → parent_id row = Some p → Q x → Q p) →
  ancestor_or_self tbl x a → Q x → ancestor_or_self tbl' x a.
Proof.
  intros Hkept Hup. induction 1 as [x|x row p a Hx Hp _ IH]; [constructor|].
  intros HQ. eapply ancestor_parent; [by apply Hkept|done|]. apply IH. by eapply Hup.
Qed.

(** Deleting the rows [cs] one after the other removes the rows from which
    the parents lead to one of them. *)
Lemma foldr_delete_cascade_lookup tbl (cs : list (nat * FSEntry)) x row :
  (∀ c crow, (c, crow) ∈ cs → tbl !! c = Some crow) →
  foldr (λ kv, delete_cascade kv.1) tbl cs !! x = Some row
  ↔ tbl !! x = Some row ∧ ∀ c crow, (c, crow) ∈ cs → ¬ ancestor_or_self tbl x c.
Proof.
  revert x row. induction cs as [|[c crow] rest IH]; intros x row Hcs; simpl.
  { split; [|by intros []]. intros Hx. split; [done|]. by intros c crow ?%elem_of_nil. }
  assert (∀ c crow, (c, crow) ∈ rest → tbl !! c = Some crow) as Hrest.
  { intros c' crow' Hin. apply Hcs. by right. }
  set (T := foldr (λ kv, delete_cascade kv.1) tbl rest) in *.
  assert (T ⊆ tbl) as Hsub.
  { subst T. clear. induction rest as [|kv l IHl]; simpl; [done|].
    etrans; [apply delete_cascade_subseteq | done]. }
  assert (∀ y, ancestor_or_self tbl y c →
               (∀ c' crow', (c', crow') ∈ rest → ¬ ancestor_or_self tbl y c') →
               ancestor_or_self T y c) as Hremains.
  { intros y Hanc HQ.
    eapply (ancestor_or_self_remains
             (λ y, ∀ c' crow', (c', crow') ∈ rest → ¬ ancestor_or_self tbl y c'));
      [| |done|done].
    - intros z zrow Hz HQz. by apply IH.
    - intros z zrow p Hz Hp HQz c' crow' Hin Hanc'. eapply HQz; [done|].
      by eapply ancestor_parent. }
  destruct (T !! c) as [r|] eqn:Hc.
  - rewrite delete_cascade_lookup by done. rewrite IH by done. split.
    + intros [[Hx Hnot] Hnotc]. split; [done|].
      intros c' crow' [[= -> ->]|Hin]%elem_of_cons; [|by eapply Hnot].
      intros Hanc. apply Hnotc. by apply Hremains.
    + intros [Hx Hnot]. split_and!; [done| |].
      * intros c' crow' Hin. eapply Hnot. by right.
      * intros Hanc. eapply (Hnot c crow); [by left|]. by eapply ancestor_or_self_weaken.
  - rewrite delete_cascade_absent by done. rewrite IH by done. split.
    + intros [Hx Hnot]. split; [done|].
      intros c' crow' [[= -> ->]|Hin]%elem_of_cons; [|by eapply Hnot].
      intros Hanc.
      assert (T !! c = Some crow) as Hc'; [|by rewrite Hc in Hc'].
      apply IH; [done|]. split; [apply Hcs; by left|].
      intros c' crow' Hin Hanc'. eapply Hnot; [done|].
      by eapply ancestor_or_self_trans.
    + intros [Hx Hnot]. split; [done|]. intros c' crow' Hin. eapply Hnot. by right.
Qed.

(** [self.children.all().delete()] removes exactly the rows below the
    entry. *)
Lemma delete_children_lookup i tbl x row :
  delete_children i tbl !! x = Some row
  ↔ tbl !! x = Some row
    ∧ ∀ c crow, tbl !! c = Some crow → parent_id crow = Some i →
        ¬ ancestor_or_self tbl x c.
Proof.
  unfold delete_children. rewrite foldr_delete_cascade_lookup.
  - split; intros [Hx Hnot]; (split; [done|]).
    + intros c crow Hc Hp. apply (Hnot c crow). apply list_elem_of_filter.
      split; [done|]. by apply elem_of_map_to_list.
    + intros c crow [Hp Hc%elem_of_map_to_list]%list_elem_of_filter. by eapply Hnot.
  - by intros c crow [_ Hc%elem_of_map_to_list]%list_elem_of_filter.
Qed.

(** X12 — a directory that is one no longer. When the entry was recorded as
    a directory and [lstat] now shows something else, a [scan] that returns
    has removed every row below the entry (its children, their children,
    ...) and only those: each other row is still there, as it was or with
    [obj] nulled, and the row of the entry holds the new stat information,
    is no longer [new] and has no [obj]. *)
Theorem scan_no_longer_directory fuel fs db i self st mode :
  os.lstat fs (path self) = Ok st →
  st_mode self = Some mode →
  stat.S_ISDIR mode = true →
  stat.S_ISDIR (os.st_mode st) = false →
  sr_outcome (scan fuel fs db i self) = Finished →
  (∀ x c crow, x ≠ i →
     fsentry db !! c = Some crow → parent_id crow = Some i →
     ancestor_or_self (fsentry db) x c →
     fsentry (sr_db (scan fuel fs db i self)) !! x = None)
  ∧ (∀ x row, x ≠ i → fsentry db !! x = Some row →
       (∀ c crow, fsentry db !! c = Some crow → parent_id crow = Some i →
          ¬ ancestor_or_self (fsentry db) x c) →
       fsentry (sr_db (scan fuel fs db i self)) !! x = Some row
       ∨ fsentry (sr_db (scan fuel fs db i self)) !! x = Some (set_obj_id None row))
  ∧ fsentry (sr_db (scan fuel fs db i self)) !! i
    = Some (update_stat_info (set_new false (set_obj_id None self)) st)
  ∧ sr_self (scan fuel fs db i self)
    = update_stat_info (set_new false (set_obj_id None self)) st.
Proof.
  intros Hstat Hmode Hwas Hnow. unfold scan. rewrite Hstat, Hmode, Hwas, Hnow. simpl.
  assert (compare_stat_info self st = false) as ->.
  { unfold compare_stat_info. rewrite Hmode.
    rewrite (bool_decide_eq_false_2 (Some mode = Some (os.st_mode st))); [done|].
    intros [= ->]. congruence. }
  rewrite andb_false_r.
  set (self' := update_stat_info (set_new false (set_obj_id None self)) st).
  unfold save. destruct (storable self'); simpl; [|done].
  destruct (invalidate fuel _ i) as [tbl'|] eqn:Hinv; simpl; [|done].
  intros _. apply invalidate_lookup in Hinv as (ids & Hids & Hlook).
  assert (i ∈ ids) as Hi.
  { unfold ancestors in Hids. rewrite lookup_insert_eq in Hids.
    eapply ancestors_from_complete; [done|constructor]. }
  split_and!; [| | |done].
  - intros x c crow Hne Hc Hp Hanc. rewrite Hlook, lookup_insert_ne by done.
    destruct (delete_children i (fsentry db) !! x) as [row|] eqn:Hx; [|done].
    apply delete_children_lookup in Hx as [_ Hnot]. by destruct (Hnot c crow).
  - intros x row Hne Hx Hnot. rewrite Hlook, lookup_insert_ne by done.
    assert (delete_children i (fsentry db) !! x = Some row) as ->.
    { by apply delete_children_lookup. }
    simpl. destruct (bool_decide (x ∈ ids)); auto.
  - rewrite Hlook, lookup_insert_eq. simpl. by rewrite bool_decide_eq_true_2.
Qed.

Lemma scan_no_longer_directory_witness :
  fsentry (sr_db (scan 3 fs_replaced scan_db 1 row_r)) !! 2%nat = None.
Proof.
  destruct (scan_no_longer_directory 3 fs_replaced scan_db 1 row_r
              (stat_of mode_reg 200 10) mode_dir eq_refl eq_refl eq_refl eq_refl eq_refl)
    as (Hbelow & _).
  apply (Hbelow 2%nat 2%nat row_a); [lia|reflexivity|reflexivity|constructor].
Defined.

(** ** From the scan to the backup *)

Lemma scan_new_finished loops fuel fs db log db' log' :
  Scan.scan_new loops fuel fs db log = (db', log', Finished) →
  filter (λ kv, new kv.2 = true) (map_to_list (fsentry db')) = [].
Proof.
  revert db log. induction loops as [|loops IH]; intros db log; cbn [Scan.scan_new].
  - destruct (filter _ (map_to_list (fsentry db))) eqn:Hqs; [|done]. by intros [= <- _].
  - destruct (filter _ (map_to_list (fsentry db))) as [|kv qs] eqn:Hqs.
    { by intros [= <- _]. }
    destruct (Scan.scan_entries fuel fs true (kv :: qs) db db log) as [[db1 log1] []];
      [apply IH|done..].
Qed.

(** X13 — a scan that returns leaves nothing to scan. When [scan()] runs
    to its end, no entry is flagged [new], with or without [skip_existing];
    the check at the head of [backup] then passes, on any filesystem and
    with any repository. *)
Theorem scan_enables_backup loops fuel fs db skip_existing db' log :
  Scan.scan loops fuel fs db skip_existing = (db', log, Finished) →
  (∀ i row, fsentry db' !! i = Some row → new row = false)
  ∧ ∀ fuel' repo fs' now logs,
      backup fuel' repo fs' now {| db_of := db'; log_of := logs |}
      = backup_run fuel' repo fs' now {| db_of := db'; log_of := logs |}.
Proof.
  intros Hscan.
  assert (filter (λ kv, new kv.2 = true) (map_to_list (fsentry db')) = []) as Hnone.
  { revert Hscan. unfold Scan.scan.
    destruct (if skip_existing then _ else _) as [[db1 log1] []]; [|done..].
    apply scan_new_finished. }
  assert (∀ i row, fsentry db' !! i = Some row → new row = false) as Hnew.
  { intros i row Hrow. destruct (new row) eqn:Hn; [|done].
    assert ((i, row) ∈ filter (λ kv, new kv.2 = true) (map_to_list (fsentry db'))) as Hin.
    { apply list_elem_of_filter. split; [done|]. by apply elem_of_map_to_list. }
    rewrite Hnone in Hin. by apply elem_of_nil in Hin. }
  split; [done|]. intros fuel' repo fs' now logs. unfold backup. simpl.
  rewrite bool_decide_eq_false_2; [done|].
  intros ([i row] & Hin%elem_of_map_to_list & Hn)%Exists_exists. simpl in Hn.
  by rewrite (Hnew _ _ Hin) in Hn.
Qed.

Lemma scan_enables_backup_witness :
  backup 5 (sample_repo 2) fs_same 0
    {| db_of := (Scan.scan 2 3 fs_touched scan_db false).1.1; log_of := [] |}
  = backup_run 5 (sample_repo 2) fs_same 0
      {| db_of := (Scan.scan 2 3 fs_touched scan_db false).1.1; log_of := [] |}.
Proof.
  destruct (scan_enables_backup 2 3 fs_touched scan_db false
              (Scan.scan 2 3 fs_touched scan_db false).1.1
              (Scan.scan 2 3 fs_touched scan_db false).1.2 eq_refl) as [_ Hbackup].
  apply Hbackup.
Defined.

(** ** What the backup of an entry leaves alone *)

(** A property [I] of the world is kept by the backup of entry [i] if it is
    kept by what the backup does: writing to the log, deleting row [i],
    saving an instance of the entry, with its object, in row [i], admitting
    an object. [E] is what is known of the instance: it is kept when the
    stat information of the instance is set. *)
Section backup_invariant.
Context (repo : Repository) (i : nat) (I : World → Prop) (E : FSEntry → Prop).
Context (Hlog : ∀ lvl fmt arg w, I w → I (log lvl fmt arg w)).
Context (Hdelete : ∀ w,
  I w → I (set_db (with_fsentry (db_of w) (delete_cascade i (fsentry (db_of w)))) w)).
Context (Hsave : ∀ w e o,
  E e → I w →
  I (set_db (with_fsentry (db_of w)
               (<[i := set_obj_id (Some o) e]> (fsentry (db_of w)))) w)).
Context (Hpush : ∀ w payload obj relations db sent,
  I w → push_object repo (db_of w) payload obj relations = Ok (db, sent) →
  I (set_db db w)).
Context (HEstat : ∀ e st, E e → E (update_stat_info e st)).

Lemma delete_and_return_inv w e : I w → gen_inv I (delete_and_return w i e).
Proof using Hdelete. intros Hw. constructor. by apply Hdelete. Qed.

Lemma yield_and_save_inv w e y fmt :
  E e → I w → gen_inv I (yield_and_save w i e y fmt).
Proof using Hlog Hsave.
  intros He Hw. constructor; [done|]. intros sent w' Hw'. simpl.
  unfold save. destruct (storable _); constructor.
  - apply (Hsave (log logging.INFO fmt _ w')); [done|]. by apply Hlog.
  - by apply Hlog.
Qed.

Lemma read_failed_inv x w e : I w → gen_inv I (read_failed x w i e).
Proof using Hlog Hdelete.
  intros Hw. destruct x as [| | | | | | | | |msg|err| | | | |]; try by constructor.
  destruct err; simpl; apply delete_and_return_inv; by apply Hlog.
Qed.

Lemma chunk_loop_inv chunks failure inode_buf obj chunk_list relations w e :
  E e → I w →
  gen_inv I (chunk_loop chunks failure inode_buf obj chunk_list relations w i e).
Proof using Hlog Hdelete Hsave.
  intros He Hw. destruct chunks as [|[pos chunk] rest].
  - simpl. destruct failure; [by apply read_failed_inv|].
    destruct (pack _ _); [by apply yield_and_save_inv | by apply read_failed_inv].
  - destruct (chunk_loop_cons pos chunk rest failure inode_buf obj chunk_list
                relations w i e) as (x & -> & _).
    by constructor.
Qed.

Lemma backup_iterator_inv fs cs w e threshold :
  E e → I w → gen_inv I (backup_iterator fs cs w i e threshold).
Proof using Hlog Hdelete Hsave HEstat.
  intros He Hw. unfold backup_iterator.
  destruct (os.lstat fs (path e)) as [st|x] eqn:Hstat.
  2:{ apply syscall_exc in Hstat as [err ->].
      destruct err; first [ apply delete_and_return_inv; by apply Hlog | by constructor ]. }
  pose proof (HEstat e st He) as He'.
  destruct (stat.S_ISREG (os.st_mode st)).
  - cbv zeta.
    match goal with |- gen_inv _ (match ?r with _ => _ end) =>
      destruct r as [inode_buf|x] end; [|by constructor].
    destruct (_open_file fs (path _)) as [fobj|x]; [|by apply read_failed_inv].
    destruct (os.st_size st <? threshold).
    + match goal with |- gen_inv _ (match ?r with _ => _ end) =>
        destruct r as [buf|x] end;
        [by apply yield_and_save_inv | by apply read_failed_inv].
    + destruct (chunker.FixedChunker cs fobj) as [chunks failure].
      by apply chunk_loop_inv.
  - destruct (stat.S_ISDIR (os.st_mode st)).
    + cbv zeta. case_bool_decide; [by constructor|].
      match goal with |- gen_inv _ (match ?r with _ => _ end) =>
        destruct r as [[buf relations]|x] end;
        [by apply yield_and_save_inv | by constructor].
    + apply delete_and_return_inv. by apply Hlog.
Qed.

Lemma drive_inv g pushed : gen_inv I g → I (er_world (drive repo g pushed)).
Proof using Hpush.
  intros Hg. revert pushed.
  induction Hg as [w e id Hw|x w e id Hw|w e id [[payload obj] relations] k Hw Hk IH];
    intros pushed; simpl.
  - done.
  - by destruct x.
  - destruct (push_object repo (db_of w) payload obj relations) as [[db sent]|x] eqn:Hp.
    + apply IH. by eapply Hpush.
    + by destruct x.
Qed.

Lemma backup_entry_inv fs w entry :
  E entry → I w → I (er_world (backup_entry repo fs w i entry)).
Proof using Hlog Hdelete Hsave Hpush HEstat.
  intros He Hw. unfold backup_entry.
  pose proof (drive_inv _ [] (backup_iterator_inv fs (chunk_size repo) w entry
                                (backup_inline_threshold repo) He Hw)) as Hdrive.
  destruct (er_outcome (drive repo _ [])); [|done..].
  by case_bool_decide.
Qed.

End backup_invariant.

Lemma push_object_frame repo db payload obj relations db' sent :
  push_object repo db payload obj relations = Ok (db', sent) →
  snapshots db' = snapshots db
  ∧ objects db `prefix_of` objects db'
  ∧ object_relations db `prefix_of` object_relations db'
  ∧ fsentry_seq db' = fsentry_seq db.
Proof.
  unfold push_object.
  destruct (list_find _ _) as [[n existing]|].
  { by intros [= <- _]. }
  destruct (put repo _ _); [done|].
  destruct (load_payload _ payload) as [saved|x]; [|done]. simpl.
  intros [= <- _]. simpl. split_and!; [done| | |done]; by apply prefix_app_r.
Qed.

(** X14 — what the backup of one entry leaves alone. Whatever
    [backup_entry] does with entry [i] (back it up, delete it, fail), it
    takes no snapshot; it only appends to [objects] and [object_relations],
    so that no stored object or relation is changed or removed; it creates
    no [FSEntry]; and every row of [fsentry] other than row [i] that is
    still there is unchanged. *)
Theorem backup_entry_frame repo fs w i entry :
  entry_frame i w (er_world (backup_entry repo fs w i entry)).
Proof.
  apply (backup_entry_inv repo i (entry_frame i w) (λ _, True)); unfold entry_frame;
    try done.
  - intros lvl fmt arg w1 (Hs & Ho & Hr & Hq & Hl & Hrows). simpl.
    split_and!; [done..| |done]. by apply prefix_app_r.
  - intros w1 (Hs & Ho & Hr & Hq & Hl & Hrows). simpl. split_and!; [done..|].
    intros x row Hne Hx. apply Hrows; [done|].
    eapply lookup_weaken; [done|]. apply delete_cascade_subseteq.
  - intros w1 e o _ (Hs & Ho & Hr & Hq & Hl & Hrows). simpl. split_and!; [done..|].
    intros x row Hne. rewrite lookup_insert_ne by done. by apply Hrows.
  - intros w1 payload obj relations db sent (Hs & Ho & Hr & Hq & Hl & Hrows) Hpush.
    pose proof (push_object_ok _ _ _ _ _ _ _ Hpush) as [_ Hf].
    apply push_object_frame in Hpush as (Hs' & Ho' & Hr' & Hq'). simpl.
    split_and!; [congruence|by etrans|by etrans|congruence|done|].
    rewrite Hf. done.
Qed.

(** ** The snapshots of a backup *)

(** X15 — the loop of [backup] over the roots, for the roots in the order
    in which the query delivers them, whatever that order is. When the loop
    ends, every root delivered has an object; one snapshot was taken and
    uploaded for each of them, in that order, with the path and the object
    of the root and the time of the backup, after the snapshots that
    existed; the tables [fsentry], [objects] and [object_relations] and the
    log are as they were. *)
Theorem snapshot_roots_postcondition repo now roots w w' :
  snapshot_roots repo now roots w = (w', Finished) →
  Forall (λ root, is_Some (obj_id root.2)) roots
  ∧ fsentry (db_of w') = fsentry (db_of w)
  ∧ fsentry_seq (db_of w') = fsentry_seq (db_of w)
  ∧ objects (db_of w') = objects (db_of w)
  ∧ object_relations (db_of w') = object_relations (db_of w)
  ∧ log_of w' = log_of w
  ∧ snapshots (db_of w') = snapshots (db_of w) ++ (snapshot_of now <$> roots)
  ∧ Forall (λ ss, put_snapshot repo ss = None) (snapshot_of now <$> roots).
Proof.
  revert w. induction roots as [|[i root] rest IH]; intros w; simpl.
  { intros [= <-]. rewrite app_nil_r. by split_and!. }
  destruct (obj_id root) as [o|] eqn:Hobj; [|done].
  destruct (put_snapshot repo _) eqn:Hput; [done|].
  intros (Hroots & Hf & Hq & Ho & Hr & Hl & Hs & Hp)%IH. simpl in *.
  assert (snapshot_of now (i, root)
          = {| snapshot_path := path root; root_id := o; date := now |}) as ->.
  { unfold snapshot_of. simpl. by rewrite Hobj. }
  split_and!; [|done..| |by constructor].
  - constructor; [simpl; by rewrite Hobj|done].
  - by rewrite Hs, <-app_assoc.
Qed.

Lemma snapshot_roots_postcondition_witness :
  snapshots (db_of (snapshot_roots (sample_repo 2) 7 [(1%nat, row_r)]
                      {| db_of := scan_db; log_of := [] |}).1)
  = [ {| snapshot_path := "/r"; root_id := id1; date := 7 |} ].
Proof.
  destruct (snapshot_roots_postcondition (sample_repo 2) 7 [(1%nat, row_r)]
              {| db_of := scan_db; log_of := [] |}
              (snapshot_roots (sample_repo 2) 7 [(1%nat, row_r)]
                 {| db_of := scan_db; log_of := [] |}).1 eq_refl)
    as (_ & _ & _ & _ & _ & _ & Hsnapshots & _).
  exact Hsnapshots.
Defined.

(** ** The queries of [backup] *)

Lemma list_max_elem {A} (f : A → nat) (l : list A) :
  l ≠ [] → ∃ x, x ∈ l ∧ ∀ y, y ∈ l → (f y ≤ f x)%nat.
Proof.
  induction l as [|a l IH]; [done|]. intros _. destruct l as [|b l].
  { exists a. split; [by left|]. by intros y ->%list_elem_of_singleton. }
  destruct IH as (x & Hx & Hmax); [done|].
  destruct (decide (f x ≤ f a)%nat).
  - exists a. split; [by left|].
    intros y [->|Hy]%elem_of_cons; [done|]. specialize (Hmax y Hy). lia.
  - exists x. split; [by right|].
    intros y [->|Hy]%elem_of_cons; [lia|]. by apply Hmax.
Qed.

Lemma ready_to_backup_rows db i entry :
  (i, entry) ∈ ready_to_backup db → fsentry db !! i = Some entry ∧ obj_id entry = None.
Proof.
  intros [_ [Hobj Hin%elem_of_map_to_list]%list_elem_of_filter]%list_elem_of_filter.
  done.
Qed.

(** In a forest, an entry among those to back up whose path is longest
    has no child to back up: the query [ready_to_backup] selects it. *)
Lemma ready_to_backup_nonempty db :
  ranked (fsentry db) → to_backup db ≠ [] → ready_to_backup db ≠ [].
Proof.
  intros Hranked Hto.
  destruct (list_max_elem (λ kv, String.length (path kv.2)) _ Hto)
    as ([m mrow] & Hm & Hmax).
  assert ((m, mrow) ∈ ready_to_backup db) as Hin; [|by intros Hnil; rewrite Hnil in Hin;
                                                      apply elem_of_nil in Hin].
  apply list_elem_of_filter. split; [|done]. simpl.
  intros ([x row] & Hp & [_ Hx]%list_elem_of_filter)%list_elem_of_fmap. simpl in Hp.
  specialize (Hmax _ Hx). simpl in Hmax.
  apply list_elem_of_filter in Hm as [_ Hm%elem_of_map_to_list].
  apply list_elem_of_filter in Hx as [_ Hx%elem_of_map_to_list].
  pose proof (Hranked x row m mrow Hx (eq_sym Hp) Hm). lia.
Qed.

(** An entry that [ready_to_backup] selects has no child without an
    object, in the database of the query. *)
Lemma ready_to_backup_children db i entry :
  (i, entry) ∈ ready_to_backup db → ¬ has_dirty_child db i.
Proof.
  intros [Hnot _]%list_elem_of_filter
    ([c crow] & [Hp Hc%elem_of_map_to_list]%list_elem_of_filter & Hdirty)%Exists_exists.
  simpl in *. apply Hnot. apply list_elem_of_fmap. exists (c, crow). split; [done|].
  apply list_elem_of_filter. split; [simpl; congruence|].
  apply list_elem_of_filter. split; [done|]. by apply elem_of_map_to_list.
Qed.

(** X16 — the two queries of [backup], evaluated on one state of the
    database. An entry that [ready_to_backup] selects is a row without an
    object, none of whose children is without an object. On a shadow tree
    that is a forest (each entry has a longer path than its parent),
    [ready_to_backup] selects an entry whenever [to_backup] does. Nothing is
    stated of two queries between which a task of the pool has changed the
    table. *)
Theorem ready_to_backup_selects db :
  (∀ i entry, (i, entry) ∈ ready_to_backup db →
     fsentry db !! i = Some entry ∧ obj_id entry = None ∧ ¬ has_dirty_child db i)
  ∧ (ranked (fsentry db) → to_backup db ≠ [] → ready_to_backup db ≠ []).
Proof.
  split; [|apply ready_to_backup_nonempty].
  intros i entry Hin. destruct (ready_to_backup_rows db i entry Hin) as [Hrow Hobj].
  split_and!; [done..|]. by eapply ready_to_backup_children.
Qed.

Lemma ready_to_backup_selects_witness : ready_to_backup backup_db ≠ [].
Proof.
  destruct (ready_to_backup_selects backup_db) as [_ Hsome].
  apply Hsome; [|by vm_compute].
  intros x row p prow Hx Hp Hprow. simpl in Hx, Hprow.
  apply lookup_insert_Some in Hx as [[<- <-]|[_ Hx]]; [done|].
  apply lookup_singleton_Some in Hx as [<- <-]. simpl in Hp. injection Hp as <-.
  rewrite lookup_insert_eq in Hprow. injection Hprow as <-. simpl. lia.
Defined.

(** ** Entries that wait for each other *)

(** X17 — entries that wait for each other. If every entry without an
    object is the parent of an entry without an object (which takes a cycle
    of [parent] pointers), the first pass of the loop of [backup] selects
    nothing and the check [ct > 0] fires: the backup raises
    [AssertionError] and has changed nothing. *)
Theorem backup_cycle_asserts fuel repo fs now w :
  ¬ scan_pending (db_of w) →
  dirty_cycle (db_of w) →
  to_backup (db_of w) ≠ [] →
  ready_to_backup (db_of w) = []
  ∧ backup (S fuel) repo fs now w = (w, Raised AssertionError).
Proof.
  intros Hpending Hcycle Hto.
  assert (ready_to_backup (db_of w) = []) as Hready.
  { apply filter_none, Forall_forall. intros [i row] Hin. simpl. intros Hnot. apply Hnot.
    apply list_elem_of_filter in Hin as [Hobj Hin%elem_of_map_to_list]. simpl in Hobj.
    destruct (Hcycle i row Hin Hobj) as (j & child & Hj & Hdirty & Hp).
    apply list_elem_of_fmap. exists (j, child). split; [done|].
    apply list_elem_of_filter. split; [simpl; congruence|].
    apply list_elem_of_filter. split; [done|]. by apply elem_of_map_to_list. }
  split; [done|]. unfold backup.
  rewrite bool_decide_eq_false_2 by (by rewrite <-scan_pending_Exists).
  unfold backup_run. cbn [backup_loop]. rewrite Hready.
  by destruct (to_backup (db_of w)).
Qed.

Lemma backup_cycle_asserts_witness :
  backup 1 (sample_repo 2) fs_backup 0 cycle_world = (cycle_world, Raised AssertionError).
Proof.
  apply (backup_cycle_asserts 0 (sample_repo 2) fs_backup 0 cycle_world).
  - intros (i & row & Hrow & Hnew). simpl in Hrow.
    apply lookup_insert_Some in Hrow as [[<- <-]|[_ Hrow]]; [done|].
    apply lookup_singleton_Some in Hrow as [<- <-]. done.
  - intros i row Hrow _. simpl in Hrow.
    apply lookup_insert_Some in Hrow as [[<- <-]|[_ Hrow]].
    + exists 2%nat, dirty_a. by split_and!.
    + apply lookup_singleton_Some in Hrow as [<- <-].
      exists 1%nat, (set_parent_id (Some 2%nat) dirty_r). by split_and!.
  - by vm_compute.
Defined.

(** ** The scan of a directory *)

(** [create_entries] leaves the rows that have a parent as they are, and
    leaves, for each name, a row below the entry: a new row, or a row that
    was a root. *)
Lemma create_entries_rows names i self db log db' log' :
  (∀ x, is_Some (fsentry db !! x) → (x ≤ fsentry_seq db)%nat) →
  create_entries names i self db log = (log', Ok db') →
  (∀ x row, fsentry db !! x = Some row → is_Some (parent_id row) →
     fsentry db' !! x = Some row)
  ∧ (∀ n, n ∈ names →
       ∃ j row, fsentry db' !! j = Some row
                ∧ path row = os.path.join (path self) n
                ∧ parent_id row = Some i
                ∧ ∀ row0, fsentry db !! j = Some row0 → parent_id row0 = None).
Proof.
  revert db log. induction names as [|n names IH]; intros db log Hkeys; simpl.
  { intros [= _ <-]. split; [done|]. by intros n ?%elem_of_nil. }
  unfold create.
  destruct (get_by_path (fsentry db) (os.path.join (path self) n))
    as [[j newentry]|] eqn:Hget.
  - destruct (parent_id newentry) eqn:Hroot; [done|].
    apply get_by_path_Some in Hget as [Hj Hpath].
    intros [Hkept Hnames]%IH.
    2:{ simpl. intros x. rewrite lookup_alter_is_Some. apply Hkeys. }
    simpl in *. split.
    + intros x row Hx [p Hp]. apply Hkept; [|by eexists].
      rewrite lookup_alter_ne; [done|]. intros ->. congruence.
    + intros n' [->|Hn']%elem_of_cons.
      * exists j, (set_parent_id (Some i) newentry). split_and!; [|done..|].
        -- apply Hkept; [|by eexists]. by rewrite lookup_alter_eq, Hj.
        -- intros row0 Hrow0. congruence.
      * destruct (Hnames n' Hn') as (j' & row' & Hj' & Hp' & Hi' & Hroot').
        exists j', row'. split_and!; [done..|]. intros row0 Hrow0.
        destruct (decide (j' = j)) as [->|Hne].
        -- specialize (Hroot' (set_parent_id (Some i) newentry)).
           rewrite lookup_alter_eq, Hj in Hroot'. by specialize (Hroot' eq_refl).
        -- apply Hroot'. by rewrite lookup_alter_ne.
  - intros [Hkept Hnames]%IH.
    2:{ simpl. intros x [r [[<- _]|[_ Hx]]%lookup_insert_Some]; [lia|].
        specialize (Hkeys x (ex_intro _ r Hx)). lia. }
    simpl in *.
    assert (fsentry db !! S (fsentry_seq db) = None) as Hfresh.
    { destruct (fsentry db !! S (fsentry_seq db)) eqn:Hs; [|done].
      specialize (Hkeys _ (ex_intro _ _ Hs)). lia. }
    split.
    + intros x row Hx Hp. apply Hkept; [|done].
      rewrite lookup_insert_ne; [done|]. intros <-. congruence.
    + intros n' [->|Hn']%elem_of_cons.
      * eexists (S (fsentry_seq db)), _. split_and!.
        -- apply Hkept; [apply lookup_insert_eq|]. by eexists.
        -- done.
        -- done.
        -- intros row0 Hrow0. congruence.
      * destruct (Hnames n' Hn') as (j' & row' & Hj' & Hp' & Hi' & Hroot').
        exists j', row'. split_and!; [done..|]. intros row0 Hrow0.
        apply Hroot'. rewrite lookup_insert_ne; [done|]. intros <-. congruence.
Qed.

Lemma delete_old_keeps cs entries tbl log x row :
  tbl !! x = Some row →
  (∀ c child, (c, child) ∈ cs → name child ∉ entries → ¬ ancestor_or_self tbl x c) →
  (delete_old cs entries tbl log).1 !! x = Some row.
Proof.
  revert tbl log. induction cs as [|[c child] cs IH]; intros tbl log Hx Hnot; simpl.
  { done. }
  case_bool_decide as Hname.
  - apply IH; [done|]. intros c' child' Hin. apply Hnot. by right.
  - apply IH.
    + destruct (tbl !! c) as [crow|] eqn:Hc.
      * apply delete_cascade_lookup; [done|]. split; [done|]. eapply Hnot; [by left|done].
      * by rewrite delete_cascade_absent.
    + intros c' child' Hin Hname' Hanc. eapply (Hnot c' child'); [by right|done|].
      eapply ancestor_or_self_weaken; [apply delete_cascade_subseteq|done].
Qed.

Lemma delete_old_deletes cs entries tbl log c child :
  (c, child) ∈ cs → name child ∉ entries →
  (delete_old cs entries tbl log).1 !! c = None.
Proof.
  revert tbl log. induction cs as [|[c' child'] cs IH]; intros tbl log Hin Hname; simpl.
  { by apply elem_of_nil in Hin. }
  apply elem_of_cons in Hin as [[= <- <-]|Hin].
  - rewrite bool_decide_eq_false_2 by done.
    eapply lookup_weaken_None; [apply delete_cascade_self | apply delete_old_subseteq].
  - case_bool_decide; by apply IH.
Qed.

(** Going up a ranked forest, the paths do not get longer. *)
Lemma ancestor_or_self_length tbl a b arow brow :
  ranked tbl → ancestor_or_self tbl a b →
  tbl !! a = Some arow → tbl !! b = Some brow →
  (String.length (path brow) ≤ String.length (path arow))%nat.
Proof.
  intros Hranked Hanc. revert arow.
  induction Hanc as [a|a row p b Ha Hp Hanc IH]; intros arow Harow Hbrow.
  { simplify_eq. lia. }
  simplify_eq. destruct (tbl !! p) as [prow|] eqn:Hprow.
  - pose proof (Hranked _ _ _ _ Ha Hp Hprow). specialize (IH prow eq_refl Hbrow). lia.
  - inversion Hanc; simplify_eq.
Qed.

(** In a ranked forest no child of an entry is below another child. *)
Lemma not_below_sibling tbl i x row c crow :
  ranked tbl → tbl !! x = Some row → parent_id row = Some i →
  tbl !! c = Some crow → parent_id crow = Some i → x ≠ c →
  ¬ ancestor_or_self tbl x c.
Proof.
  intros Hranked Hx Hp Hc Hcp Hne Hanc.
  inversion Hanc as [|x' row' p a Hx' Hp' Hup]; simplify_eq.
  destruct (tbl !! i) as [irow|] eqn:Hi.
  - pose proof (Hranked _ _ _ _ Hc Hcp Hi).
    pose proof (ancestor_or_self_length _ _ _ _ _ Hranked Hup Hi Hc). lia.
  - inversion Hup; simplify_eq.
Qed.

(** X18 — a directory is brought in line with its listing. On a ranked
    forest, when [scan] returns for a changed directory whose listing can be
    read: the recorded children whose name is no longer listed are gone;
    the recorded children whose name is listed are kept exactly as they
    were (not even invalidated); and each listed name that no recorded
    child bears has a row below the entry, at the path of the entry joined
    with the name. *)
Theorem scan_directory_listing fuel fs db i self st names :
  ranked (fsentry db) → ids_bounded db → fsentry db !! i = Some self →
  listing_ok fs (path self) →
  os.lstat fs (path self) = Ok st → changed self st →
  stat.S_ISDIR (os.st_mode st) = true →
  os.listdir fs (path self) = Ok names →
  sr_outcome (scan fuel fs db i self) = Finished →
  (∀ c crow, fsentry db !! c = Some crow → parent_id crow = Some i →
     name crow ∉ names →
     fsentry (sr_db (scan fuel fs db i self)) !! c = None)
  ∧ (∀ c crow, fsentry db !! c = Some crow → parent_id crow = Some i →
       name crow ∈ names →
       fsentry (sr_db (scan fuel fs db i self)) !! c = Some crow)
  ∧ (∀ n, n ∈ names →
       (∀ c crow, fsentry db !! c = Some crow → parent_id crow = Some i →
          name crow ≠ n) →
       ∃ j row, fsentry (sr_db (scan fuel fs db i self)) !! j = Some row
                ∧ path row = os.path.join (path self) n
                ∧ parent_id row = Some i).
Proof.
  intros Hranked Hbounded Hi Hlist Hstat Hch Hdir Hnames Hout.
  destruct (scan_changed_cases fuel fs db i self st Hstat Hch)
    as (db1 & log1 & Hd & _ & Hcases).
  destruct (Hd Hdir) as [-> ->]. clear Hd. rewrite Hdir in Hcases. simpl in Hcases.
  set (self' := update_stat_info (set_new false (set_obj_id None self)) st) in *.
  destruct (scan_directory fs i self' db _) as [log2 [db2|x]] eqn:Hsd.
  2:{ by rewrite Hcases in Hout. }
  unfold save in Hcases. destruct (storable self'); [|by rewrite Hcases in Hout].
  destruct (invalidate fuel _ i) as [tbl'|] eqn:Hinv; [|by rewrite Hcases in Hout].
  rewrite Hcases. simpl. clear Hcases Hout.
  (* the steps of [scan_directory] *)
  assert (scan_inv i self' db) as Hinv0.
  { apply (scan_inv_instance i self); [done..|]. by apply scan_inv_init. }
  pose proof (scan_directory_inv fs i self' db _ db2 log2 Hlist Hinv0 Hsd) as Hinv2.
  unfold scan_directory, listdir_entries in Hsd.
  change (path self') with (path self) in Hsd. rewrite Hnames in Hsd.
  destruct (create_entries _ _ _ _ _) as [logc [dbc|x]] eqn:Hcreate; [|done].
  destruct (delete_old _ _ _ _) as [T2 log3] eqn:Hdel. simplify_eq/=.
  assert (scan_inv i self' dbc) as Hinv1.
  { refine (create_entries_inv _ _ _ _ _ _ _ _ Hinv0 Hcreate).
    intros n [Hn%elem_of_list_to_set _]%elem_of_elements%elem_of_difference.
    by eapply Hlist. }
  assert (∀ x, is_Some (fsentry db !! x) → (x ≤ fsentry_seq db)%nat) as Hkeys.
  { intros x [r Hx]. by destruct (Hbounded x r Hx). }
  destruct (create_entries_rows _ _ _ _ _ _ _ Hkeys Hcreate) as [Hkept Hcreated].
  assert (T2 = (delete_old (children (fsentry db) i) (list_to_set names)
                  (fsentry dbc) logc).1) as HT2 by (by rewrite Hdel).
  clear Hdel Hcreate.
  assert (∀ c crow, (c, crow) ∈ children (fsentry db) i ↔
                    fsentry db !! c = Some crow ∧ parent_id crow = Some i) as Hchildren.
  { intros c crow. unfold children. rewrite list_elem_of_filter, elem_of_map_to_list.
    simpl. tauto. }
  (* a row below the entry that is no unlisted child stays *)
  assert (∀ x row, fsentry dbc !! x = Some row → parent_id row = Some i →
            (∀ c crow, fsentry db !! c = Some crow → parent_id crow = Some i →
               name crow ∉ names → x ≠ c) →
            T2 !! x = Some row) as Hstays.
  { intros x row Hx Hp Hne. rewrite HT2. apply delete_old_keeps; [done|].
    intros c crow [Hc Hcp]%Hchildren Hname.
    eapply (not_below_sibling _ i x row c crow); [apply Hinv1|done..| |done|].
    - apply Hkept; [done|]. by eexists.
    - eapply Hne; [done..|]. by rewrite elem_of_list_to_set in Hname. }
  apply invalidate_lookup in Hinv as (ids & Hids & Hlook).
  pose proof (scan_inv_save _ _ _ Hinv2) as Hrankedf. simpl in Hrankedf.
  assert (∀ c crow, fsentry db !! c = Some crow → parent_id crow = Some i → c ≠ i)
    as Hnoti.
  { intros c crow Hc Hcp ->. simplify_eq.
    destruct (inv_parent_id _ _ _ Hinv0 i Hcp) as [Hne _]. done. }
  split_and!.
  - intros c crow Hc Hcp Hname.
    rewrite Hlook, lookup_insert_ne by (by intros <-; eapply Hnoti).
    rewrite HT2, (delete_old_deletes _ _ _ _ c crow); [done| |].
    + by apply Hchildren.
    + by rewrite elem_of_list_to_set.
  - intros c crow Hc Hcp Hname.
    assert (c ≠ i) as Hci by (by eapply Hnoti).
    assert (T2 !! c = Some crow) as Hc2.
    { apply Hstays; [|done|].
      - apply Hkept; [done|]. by eexists.
      - intros c2 crow2 Hc2 Hcp2 Hname2 <-. simplify_eq. }
    rewrite Hlook, lookup_insert_ne, Hc2 by done. simpl.
    rewrite bool_decide_eq_false_2; [done|]. intros Hin.
    unfold ancestors in Hids. rewrite lookup_insert_eq in Hids.
    pose proof (ancestors_from_sound _ _ _ _ _ Hids Hin) as Hanc.
    assert (<[i:=self']> T2 !! c = Some crow) as Hcf by (by rewrite lookup_insert_ne).
    pose proof (ancestor_or_self_length _ _ _ _ _ Hrankedf Hanc
                  (lookup_insert_eq _ _ _) Hcf).
    pose proof (Hrankedf c crow i self' Hcf Hcp (lookup_insert_eq _ _ _)). lia.
  - intros n Hn Hnew.
    destruct (Hcreated n) as (j & row & Hj & Hpath & Hp & Hroot).
    { apply elem_of_elements, elem_of_difference. split; [by apply elem_of_list_to_set|].
      intros ([c crow] & Hname & [Hc Hcp]%Hchildren)%elem_of_list_to_set%list_elem_of_fmap.
      simpl in Hname. by eapply Hnew. }
    assert (j ≠ i) as Hji.
    { intros ->. pose proof (inv_row _ _ _ Hinv1 _ Hj) as Hsame. simpl in Hsame.
      destruct (Hlist names n Hnames Hn) as [Hne Hsep].
      pose proof (join_longer (path self) n Hne Hsep) as Hlen.
      assert (String.length (path self) < String.length (path row))%nat as Hlt.
      { rewrite Hpath. exact Hlen. }
      rewrite Hsame in Hlt. simpl in Hlt. lia. }
    assert (T2 !! j = Some row) as Hj2.
    { apply Hstays; [done..|]. intros c crow Hc Hcp _ <-.
      specialize (Hroot _ Hc). congruence. }
    exists j, (if bool_decide (j ∈ ids) then set_obj_id None row else row). split.
    + by rewrite Hlook, lookup_insert_ne, Hj2.
    + by destruct (bool_decide _).
Qed.

(** The sample tree is a ranked forest. *)
Lemma scan_db_ranked : ranked (fsentry scan_db).
Proof.
  intros x row p prow Hx Hp Hprow. simpl in Hx, Hprow.
  apply lookup_insert_Some in Hx as [[<- <-]|[_ Hx]]; [done|].
  apply lookup_singleton_Some in Hx as [<- <-]. simpl in Hp. injection Hp as <-.
  rewrite lookup_insert_eq in Hprow. injection Hprow as <-. simpl. lia.
Qed.

Lemma scan_db_bounded : ids_bounded scan_db.
Proof.
  intros x row Hx. simpl in Hx.
  apply lookup_insert_Some in Hx as [[<- <-]|[_ Hx]]; [simpl; split; [lia|done]|].
  apply lookup_singleton_Some in Hx as [<- <-]. simpl. split; [lia|].
  intros p [= <-]. lia.
Qed.

Lemma scan_directory_listing_witness :
  fsentry (sr_db (scan 5 fs_grown scan_db 1 row_r)) !! 2%nat = None
  ∧ ∃ j row, fsentry (sr_db (scan 5 fs_grown scan_db 1 row_r)) !! j = Some row
             ∧ path row = os.path.join (path row_r) "b"
             ∧ parent_id row = Some 1%nat.
Proof.
  destruct (scan_directory_listing 5 fs_grown scan_db 1 row_r (stat_of mode_dir 200 4096)
              ["b"] scan_db_ranked scan_db_bounded eq_refl)
    as (Hgone & _ & Hnew); try reflexivity.
  - intros names n [= <-] ->%list_elem_of_singleton. done.
  - right. reflexivity.
  - split.
    + apply (Hgone 2%nat row_a); [reflexivity..|].
      intros Hin%list_elem_of_singleton. vm_compute in Hin. discriminate.
    + apply (Hnew "b"); [apply list_elem_of_here|].
      intros c crow Hc Hp. simpl in Hc.
      apply lookup_insert_Some in Hc as [[<- <-]|[_ Hc]]; [done|].
      apply lookup_singleton_Some in Hc as [<- <-]. by vm_compute.
Defined.

(** ** Dependencies between entries *)

Lemma read_failed_raises (P : exn → Prop) x w i e :
  P x → gen_raises P (read_failed x w i e).
Proof.
  intros Hx. destruct x as [| | | | | | | | | |err| | | | |]; try (by constructor).
  destruct err; constructor.
Qed.

Lemma yield_and_save_raises (P : exn → Prop) w i e payload obj relations fmt :
  payload ≠ [] → P OverflowError →
  gen_raises P (yield_and_save w i e (payload, obj, relations) fmt).
Proof.
  intros Hne Hx. constructor; [done|]. intros sent w'. simpl.
  unfold save. by destruct (storable _); constructor.
Qed.

Lemma chunk_loop_raises (P : exn → Prop) chunks failure inode_buf obj chunk_list
    relations w i e :
  (∀ x, failure = Some x → ∃ err, x = OSError err) →
  (∀ x, entry_exn x → x ≠ DependencyError → P x) →
  gen_raises P (chunk_loop chunks failure inode_buf obj chunk_list relations w i e).
Proof.
  intros Hfail HP. destruct chunks as [|[pos chunk] rest].
  - simpl. destruct failure as [x|].
    + apply read_failed_raises. destruct (Hfail x eq_refl) as [err ->]. by apply HP.
    + destruct (pack _ inode_buf) as [buf|x] eqn:Hpack.
      * apply pack_ok in Hpack as [-> _].
        apply yield_and_save_raises; [by destruct inode_buf | by apply HP].
      * apply pack_exc in Hpack as [-> _]. apply read_failed_raises. by apply HP.
  - destruct (chunk_loop_cons pos chunk rest failure inode_buf obj chunk_list
                relations w i e) as (x & -> & Hx).
    constructor. by destruct (packs (MBin chunk)); subst x; apply HP.
Qed.

Lemma backup_iterator_raises fs cs w i e threshold :
  gen_raises (entry_error fs w i e) (backup_iterator fs cs w i e threshold).
Proof.
  assert (∀ x, entry_exn x → x ≠ DependencyError → entry_error fs w i e x) as HP.
  { intros x Hx Hne. by split. }
  unfold backup_iterator.
  destruct (os.lstat fs (path e)) as [st|x] eqn:Hstat.
  2:{ apply syscall_exc in Hstat as [err ->].
      destruct err; constructor; by apply HP. }
  destruct (stat.S_ISREG (os.st_mode st)).
  - cbv zeta.
    match goal with |- gen_raises _ (match ?r with _ => _ end) =>
      destruct r as [inode_buf|x] eqn:Hbuf end.
    2:{ constructor. apply inode_header_exc in Hbuf as [? ?]. by apply HP. }
    apply inode_header_ok in Hbuf as (-> & _ & _).
    destruct (_open_file fs (path _)) as [fobj|x] eqn:Hopen.
    2:{ apply read_failed_raises. apply _open_file_exc in Hopen as [err ->].
        by apply HP. }
    destruct (os.st_size st <? threshold).
    + destruct (os.read fobj) as [data|x] eqn:Hread.
      * rewrite res_bind_ok.
        destruct (pack _ _) as [buf|x] eqn:Hpack.
        -- apply pack_ok in Hpack as [-> _].
           apply yield_and_save_raises; [done | by apply HP].
        -- apply pack_exc in Hpack as [-> _]. apply read_failed_raises. by apply HP.
      * rewrite res_bind_exc. apply read_failed_raises.
        apply read_exc in Hread as [err ->]. by apply HP.
    + destruct (chunker.FixedChunker cs fobj) as [chunks failure] eqn:Hchunks.
      apply chunk_loop_raises; [|done]. intros x ->. by eapply FixedChunker_from_failure.
  - destruct (stat.S_ISDIR (os.st_mode st)) eqn:Hdir; [|constructor].
    cbv zeta. case_bool_decide as Hdirty.
    + constructor. split; [done|]. intros _. split; [done|]. by exists st.
    + match goal with |- gen_raises _ (match ?r with _ => _ end) =>
        destruct r as [[buf relations]|x] eqn:Hbuf end.
      * apply tree_header_ok in Hbuf as (_ & _ & ->).
        apply yield_and_save_raises; [done | by apply HP].
      * constructor. apply tree_header_exc in Hbuf as [? ?]. by apply HP.
Qed.

Lemma drive_gen_raises (P : exn → Prop) repo g pushed x :
  (∀ err, P (OSError err)) → gen_raises P g →
  er_outcome (drive repo g pushed) = Raised x → P x.
Proof.
  intros Hos Hg. revert pushed.
  induction Hg as [w e id|y w e id Hy|w e id payload obj relations k Hne Hk IH];
    intros pushed; simpl.
  - done.
  - destruct y; simpl; try done; by intros [= <-].
  - destruct (push_object repo (db_of w) payload obj relations) as [[db sent]|y] eqn:Hp.
    + apply IH.
    + apply push_object_exc in Hp as [err ->]; [|done]. simpl. by intros [= <-].
Qed.

Lemma backup_entry_raises_only repo fs w i entry x :
  er_outcome (backup_entry repo fs w i entry) = Raised x → entry_error fs w i entry x.
Proof.
  intros Hout.
  destruct (drive_contract repo i
              (backup_iterator fs (chunk_size repo) w i entry (backup_inline_threshold repo))
              [] (backup_iterator_contract _ _ _ _ _ _)) as [_ Hexit].
  revert Hout. unfold backup_entry.
  pose proof (drive_gen_raises (entry_error fs w i entry) repo
                (backup_iterator fs (chunk_size repo) w i entry
                   (backup_inline_threshold repo)) [] x
                (λ err, conj I (λ H : OSError err = DependencyError,
                                  False_ind _ (eq_ind (OSError err)
                                    (λ y, match y with OSError _ => True | _ => False end)
                                    I _ H)))
                (backup_iterator_raises _ _ _ _ _ _)) as Hdrive.
  destruct (er_outcome (drive repo _ [])) as [|y|] eqn:Hd.
  - destruct (Hexit eq_refl) as [[Hid Hrow]|(Hid & [o Hobj] & Hrow)].
    + rewrite bool_decide_eq_true_2 by (by right). by rewrite Hd.
    + rewrite bool_decide_eq_true_2 by (left; by rewrite Hobj). by rewrite Hd.
  - rewrite Hd. intros [= <-]. by apply Hdrive.
  - by rewrite Hd.
Qed.

(** X19 — when a directory waits for its children. [backup_entry] raises
    [DependencyError] exactly when the entry is still a directory and one
    of its children has no object; it has then pushed nothing and left the
    database and the log as they were. *)
Theorem backup_entry_dependency repo fs w i entry :
  (er_outcome (backup_entry repo fs w i entry) = Raised DependencyError
   ↔ ∃ st, os.lstat fs (path entry) = Ok st
           ∧ stat.S_ISDIR (os.st_mode st) = true
           ∧ has_dirty_child (db_of w) i)
  ∧ (er_outcome (backup_entry repo fs w i entry) = Raised DependencyError →
       er_world (backup_entry repo fs w i entry) = w
       ∧ er_pushed (backup_entry repo fs w i entry) = []).
Proof.
  assert (∀ st, os.lstat fs (path entry) = Ok st →
                stat.S_ISDIR (os.st_mode st) = true →
                has_dirty_child (db_of w) i →
                backup_entry repo fs w i entry
                = {| er_world := w; er_entry := update_stat_info entry st;
                     er_id := Some i; er_pushed := [];
                     er_outcome := Raised DependencyError |}) as Hraise.
  { intros st Hstat Hdir Hdirty. unfold backup_entry, backup_iterator.
    rewrite Hstat, Hdir.
    assert (stat.S_ISREG (os.st_mode st) = false) as ->.
    { unfold stat.S_ISDIR, stat.S_ISREG in *. lia. }
    by rewrite (bool_decide_eq_true_2 _ Hdirty). }
  assert (er_outcome (backup_entry repo fs w i entry) = Raised DependencyError →
          ∃ st, os.lstat fs (path entry) = Ok st
                ∧ stat.S_ISDIR (os.st_mode st) = true
                ∧ has_dirty_child (db_of w) i) as Hwhy.
  { intros [_ Hdep]%backup_entry_raises_only.
    destruct (Hdep eq_refl) as (Hdirty & st & Hstat & Hdir). by exists st. }
  split; [split; [done|]|].
  - intros (st & Hstat & Hdir & Hdirty). by rewrite (Hraise st).
  - intros (st & Hstat & Hdir & Hdirty)%Hwhy. by rewrite (Hraise st).
Qed.

Lemma backup_entry_dependency_witness :
  er_outcome (backup_entry (sample_repo 2) fs_backup backup_world 1 dirty_r)
  = Raised DependencyError.
Proof.
  destruct (backup_entry_dependency (sample_repo 2) fs_backup backup_world 1 dirty_r)
    as [[_ Hraise] _].
  apply Hraise. exists (stat_of mode_dir 100 4096). split_and!; [reflexivity..|].
  apply (bool_decide_unpack _). by vm_compute.
Defined.

(** The entries without an object after the backup of an entry are
    entries that had none before, unchanged; this for any instance and any
    row. *)
Lemma backup_entry_dirty_rows repo fs w0 w i entry :
  dirty_rows_of w0 w → dirty_rows_of w0 (er_world (backup_entry repo fs w i entry)).
Proof.
  apply (backup_entry_inv repo i (dirty_rows_of w0) (λ _, True)); try done.
  - intros w1 Hw1 x row Hx. apply Hw1.
    eapply lookup_weaken; [done|]. apply delete_cascade_subseteq.
  - intros w1 e o _ Hw1 x row. simpl.
    intros [[<- <-]|[_ Hx]]%lookup_insert_Some; [done|]. by apply Hw1.
  - intros w1 payload obj relations db sent Hw1 [_ Hf]%push_object_ok x row. simpl.
    rewrite Hf. apply Hw1.
Qed.

Lemma run_tasks_dirty_rows repo tasks w0 w :
  dirty_rows_of w0 w → dirty_rows_of w0 (run_tasks repo tasks w).
Proof.
  revert w. induction tasks as [|[fs [j e]] tasks IH]; intros w Hw; simpl; [done|].
  apply IH. by apply backup_entry_dirty_rows.
Qed.

Lemma ready_has_no_dirty_child w0 w i entry :
  dirty_rows_of w0 w → (i, entry) ∈ ready_to_backup (db_of w0) →
  ¬ has_dirty_child (db_of w) i.
Proof.
  intros Hrows [Hnot _]%list_elem_of_filter
    ([c crow] & [Hp Hc%elem_of_map_to_list]%list_elem_of_filter & Hdirty)%Exists_exists.
  simpl in *. apply Hnot. apply list_elem_of_fmap. exists (c, crow). split; [done|].
  apply list_elem_of_filter. split; [simpl; congruence|].
  apply list_elem_of_filter. split; [done|]. apply elem_of_map_to_list. by apply Hrows.
Qed.

(** X20 — the order of the backup, whatever the schedule of the pool. An
    entry that [ready_to_backup] selected in some state of the database is
    backed up without [DependencyError], whichever tasks the worker ran
    between the query and the backup of the entry, on whichever instances
    and in whichever order, the entry itself included, and whatever became
    of the filesystem: the backup of an entry creates no row and takes the
    object of none, so that the children of the entry all have an object
    still. *)
Theorem backup_no_dependency_error repo fs tasks w0 i entry :
  (i, entry) ∈ ready_to_backup (db_of w0) →
  er_outcome (backup_entry repo fs (run_tasks repo tasks w0) i entry)
  ≠ Raised DependencyError.
Proof.
  intros Hready Hraised.
  assert (dirty_rows_of w0 (run_tasks repo tasks w0)) as Hrows.
  { apply run_tasks_dirty_rows. by intros x row. }
  apply backup_entry_raises_only in Hraised as [_ Hdep].
  destruct (Hdep eq_refl) as [Hdirty _].
  by eapply (ready_has_no_dirty_child w0 _ i entry).
Qed.

Lemma backup_no_dependency_error_witness :
  er_outcome (backup_entry (sample_repo 10) fs_backup
                (run_tasks (sample_repo 10) [(fs_backup, (2%nat, dirty_a))]
                   (er_world (backup_entry (sample_repo 10) fs_backup backup_world
                                2 dirty_a)))
                1 dirty_r)
  ≠ Raised DependencyError.
Proof.
  apply (backup_no_dependency_error (sample_repo 10) fs_backup
           [(fs_backup, (2%nat, dirty_a))]
           (er_world (backup_entry (sample_repo 10) fs_backup backup_world 2 dirty_a))
           1 dirty_r).
  assert (ready_to_backup
            (db_of (er_world (backup_entry (sample_repo 10) fs_backup backup_world
                                2 dirty_a)))
          = [(1%nat, dirty_r)]) as -> by (vm_compute; reflexivity).
  apply list_elem_of_here.
Defined.

(** ** The object of an entry *)

Lemma push_object_stored repo db payload obj relations db' sent :
  push_object repo db payload obj relations = Ok (db', sent) →
  sent ∈ objects db' ∧ objid sent = hash repo payload.
Proof.
  intros Hpush. split; [|by eapply push_object_ok].
  revert Hpush. unfold push_object.
  destruct (list_find _ _) as [[n existing]|] eqn:Hfind.
  - intros [= <- <-]. apply list_find_Some in Hfind as (Hn & _).
    by eapply list_elem_of_lookup_2.
  - destruct (put repo _ _); [done|].
    destruct (load_payload _ payload) as [saved|x]; [|done]. simpl.
    intros [= <- <-]. simpl. apply elem_of_app. right. by left.
Qed.

Lemma drive_yield_and_save repo w i e payload obj relations fmt pushed :
  payload ≠ [] →
  er_outcome (drive repo (yield_and_save w i e (payload, obj, relations) fmt) pushed)
    = Finished →
  entry_saved repo i e pushed
    (drive repo (yield_and_save w i e (payload, obj, relations) fmt) pushed).
Proof.
  intros Hne. unfold yield_and_save. simpl.
  destruct (push_object repo _ _ _ _) as [[db sent]|x] eqn:Hpush; simpl.
  - unfold save. destruct (storable _); simpl; [|done].
    intros _. apply push_object_stored in Hpush as [Hin Hid].
    exists payload, obj, relations, []. simpl. rewrite Hid.
    split_and!; [done..|apply lookup_insert_eq|]. by exists sent.
  - apply push_object_exc in Hpush as [err ->]; done.
Qed.

Lemma drive_chunk_loop_saved repo chunks failure inode_buf obj chunk_list relations
    w i e pushed :
  (∀ x, failure = Some x → ∃ err, x = OSError err) →
  er_outcome (drive repo
    (chunk_loop chunks failure inode_buf obj chunk_list relations w i e) pushed) = Finished →
  er_id (drive repo
    (chunk_loop chunks failure inode_buf obj chunk_list relations w i e) pushed) = Some i →
  entry_saved repo i e pushed
    (drive repo (chunk_loop chunks failure inode_buf obj chunk_list relations w i e) pushed).
Proof.
  intros Hfail. destruct chunks as [|[pos chunk] rest].
  - simpl. destruct failure as [x|].
    + destruct (Hfail x eq_refl) as [[] ->]; simpl; done.
    + destruct (pack _ inode_buf) as [buf|x] eqn:Hpack.
      * apply pack_ok in Hpack as [-> _].
        intros Hout _. apply drive_yield_and_save; [by destruct inode_buf|done].
      * apply pack_exc in Hpack as [-> _]. done.
  - destruct (chunk_loop_cons pos chunk rest failure inode_buf obj chunk_list
                relations w i e) as (x & -> & Hx).
    rewrite drive_raise by (by destruct (packs (MBin chunk)); subst x). done.
Qed.

(** X21 — the object of an entry is the digest of its payload. When
    [backup_entry] returns and has kept the entry, [lstat] had succeeded,
    the last payload pushed is that of the entry, the instance carries the
    stat information read and, as [obj], the digest of that payload; row
    [i] holds the instance, and [objects] holds a row with that id. *)
Theorem backup_entry_saved repo fs w i entry :
  er_outcome (backup_entry repo fs w i entry) = Finished →
  er_id (backup_entry repo fs w i entry) = Some i →
  ∃ st payload obj relations more,
    os.lstat fs (path entry) = Ok st
    ∧ er_pushed (backup_entry repo fs w i entry) = more ++ [(payload, obj, relations)]
    ∧ er_entry (backup_entry repo fs w i entry)
      = set_obj_id (Some (hash repo payload)) (update_stat_info entry st)
    ∧ fsentry (db_of (er_world (backup_entry repo fs w i entry))) !! i
      = Some (er_entry (backup_entry repo fs w i entry))
    ∧ ∃ o, o ∈ objects (db_of (er_world (backup_entry repo fs w i entry)))
           ∧ objid o = hash repo payload.
Proof.
  assert (er_outcome (drive repo (backup_iterator fs (chunk_size repo) w i entry
                                    (backup_inline_threshold repo)) []) = Finished →
          er_id (drive repo (backup_iterator fs (chunk_size repo) w i entry
                               (backup_inline_threshold repo)) []) = Some i →
          ∃ st, os.lstat fs (path entry) = Ok st
                ∧ entry_saved repo i (update_stat_info entry st) []
                    (drive repo (backup_iterator fs (chunk_size repo) w i entry
                                   (backup_inline_threshold repo)) [])) as Hdrive.
  { unfold backup_iterator.
    destruct (os.lstat fs (path entry)) as [st|x] eqn:Hstat.
    2:{ apply syscall_exc in Hstat as [[] ->]; simpl; done. }
    intros Hout Hid. exists st. split; [done|]. revert Hout Hid.
    destruct (stat.S_ISREG (os.st_mode st)).
    - cbv zeta. change (path (update_stat_info entry st)) with (path entry).
      match goal with |- context [match ?r with Ok _ => _ | Exc _ => _ end] =>
        destruct r as [inode_buf|x] eqn:Hbuf end.
      2:{ apply inode_header_exc in Hbuf as [Hx _].
          rewrite drive_raise by (by destruct x). done. }
      apply inode_header_ok in Hbuf as (-> & _ & _).
      destruct (_open_file fs (path entry)) as [fobj|x] eqn:Hopen.
      2:{ apply _open_file_exc in Hopen as [[] ->]; simpl; done. }
      destruct (os.st_size st <? _).
      + destruct (os.read fobj) as [data|x] eqn:Hread.
        2:{ apply read_exc in Hread as [[] ->]; simpl; done. }
        rewrite res_bind_ok.
        destruct (pack _ _) as [buf|x] eqn:Hpack.
        * apply pack_ok in Hpack as [-> _].
          intros Hout _. by apply drive_yield_and_save.
        * apply pack_exc in Hpack as [-> _]. done.
      + destruct (chunker.FixedChunker (chunk_size repo) fobj) as [chunks failure] eqn:Hc.
        apply drive_chunk_loop_saved. intros x ->. by eapply FixedChunker_from_failure.
    - destruct (stat.S_ISDIR (os.st_mode st)); [|done].
      cbv zeta. case_bool_decide; [done|].
      match goal with |- context [match ?r with Ok _ => _ | Exc _ => _ end] =>
        destruct r as [[buf relations]|x] eqn:Hbuf end.
      + apply tree_header_ok in Hbuf as (_ & _ & ->).
        intros Hout _. by apply drive_yield_and_save.
      + apply tree_header_exc in Hbuf as [Hx _].
        rewrite drive_raise by (by destruct x). done. }
  unfold backup_entry.
  destruct (er_outcome (drive repo _ [])) eqn:Hout; [|by rewrite Hout..].
  case_bool_decide; [|done]. rewrite Hout. intros _ Hid.
  destruct (Hdrive eq_refl Hid) as (st & Hstat & payload & obj & rels & more & Hsaved).
  by exists st, payload, obj, rels, more.
Qed.

Lemma backup_entry_saved_witness :
  ∃ st payload obj relations more,
    os.lstat fs_backup (path dirty_a) = Ok st
    ∧ er_pushed (backup_entry (sample_repo 10) fs_backup backup_world 2 dirty_a)
      = more ++ [(payload, obj, relations)]
    ∧ er_entry (backup_entry (sample_repo 10) fs_backup backup_world 2 dirty_a)
      = set_obj_id (Some (hash (sample_repo 10) payload)) (update_stat_info dirty_a st)
    ∧ fsentry (db_of (er_world (backup_entry (sample_repo 10) fs_backup backup_world 2
                                  dirty_a))) !! 2%nat
      = Some (er_entry (backup_entry (sample_repo 10) fs_backup backup_world 2 dirty_a))
    ∧ ∃ o, o ∈ objects (db_of (er_world (backup_entry (sample_repo 10) fs_backup
                                           backup_world 2 dirty_a)))
           ∧ objid o = hash (sample_repo 10) payload.
Proof.
  apply (backup_entry_saved (sample_repo 10) fs_backup backup_world 2 dirty_a);
    reflexivity.
Defined.

(** ** What the backup of an entry pushes *)

Lemma drive_gen_single (Q : Yielded → Prop) repo g :
  gen_single Q g →
  er_pushed (drive repo g []) = []
  ∨ ∃ y, er_pushed (drive repo g []) = [y] ∧ Q y.
Proof.
  intros [g' Hlast|w e id [[payload obj] relations] k Hy Hk].
  - left. destruct g' as [w e id|x w e id|]; [done| |done]. by destruct x.
  - simpl. destruct (push_object repo (db_of w) payload obj relations)
      as [[db sent]|x]; [|left; by destruct x].
    right. exists (payload, obj, relations). split; [|done].
    specialize (Hk sent (set_db db w)).
    destruct (k sent (set_db db w)) as [w1 e1 id1|x w1 e1 id1|]; [done| |done].
    by destruct x.
Qed.

Lemma read_failed_last x w i e : gen_last (read_failed x w i e).
Proof. destruct x as [| | | | | | | | | |[]| | | | |]; done. Qed.

Lemma yield_and_save_single (Q : Yielded → Prop) w i e y fmt :
  Q y → gen_single Q (yield_and_save w i e y fmt).
Proof.
  intros Hy. apply gen_single_yield; [done|]. intros sent w'. simpl.
  unfold save. by destruct (storable _).
Qed.

Lemma chunk_loop_single chunks failure info obj w i e :
  gen_single entry_payload
    (chunk_loop chunks failure [MStr "inode"; info] obj [] [] w i e).
Proof.
  destruct chunks as [|[pos chunk] rest].
  - cbn [chunk_loop]. destruct failure as [x|]; [apply gen_single_last, read_failed_last|].
    destruct (pack _ _) as [buf|x] eqn:Hpack;
      [|apply gen_single_last, read_failed_last].
    apply pack_ok in Hpack as [-> _]. apply yield_and_save_single.
    split; [done|]. intros oid o [= <-]. by left.
  - destruct (chunk_loop_cons pos chunk rest failure [MStr "inode"; info] obj [] []
                w i e) as (x & -> & _).
    by apply gen_single_last.
Qed.

Lemma backup_iterator_single fs cs w i e threshold :
  gen_single entry_payload (backup_iterator fs cs w i e threshold).
Proof.
  unfold backup_iterator.
  destruct (os.lstat fs (path e)) as [st|x].
  2:{ apply gen_single_last. destruct x as [| | | | | | | | | |[]| | | | |]; done. }
  destruct (stat.S_ISREG (os.st_mode st)).
  - cbv zeta.
    match goal with |- gen_single _ (match ?r with _ => _ end) =>
      destruct r as [inode_buf|x] eqn:Hbuf end; [|by apply gen_single_last].
    apply inode_header_ok in Hbuf as (-> & _ & _).
    destruct (_open_file fs (path _)) as [fobj|x];
      [|apply gen_single_last, read_failed_last].
    destruct (os.st_size st <? threshold).
    + destruct (os.read fobj) as [data|x];
        [rewrite res_bind_ok | apply gen_single_last, read_failed_last].
      destruct (pack _ _) as [buf|x] eqn:Hpack;
        [|apply gen_single_last, read_failed_last].
      apply pack_ok in Hpack as [-> _]. apply yield_and_save_single.
      split; [done|]. intros oid o [= <-]. destruct data as [|b data]; [by left|].
      right. split; [|done]. by eexists _, _, _.
    + destruct (chunker.FixedChunker cs fobj) as [chunks failure].
      apply chunk_loop_single.
  - destruct (stat.S_ISDIR (os.st_mode st)); [|by apply gen_single_last].
    cbv zeta. case_bool_decide; [by apply gen_single_last|].
    match goal with |- gen_single _ (match ?r with _ => _ end) =>
      destruct r as [[buf relations]|x] eqn:Hbuf end; [|by apply gen_single_last].
    apply tree_header_ok in Hbuf as (_ & -> & ->). apply yield_and_save_single.
    split; [done|]. intros oid o [= <-]. by left.
Qed.

(** X22 — what the backup of an entry pushes. A payload that
    [backup_entry] pushes is the only one it pushes, and it comes with no
    relation: no blob is pushed before an inode, and no tree is pushed for
    a directory that has a child. In the object loaded from the payload,
    [calculate_children] reads no child; the one exception is the inode of
    a file inlined with contents that are not empty, on which the reader
    raises [TypeError]. *)
Theorem backup_entry_pushes_single repo fs w i entry payload obj relations oid o :
  (payload, obj, relations) ∈ er_pushed (backup_entry repo fs w i entry) →
  load_payload {| objid := oid; payload := None |} payload = Ok o →
  er_pushed (backup_entry repo fs w i entry) = [(payload, obj, relations)]
  ∧ relations = []
  ∧ (calculate_children o = Ok []
     ∨ inlined_payload payload ∧ calculate_children o = Exc TypeError).
Proof.
  assert (er_pushed (backup_entry repo fs w i entry)
          = er_pushed (drive repo (backup_iterator fs (chunk_size repo) w i entry
                                     (backup_inline_threshold repo)) [])) as ->.
  { unfold backup_entry. destruct (er_outcome (drive repo _ [])); [|done..].
    by case_bool_decide. }
  destruct (drive_gen_single entry_payload repo _
              (backup_iterator_single fs (chunk_size repo) w i entry
                 (backup_inline_threshold repo))) as [->|(y & -> & Hrel & Hy)].
  { by intros ?%elem_of_nil. }
  intros <-%list_elem_of_singleton Hload. simpl in *. split_and!; [done..|].
  by apply (Hy oid o).
Qed.

Lemma backup_entry_pushes_single_witness :
  er_pushed (backup_entry (sample_repo 10) fs_backup backup_world 2 dirty_a)
  = [([MStr "inode"; inode_info (stat_of mode_reg 50 3);
       MList [MStr "immediate"; MBin [Byte.x61; Byte.x62; Byte.x63]]],
      inode_object (stat_of mode_reg 50 3), [])]
  ∧ calculate_children
      {| objid := id1;
         payload := Some [MStr "inode"; inode_info (stat_of mode_reg 50 3);
                          MList [MStr "immediate";
                                 MBin [Byte.x61; Byte.x62; Byte.x63]]] |}
    = Exc TypeError.
Proof.
  destruct (backup_entry_pushes_single (sample_repo 10) fs_backup backup_world 2 dirty_a
              [MStr "inode"; inode_info (stat_of mode_reg 50 3);
               MList [MStr "immediate"; MBin [Byte.x61; Byte.x62; Byte.x63]]]
              (inode_object (stat_of mode_reg 50 3)) [] id1
              {| objid := id1;
                 payload := Some [MStr "inode"; inode_info (stat_of mode_reg 50 3);
                                  MList [MStr "immediate";
                                         MBin [Byte.x61; Byte.x62; Byte.x63]]] |})
    as (Hpushed & _ & [Hnone|[_ Hraises]]).
  - vm_compute. apply list_elem_of_here.
  - reflexivity.
  - discriminate Hnone.
  - split; [exact Hpushed | exact Hraises].
Defined.

(** ** Progress of the backup *)

Lemma length_to_backup db : length (to_backup db) = size (dirty db).
Proof.
  unfold to_backup, dirty. rewrite map_filter_alt, <-length_map_to_list.
  symmetry. apply Permutation_length, map_to_list_to_map.
  eapply sublist_NoDup; [apply (NoDup_fst_map_to_list (fsentry db))|].
  apply fmap_sublist, sublist_filter.
Qed.

(** X23 — the backup of an entry makes progress and undoes none. Whatever
    [backup_entry] does, on any instance and any row, an entry without an
    object after the call was one before the call, unchanged: no entry
    loses its object and none is created. When the call returns, row [i] is
    no longer among the entries without an object; so, if it was among
    them, the query [to_backup] selects fewer entries than before. *)
Theorem backup_entry_progress repo fs w i entry :
  dirty (db_of (er_world (backup_entry repo fs w i entry))) ⊆ dirty (db_of w)
  ∧ (er_outcome (backup_entry repo fs w i entry) = Finished →
     dirty (db_of (er_world (backup_entry repo fs w i entry))) !! i = None
     ∧ (is_Some (dirty (db_of w) !! i) →
        (length (to_backup (db_of (er_world (backup_entry repo fs w i entry))))
         < length (to_backup (db_of w)))%nat)).
Proof.
  assert (dirty (db_of (er_world (backup_entry repo fs w i entry))) ⊆ dirty (db_of w))
    as Hsub.
  { apply map_subseteq_spec. intros x row [Hx Hobj]%map_lookup_filter_Some.
    apply map_lookup_filter_Some. split; [|done].
    by apply (backup_entry_dirty_rows repo fs w w i entry (λ x row H _, H)). }
  split; [done|]. intros Hout.
  assert (dirty (db_of (er_world (backup_entry repo fs w i entry))) !! i = None) as Hi.
  { revert Hout. unfold backup_entry.
    destruct (drive_contract repo i
                (backup_iterator fs (chunk_size repo) w i entry
                   (backup_inline_threshold repo))
                [] (backup_iterator_contract _ _ _ _ _ _)) as [_ Hexit].
    destruct (er_outcome (drive repo _ [])) eqn:Hd; [|by rewrite Hd..].
    destruct (Hexit eq_refl) as [[Hid Hrow]|(Hid & [o Hobj] & Hrow)].
    - rewrite bool_decide_eq_true_2 by (by right). intros _.
      apply map_lookup_filter_None. left. exact Hrow.
    - rewrite bool_decide_eq_true_2 by (left; by rewrite Hobj). intros _.
      apply map_lookup_filter_None. right. intros row Hrow'. simpl.
      rewrite Hrow in Hrow'. injection Hrow' as <-. by rewrite Hobj. }
  split; [done|]. intros Hrow. rewrite !length_to_backup.
  assert (size (dirty (db_of (er_world (backup_entry repo fs w i entry))))
          ≤ size (delete i (dirty (db_of w))))%nat as Hle.
  { apply map_subseteq_size, map_subseteq_spec. intros x r Hx.
    apply lookup_delete_Some. split; [by intros ->; rewrite Hi in Hx|].
    by eapply lookup_weaken. }
  rewrite (map_size_delete_Some _ _ Hrow) in Hle.
  assert (size (dirty (db_of w)) ≠ 0)%nat as Hne.
  { apply map_size_ne_0_lookup. by exists i. }
  lia.
Qed.

Lemma backup_entry_progress_witness :
  (length (to_backup (db_of (er_world
             (backup_entry (sample_repo 10) fs_backup backup_world 2 dirty_a))))
   < length (to_backup (db_of backup_world)))%nat.
Proof.
  destruct (backup_entry_progress (sample_repo 10) fs_backup backup_world 2 dirty_a)
    as [_ Hfinished].
  destruct (Hfinished eq_refl) as [_ Hless].
  apply Hless. exists dirty_a. reflexivity.
Defined.

(** ** What a scan leaves alone *)

Lemma scan_frame_refl db : scan_frame db db.
Proof. split_and!; [done..|]. intros x row o Hx Ho. by exists row. Qed.

Lemma scan_frame_trans db1 db2 db3 :
  scan_frame db1 db2 → scan_frame db2 db3 → scan_frame db1 db3.
Proof.
  intros (Ho & Hr & Hs & Hq & Hobj) (Ho' & Hr' & Hs' & Hq' & Hobj').
  split_and!; [congruence..|lia|].
  intros x row o Hx Hrow. destruct (Hobj' x row o Hx Hrow) as (row1 & Hx1 & Hrow1).
  by eapply Hobj.
Qed.

Lemma scan_frame_subseteq db tbl :
  tbl ⊆ fsentry db → scan_frame db (with_fsentry db tbl).
Proof.
  intros Hsub. split_and!; [done..|]. simpl. intros x row o Hx Ho.
  exists row. split; [|done]. by eapply lookup_weaken.
Qed.

Lemma create_entries_frame names i self db log db' log' :
  create_entries names i self db log = (log', Ok db') → scan_frame db db'.
Proof.
  revert db log. induction names as [|n names IH]; intros db log; simpl.
  { intros [= _ <-]. apply scan_frame_refl. }
  unfold create.
  destruct (get_by_path (fsentry db) (os.path.join (path self) n))
    as [[j newentry]|] eqn:Hget.
  - destruct (parent_id newentry); [done|]. intros Hrest%IH.
    eapply scan_frame_trans; [|done]. split_and!; [done..|]. simpl.
    intros x row o. rewrite lookup_alter.
    destruct (decide (j = x)) as [->|Hne]; [|by eauto].
    destruct (fsentry db !! x) as [row0|]; [|done]. simpl. intros [= <-]. by eauto.
  - intros Hrest%IH. eapply scan_frame_trans; [|done].
    split_and!; [done..|simpl; lia|]. simpl. intros x row o.
    intros [[<- <-]|[_ Hx]]%lookup_insert_Some; [done|]. by eauto.
Qed.

Lemma scan_directory_frame fs i self db log db' log' :
  scan_directory fs i self db log = (log', Ok db') → scan_frame db db'.
Proof.
  unfold scan_directory. intros Hdir.
  destruct (listdir_entries fs self log) as [[entries log1]|x]; [|done].
  destruct (create_entries _ _ _ _ _) as [log2 [db1|x]] eqn:Hcreate; [|done].
  apply create_entries_frame in Hcreate.
  destruct (delete_old _ _ _ _) as [tbl log3] eqn:Hdel. simplify_eq/=.
  eapply scan_frame_trans; [done|]. apply scan_frame_subseteq.
  pose proof (delete_old_subseteq (children (fsentry db) i) entries (fsentry db1) log2)
    as Hsub. by rewrite Hdel in Hsub.
Qed.

(** [FSEntry.scan] touches neither the objects nor the snapshots, and gives
    no entry an object. *)
Lemma scan_entry_frame fuel fs db i self : scan_frame db (sr_db (scan fuel fs db i self)).
Proof.
  unfold scan. destruct (os.lstat fs (path self)) as [st|x] eqn:Hstat.
  2:{ destruct x as [| | | | | | | | |msg|[]| | | | |]; simpl;
        first [ apply scan_frame_refl
              | apply scan_frame_subseteq, delete_cascade_subseteq ]. }
  destruct (st_mode self) as [mode|];
    [destruct (stat.S_ISDIR mode && negb (stat.S_ISDIR (os.st_mode st)))|]; simpl;
    (destruct (negb (new self) && compare_stat_info self st);
     [ simpl; first [ apply scan_frame_refl
                    | apply scan_frame_subseteq, delete_children_subseteq ] |]);
    match goal with
    | |- context [scan_directory fs i ?s ?d ?l] =>
        assert (scan_frame db d) as Hdb1
          by first [ apply scan_frame_refl
                   | apply scan_frame_subseteq, delete_children_subseteq ]
    end;
    (destruct (if stat.S_ISDIR (os.st_mode st) then _ else _) as [log2 [db2|x]] eqn:Hdir;
     simpl; [|apply scan_frame_refl]);
    (assert (scan_frame db db2) as Hdb2;
     [ destruct (stat.S_ISDIR (os.st_mode st)); [|by simplify_eq];
       apply scan_directory_frame in Hdir; exact (scan_frame_trans _ _ _ Hdb1 Hdir) |]);
    unfold save; (destruct (storable _); simpl; [|apply scan_frame_refl]);
    (destruct (invalidate fuel _ i) as [tbl'|] eqn:Hinv; simpl; [|apply scan_frame_refl]);
    apply invalidate_lookup in Hinv as (ids & _ & Hlook);
    (eapply scan_frame_trans; [done|]); (split_and!; [done..|]); simpl;
    intros y row o; rewrite Hlook;
    (destruct (decide (y = i)) as [->|Hne];
     [ rewrite lookup_insert_eq; simpl; intros [= <-]; by destruct (bool_decide _)
     | rewrite lookup_insert_ne by done;
       destruct (fsentry db2 !! y) as [row0|]; [|done]; simpl; intros [= <-] Ho;
       exists row0; split; [done|]; by destruct (bool_decide _) ]).
Qed.

Lemma scan_entries_frame fuel fs check entries db0 db log :
  scan_frame db0 db →
  scan_frame db0 (Scan.scan_entries fuel fs check entries db0 db log).1.1.
Proof.
  revert db log. induction entries as [|[i entry] rest IH]; intros db log Hdb; simpl.
  { done. }
  pose proof (scan_entry_frame fuel fs db i entry) as Hentry.
  destruct (sr_outcome (scan fuel fs db i entry)); simpl; [|apply scan_frame_refl..].
  destruct (check && _); simpl; [apply scan_frame_refl|].
  apply IH. by eapply scan_frame_trans.
Qed.

Lemma scan_new_frame loops fuel fs db log :
  scan_frame db (Scan.scan_new loops fuel fs db log).1.1.
Proof.
  revert db log. induction loops as [|loops IH]; intros db log; cbn [Scan.scan_new].
  - destruct (filter _ _); apply scan_frame_refl.
  - destruct (filter _ (map_to_list (fsentry db))) as [|kv qs]; [apply scan_frame_refl|].
    pose proof (scan_entries_frame fuel fs true (kv :: qs) db db log (scan_frame_refl db))
      as Hpass.
    destruct (Scan.scan_entries fuel fs true (kv :: qs) db db log) as [[db1 log1] []];
      [|done..].
    eapply scan_frame_trans; [done|]. apply IH.
Qed.

(** X24 — what a scan never does. However [scan()] ends, the tables
    [objects], [object_relations] and [snapshots] are as they were, an id of
    [fsentry] that was handed out is not handed out again, and no entry has
    gained an object: an entry with an object after the scan had that
    object before. The same holds of a single [FSEntry.scan]. *)
Theorem scan_keeps_store loops fuel fs db skip_existing :
  scan_frame db (Scan.scan loops fuel fs db skip_existing).1.1
  ∧ ∀ i self, scan_frame db (sr_db (scan fuel fs db i self)).
Proof.
  split; [|intros i self; apply scan_entry_frame].
  unfold Scan.scan.
  assert (scan_frame db
            (if skip_existing then (db, [], Finished)
             else Scan.scan_entries fuel fs false (map_to_list (fsentry db)) db db []).1.1)
    as Hfirst.
  { destruct skip_existing; [apply scan_frame_refl|].
    apply scan_entries_frame, scan_frame_refl. }
  destruct (if skip_existing then _ else _) as [[db1 log1] []]; [|done..].
  eapply scan_frame_trans; [done|]. apply scan_new_frame.
Qed.
